(** * The request pipeline of the Telegram MCP gateway

    A shallow embedding of the response cache ([cache/index.ts]), the two
    rate limiters, the circuit breaker and the retrying API client
    ([telegram-api.ts]), the numeric settings ([config/index.ts]), the
    detection of file references ([upload/index.ts]) and the health
    aggregator ([health/index.ts]), followed by the properties the
    specification states about them and by further properties of the
    code.

    Conventions of the embedding.
    - A JavaScript [number] that holds an instant, a count, an error code
      or an identifier is a [Z].  Each operation of a component takes the
      reading of [Date.now()] as its argument [now]; the client and the
      health functions read it from the [clock] of the process state,
      which advances while a fetch or a sleep is awaited, and between a
      limiter's refusal and the wait-time read that follows it (by the
      [tick] of the environment, which decides whether the reply can ask
      for a wait of 0 seconds); elsewhere in synchronous code it stands
      still.
    - Number texts: [String(n)] and [JSON.stringify(n)] of an integer are
      its decimal digits, which is what JavaScript prints below 10^21 in
      magnitude; statements that rest on the text of a number carry that
      bound.
    - A module-level singleton (the cache map, a limiter, the breaker) is
      a value that each operation takes and returns.
    - A string is a byte string: characters outside ASCII are their UTF-8
      bytes.
    - Logging and the metrics registry are write-only observers of the
      pipeline and are left out. *)

From Stdlib Require Import Ascii.
From stdpp Require Import gmap strings list fin_maps pretty sorting.

Set Warnings "-register-all".
Local Open Scope Z_scope.

(* ===================================================================== *)
(** * Part I: definitions                                                 *)
(* ===================================================================== *)

(** ** Strings *)

Module Str.

(** The double-quote character, U+0022. *)
Definition dquote : ascii := "034"%char.

(** [s.startsWith(p)] *)
Definition startsWith (s p : string) : bool := String.prefix p s.

(** [s.includes(p)] *)
Fixpoint includes (s p : string) : bool :=
  String.prefix p s ||
  match s with
  | EmptyString => false
  | String _ s' => includes s' p
  end.

(** [key.split(":")[0]]: the part of [s] before the first colon. *)
Fixpoint beforeColon (s : string) : string :=
  match s with
  | EmptyString => EmptyString
  | String c s' =>
      if Ascii.eqb c ":"%char then EmptyString else String c (beforeColon s')
  end.

(** No colon occurs in [s]. *)
Fixpoint colonFree (s : string) : bool :=
  match s with
  | EmptyString => true
  | String c s' => negb (Ascii.eqb c ":"%char) && colonFree s'
  end.

(** The white space that [parseInt] skips, [WhiteSpace] and
    [LineTerminator] of the language: in one byte TAB, LF, VT, FF, CR and
    the space; in two bytes U+00A0; in three bytes U+1680, U+2000 to
    U+200A, U+2028, U+2029, U+202F, U+205F, U+3000 and U+FEFF. *)
Definition isSpace2 (c1 c2 : ascii) : bool :=
  ((Ascii.N_of_ascii c1 =? 194) && (Ascii.N_of_ascii c2 =? 160))%N.

Definition isSpace3 (c1 c2 c3 : ascii) : bool :=
  let n1 := Ascii.N_of_ascii c1 in
  let n2 := Ascii.N_of_ascii c2 in
  let n3 := Ascii.N_of_ascii c3 in
  ((n1 =? 225) && (n2 =? 154) && (n3 =? 128)
   || (n1 =? 226) && (n2 =? 128)
      && ((128 <=? n3) && (n3 <=? 138) || (n3 =? 168) || (n3 =? 169) || (n3 =? 175))
   || (n1 =? 226) && (n2 =? 129) && (n3 =? 159)
   || (n1 =? 227) && (n2 =? 128) && (n3 =? 128)
   || (n1 =? 239) && (n2 =? 187) && (n3 =? 191))%N.

Fixpoint skipSpaces (s : string) : string :=
  match s with
  | EmptyString => EmptyString
  | String c1 s1 =>
      if Ascii.is_space c1 then skipSpaces s1
      else
        match s1 with
        | EmptyString => s
        | String c2 s2 =>
            if isSpace2 c1 c2 then skipSpaces s2
            else
              match s2 with
              | EmptyString => s
              | String c3 s3 => if isSpace3 c1 c2 c3 then skipSpaces s3 else s
              end
        end
  end.

(** The value of the longest prefix of decimal digits, [None] when the
    string does not start with a digit. *)
Fixpoint digits (acc : option Z) (s : string) : option Z :=
  match s with
  | EmptyString => acc
  | String c s' =>
      match Ascii.is_nat c with
      | Some d => digits (Some (10 * default 0 acc + Z.of_nat d)) s'
      | None => acc
      end
  end.

(** [parseInt(s, 10)]: leading white space, an optional sign, then as many
    decimal digits as follow; [None] is [NaN]. *)
Definition parseInt10 (s : string) : option Z :=
  match skipSpaces s with
  | String "-"%char r => Z.opp <$> digits None r
  | String "+"%char r => digits None r
  | r => digits None r
  end.

(** [s.toLowerCase()] on the letters A to Z.  No character outside ASCII
    lower-cases to a run of ASCII letters that could complete a match of the
    ASCII words searched for below, so for those searches this is the whole
    of it. *)
Definition lowerChar (c : ascii) : ascii :=
  let n := Ascii.N_of_ascii c in
  if ((65 <=? n) && (n <=? 90))%N then Ascii.ascii_of_N (n + 32) else c.

Fixpoint toLowerCase (s : string) : string :=
  match s with
  | EmptyString => EmptyString
  | String c s' => String (lowerChar c) (toLowerCase s')
  end.

End Str.

(** ** JSON values and [JSON.stringify] *)

Module Json.

(** The values a parameter object or a reply can hold.  Numbers are the
    integers (identifiers, counts, codes); [JUndefined] is the value of a
    property that was set to [undefined].  The fields of an object are
    listed in the order in which the object enumerates them, which is
    the order [JSON.stringify] and [Object.entries] follow. *)
Inductive json : Type :=
| JUndefined
| JNull
| JBool (b : bool)
| JNum (z : Z)
| JStr (s : string)
| JArr (items : list json)
| JObj (fields : list (string * json)).

(** A parameter object, [Record<string, unknown>]. *)
Abbreviation Params := (list (string * json)).

Definition isUndefined (j : json) : bool :=
  match j with JUndefined => true | _ => false end.

Definition isNull (j : json) : bool :=
  match j with JNull => true | _ => false end.

(** [obj[key]]: the value of the property, [undefined] when absent. *)
Fixpoint getField (key : string) (fields : Params) : json :=
  match fields with
  | [] => JUndefined
  | (k, v) :: rest => if String.eqb k key then v else getField key rest
  end.

(** A well-formed object has each property name once. *)
Definition wfObject (fields : Params) : Prop := NoDup (fields.*1).

(** Lower-case hexadecimal digit. *)
Definition hexDigit (n : N) : ascii :=
  match n with
  | 0 => "0" | 1 => "1" | 2 => "2" | 3 => "3" | 4 => "4" | 5 => "5"
  | 6 => "6" | 7 => "7" | 8 => "8" | 9 => "9" | 10 => "a" | 11 => "b"
  | 12 => "c" | 13 => "d" | 14 => "e" | _ => "f"
  end%char%N.

(** The escape of one character inside a JSON string literal
    (ECMA-262, QuoteJSONString). *)
Definition escapeChar (c : ascii) : string :=
  let n := Ascii.N_of_ascii c in
  if (n =? 8)%N then "\b"
  else if (n =? 9)%N then "\t"
  else if (n =? 10)%N then "\n"
  else if (n =? 12)%N then "\f"
  else if (n =? 13)%N then "\r"
  else if (n =? 34)%N then String "\"%char (String Str.dquote EmptyString)
  else if (n =? 92)%N then "\\"
  else if (n <? 32)%N then
    "\u00" +:+ String (hexDigit (n / 16)) (String (hexDigit (n mod 16)) EmptyString)
  else String c EmptyString.

(** The value of a hexadecimal digit. *)
Definition hexValue (c : ascii) : N :=
  let n := Ascii.N_of_ascii c in
  if (n <? 58)%N then (n - 48)%N else (n - 87)%N.

(** Reading one escaped character off the front of a string: the inverse
    of [escapeChar].  A bare double quote ends the literal and is not
    read. *)
Definition unescapeChar (s : string) : option (ascii * string) :=
  match s with
  | EmptyString => None
  | String c r =>
      if Ascii.eqb c "\"%char then
        match r with
        | EmptyString => None
        | String e r' =>
            if Ascii.eqb e "b"%char then Some ("008"%char, r')
            else if Ascii.eqb e "t"%char then Some ("009"%char, r')
            else if Ascii.eqb e "n"%char then Some ("010"%char, r')
            else if Ascii.eqb e "f"%char then Some ("012"%char, r')
            else if Ascii.eqb e "r"%char then Some ("013"%char, r')
            else if Ascii.eqb e Str.dquote then Some (Str.dquote, r')
            else if Ascii.eqb e "\"%char then Some ("\"%char, r')
            else
              match r' with
              | String _ (String _ (String h (String l r''))) =>
                  Some (Ascii.ascii_of_N (16 * hexValue h + hexValue l), r'')
              | _ => None
              end
        end
      else if Ascii.eqb c Str.dquote then None
      else Some (c, r)
  end.

Fixpoint escape (s : string) : string :=
  match s with
  | EmptyString => EmptyString
  | String c s' => escapeChar c +:+ escape s'
  end.

Definition quote (s : string) : string :=
  String Str.dquote (escape s +:+ String Str.dquote EmptyString).

(** [JSON.stringify] of a value in value position.  A property whose
    value is [undefined] is left out of an object; an [undefined] array
    element is written [null]. *)
Fixpoint stringify (j : json) : string :=
  match j with
  | JUndefined => "null"
  | JNull => "null"
  | JBool true => "true"
  | JBool false => "false"
  | JNum z => pretty z
  | JStr s => quote s
  | JArr items => "[" +:+ String.concat "," (map stringify items) +:+ "]"
  | JObj fields =>
      "{" +:+
      String.concat ","
        ((fix members (fs : list (string * json)) : list string :=
            match fs with
            | [] => []
            | (k, v) :: rest =>
                match v with
                | JUndefined => members rest
                | _ => (quote k +:+ ":" +:+ stringify v) :: members rest
                end
            end) fields)
      +:+ "}"
  end.

(** [String(value)] *)
Fixpoint toString (j : json) : string :=
  match j with
  | JUndefined => "undefined"
  | JNull => "null"
  | JBool true => "true"
  | JBool false => "false"
  | JNum z => pretty z
  | JStr s => s
  | JArr items =>
      String.concat ","
        (map (fun item =>
                match item with
                | JUndefined | JNull => EmptyString
                | _ => toString item
                end) items)
  | JObj _ => "[object Object]"
  end.

(** The properties of an object that [JSON.stringify] writes: those whose
    value is not [undefined], in enumeration order. *)
Definition written (fields : Params) : Params :=
  filter (fun kv => isUndefined (snd kv) = false) fields.

(** One member of an object literal: the quoted name, a colon, the value. *)
Definition member (kv : string * json) : string :=
  quote (fst kv) +:+ ":" +:+ stringify (snd kv).

(** What follows a member in an object literal: the closing brace, or a
    comma and the remaining members. *)
Definition afterMember (rest : Params) : string :=
  match rest with
  | [] => "}"
  | _ => "," +:+ (String.concat "," (map member rest) +:+ "}")
  end.

(** [JSON.stringify(params)] for a parameter object. *)
Definition stringifyObject (params : Params) : string := stringify (JObj params).

End Json.

(** ** The response cache ([cache/index.ts]) *)

Module Cache.
Import Json.

Record CacheEntry : Type := mkEntry {
  data : json;
  expiresAt : Z
}.

(** [const cache = new Map<string, CacheEntry>()] *)
Abbreviation Store := (gmap string CacheEntry).

(** [CACHE_TTL], in milliseconds; [None] when the method has no entry. *)
Definition CACHE_TTL (method : string) : option Z :=
  if String.eqb method "getMe" then Some (60 * 60 * 1000)
  else if String.eqb method "getWebhookInfo" then Some (60 * 1000)
  else if String.eqb method "getStickerSet" then Some (5 * 60 * 1000)
  else if String.eqb method "getChat" then Some (2 * 60 * 1000)
  else None.

(** [generateKey]: the method, a colon, and [JSON.stringify(params)]. *)
Definition generateKey (method : string) (params : Params) : string :=
  method +:+ ":" +:+ stringifyObject params.

(** [isCacheable]: [method in CACHE_TTL].  Method names range over Bot
    API method names; the names every object inherits from
    [Object.prototype] are not among them. *)
Definition isCacheable (method : string) : bool :=
  match CACHE_TTL method with Some _ => true | None => false end.

(** [getCached]: the cached value, or [null] on a miss.  An entry is
    dropped when the clock has passed its [expiresAt]. *)
Definition getCached (now : Z) (method : string) (params : Params)
    (cache : Store) : json * Store :=
  let key := generateKey method params in
  match cache !! key with
  | None => (JNull, cache)
  | Some entry =>
      if now >? expiresAt entry then (JNull, delete key cache)
      else (data entry, cache)
  end.

(** [setCache]: [ttlMs ?? CACHE_TTL[method]]; nothing is stored when the
    time to live is missing or zero. *)
Definition setCache (now : Z) (method : string) (params : Params)
    (value : json) (ttlMs : option Z) (cache : Store) : Store :=
  let key := generateKey method params in
  let ttl := match ttlMs with Some t => Some t | None => CACHE_TTL method end in
  match ttl with
  | None => cache
  | Some t =>
      if t =? 0 then cache
      else <[key := mkEntry value (now + t)]> cache
  end.

(** [clearCache] *)
Definition clearCache (cache : Store) : Store := ∅.

(** [clearCacheForMethod]: drop every key that starts with the method
    name and a colon. *)
Definition clearCacheForMethod (method : string) (cache : Store) : Store :=
  filter (fun kv => Str.startsWith (fst kv) (method +:+ ":") = false) cache.

(** The property names that the plain object [{}] inherits from
    [Object.prototype], [__proto__] apart. *)
Definition inheritedNames : list string :=
  ["constructor"; "hasOwnProperty"; "isPrototypeOf"; "propertyIsEnumerable";
   "toLocaleString"; "toString"; "valueOf"; "__defineGetter__";
   "__defineSetter__"; "__lookupGetter__"; "__lookupSetter__"].

(** What [methods[name]] holds: a count, or the string that adding 1 to an
    inherited function leaves there. *)
Inductive Tally : Type :=
| Count (n : nat)
| NotACount.

(** [methods[m] = (methods[m] || 0) + 1] on an object that starts as [{}].
    For an own count this adds one.  For a name that is not an own
    property yet, [methods[m]] is [undefined] and the count becomes 1,
    unless the name is inherited: then it is a function, the sum is a
    string, and every later sum is again a string.  An assignment of a
    string to [__proto__] is ignored. *)
Definition tally (m : string) (methods : gmap string Tally) : gmap string Tally :=
  if String.eqb m "__proto__" then methods
  else
    match methods !! m with
    | Some (Count n) => <[m := Count (S n)]> methods
    | Some NotACount => <[m := NotACount]> methods
    | None =>
        if bool_decide (m ∈ inheritedNames) then <[m := NotACount]> methods
        else <[m := Count 1]> methods
    end.

(** [getCacheStats]: the number of entries, and per method name (the part
    of the key before its first colon) the number of keys. *)
Definition getCacheStats (cache : Store) : nat * gmap string Tally :=
  (size cache,
   map_fold (fun key _ methods => tally (Str.beforeColon key) methods) ∅ cache).

(** The operations a client of the cache can issue. *)
Inductive Op : Type :=
| Lookup (method : string) (params : Params)
| Store_ (method : string) (params : Params) (value : json) (ttlMs : option Z)
| EvictMethod (method : string)
| Clear
| Stats.

Definition step (now : Z) (op : Op) (cache : Store) : Store :=
  match op with
  | Lookup m p => snd (getCached now m p cache)
  | Store_ m p v ttl => setCache now m p v ttl cache
  | EvictMethod m => clearCacheForMethod m cache
  | Clear => clearCache cache
  | Stats => cache
  end.

(** A run of operations, each at its own clock reading. *)
Definition run (ops : list (Z * Op)) (cache : Store) : Store :=
  foldl (fun c top => step (fst top) (snd top) c) cache ops.

(** An operation that neither removes nor overwrites the entry stored
    under [key]: any lookup, a store under another key, an eviction of a
    method whose prefix does not start [key]. *)
Definition keeps (key : string) (op : Op) : Prop :=
  match op with
  | Lookup _ _ => True
  | Store_ m p _ _ => generateKey m p ≠ key
  | EvictMethod m => Str.startsWith key (m +:+ ":") = false
  | Clear => False
  | Stats => True
  end.

End Cache.


(** ** The global rate limiter ([class RateLimiter]) *)

Module RateLimiter.

Record t : Type := mk {
  requests : list Z;
  limitPerMinute : Z
}.

(** [new RateLimiter(limitPerMinute)] *)
Definition create (limit : Z) : t := mk [] limit.

(** [cleanup]: keep the instants younger than one minute. *)
Definition cleanup (now : Z) (rl : t) : t :=
  let oneMinuteAgo := now - 60000 in
  mk (filter (fun time => time > oneMinuteAgo) (requests rl)) (limitPerMinute rl).

(** [canMakeRequest] *)
Definition canMakeRequest (now : Z) (rl : t) : bool * t :=
  let rl := cleanup now rl in
  (bool_decide (Z.of_nat (length (requests rl)) < limitPerMinute rl), rl).

(** [recordRequest] *)
Definition recordRequest (now : Z) (rl : t) : t :=
  mk (requests rl ++ [now]) (limitPerMinute rl).

(** [getWaitTime], in milliseconds.  [None] stands for the [NaN] that
    [requests[0]] yields on an empty array, which a limit below one would
    reach. *)
Definition getWaitTime (now : Z) (rl : t) : option Z * t :=
  let rl := cleanup now rl in
  if bool_decide (Z.of_nat (length (requests rl)) < limitPerMinute rl) then (Some 0, rl)
  else
    match requests rl with
    | [] => (None, rl)
    | oldestRequest :: _ => (Some (Z.max 0 (60000 - (now - oldestRequest))), rl)
    end.

(** [getRequestCount] *)
Definition getRequestCount (now : Z) (rl : t) : nat * t :=
  let rl := cleanup now rl in (length (requests rl), rl).

(** A sequence of [recordRequest] calls at the given clock readings. *)
Definition recordAll (times : list Z) (rl : t) : t :=
  foldl (fun rl now => recordRequest now rl) rl times.

(** [isLimited] *)
Definition isLimited (now : Z) (rl : t) : bool * t :=
  let r := canMakeRequest now rl in (negb (fst r), snd r).

End RateLimiter.

(** ** The per-chat rate limiter ([class PerChatRateLimiter]) *)

Module PerChatRateLimiter.

(** A chat identifier, [string | number].  [OtherId] is a value of another
    shape that the unchecked cast lets through (null, a boolean, an array,
    an object): all the limiter does with it is render it with [String]
    and classify it with [isNaN] and [<], so it is carried as that
    rendering and that classification. *)
Inductive ChatId : Type :=
| NumId (z : Z)
| StrId (s : string)
| OtherId (rendered : string) (group : bool).

Record t : Type := mk {
  chatTimestamps : gmap string (list Z);
  lastCleanup : Z
}.

(** [new PerChatRateLimiter()], constructed when the clock reads [now]. *)
Definition create (now : Z) : t := mk ∅ now.

Definition cleanupIntervalMs : Z := 60000.
Definition privateMessageIntervalMs : Z := 1000.
Definition groupMessagesPerMinute : Z := 20.

(** [String(chatId)]; for a number, its decimal digits (below 10^21 in
    magnitude). *)
Definition toKey (chatId : ChatId) : string :=
  match chatId with
  | NumId z => pretty z
  | StrId s => s
  | OtherId rendered _ => rendered
  end.

(** [isGroupChat]: [isNaN(id) || id < 0]. *)
Definition isGroupChat (chatId : ChatId) : bool :=
  match chatId with
  | StrId s =>
      match Str.parseInt10 s with
      | None => true
      | Some id => id <? 0
      end
  | NumId id => id <? 0
  | OtherId _ group => group
  end.

(** [maybeCleanup]: at most once a minute, drop the instants older than a
    minute and the chats left without any. *)
Definition maybeCleanup (now : Z) (l : t) : t :=
  if now - lastCleanup l <? cleanupIntervalMs then l
  else
    let oneMinuteAgo := now - 60000 in
    mk (omap (fun timestamps =>
                match filter (fun t => t > oneMinuteAgo) timestamps with
                | [] => None
                | recent => Some recent
                end) (chatTimestamps l))
       now.

(** [canSendToChat] *)
Definition canSendToChat (now : Z) (chatId : ChatId) (l : t) : bool * t :=
  let l := maybeCleanup now l in
  let id := toKey chatId in
  let timestamps := default [] (chatTimestamps l !! id) in
  if isGroupChat chatId then
    let oneMinuteAgo := now - 60000 in
    let recentCount := length (filter (fun t => t > oneMinuteAgo) timestamps) in
    (bool_decide (Z.of_nat recentCount < groupMessagesPerMinute), l)
  else
    match last timestamps with
    | None => (true, l)
    | Some lastMessage =>
        if lastMessage =? 0 then (true, l)
        else (bool_decide (now - lastMessage >= privateMessageIntervalMs), l)
    end.

(** [recordChatMessage] *)
Definition recordChatMessage (now : Z) (chatId : ChatId) (l : t) : t :=
  let id := toKey chatId in
  let timestamps := default [] (chatTimestamps l !! id) in
  mk (<[id := timestamps ++ [now]]> (chatTimestamps l)) (lastCleanup l).

(** [getWaitTimeForChat], in milliseconds. *)
Definition getWaitTimeForChat (now : Z) (chatId : ChatId) (l : t) : Z * t :=
  let l := maybeCleanup now l in
  let id := toKey chatId in
  let timestamps := default [] (chatTimestamps l !! id) in
  match last timestamps with
  | None => (0, l)
  | Some lastMessage =>
      if isGroupChat chatId then
        let oneMinuteAgo := now - 60000 in
        let recentTimestamps := filter (fun t => t > oneMinuteAgo) timestamps in
        match recentTimestamps with
        | [] => (0, l)
        | oldest :: _ =>
            if bool_decide (Z.of_nat (length recentTimestamps) < groupMessagesPerMinute)
            then (0, l)
            else (Z.max 0 (60000 - (now - oldest)), l)
        end
      else
        let elapsed := now - lastMessage in
        if bool_decide (elapsed >= privateMessageIntervalMs) then (0, l)
        else (privateMessageIntervalMs - elapsed, l)
  end.

(** [getTrackedChatsCount] *)
Definition getTrackedChatsCount (now : Z) (l : t) : nat * t :=
  let l := maybeCleanup now l in (size (chatTimestamps l), l).

(** The instants recorded for a chat. *)
Definition recorded (chatId : ChatId) (l : t) : list Z :=
  default [] (chatTimestamps l !! toKey chatId).

(** What a clock that never runs backwards and reads after the epoch
    leaves in the limiter: per chat, instants in non-decreasing order,
    positive and not after [now]. *)
Definition chronological (now : Z) (l : t) : Prop :=
  ∀ id ts, chatTimestamps l !! id = Some ts →
    StronglySorted Z.le ts ∧ Forall (fun t => 0 < t <= now) ts.

(** The calls a client of the limiter can make. *)
Inductive Call : Type :=
| CanSend (chatId : ChatId)
| Record_ (chatId : ChatId)
| WaitTime (chatId : ChatId)
| Tracked.

Definition step (now : Z) (call : Call) (l : t) : t :=
  match call with
  | CanSend chatId => snd (canSendToChat now chatId l)
  | Record_ chatId => recordChatMessage now chatId l
  | WaitTime chatId => snd (getWaitTimeForChat now chatId l)
  | Tracked => snd (getTrackedChatsCount now l)
  end.

(** A run of calls, each at its own clock reading. *)
Definition runCalls (calls : list (Z * Call)) (l : t) : t :=
  foldl (fun l call => step (fst call) (snd call) l) l calls.

(** The instants at which a run of calls recorded a message for the key
    of [chatId]. *)
Definition sentTo (chatId : ChatId) (calls : list (Z * Call)) : list Z :=
  omap (fun call =>
          match snd call with
          | Record_ id =>
              if decide (toKey id = toKey chatId) then Some (fst call) else None
          | _ => None
          end) calls.

End PerChatRateLimiter.

(** ** The circuit breaker ([class CircuitBreaker]) *)

Module CircuitBreaker.

Inductive State : Type := Closed | Open | HalfOpen.

Record t : Type := mk {
  consecutiveFailures : Z;
  openedAt : Z;
  state : State
}.

(** [new CircuitBreaker()] *)
Definition create : t := mk 0 0 Closed.

Definition threshold : Z := 5.
Definition resetMs : Z := 30000.

(** [isOpen]: [true] when requests are to be rejected.  An open breaker
    whose reset time has passed becomes half-open here. *)
Definition isOpen (now : Z) (b : t) : bool * t :=
  match state b with
  | Open =>
      if bool_decide (now - openedAt b >= resetMs)
      then (false, mk (consecutiveFailures b) (openedAt b) HalfOpen)
      else (true, b)
  | _ => (false, b)
  end.

(** [getState] *)
Definition getState (b : t) : State := state b.

(** [recordSuccess] *)
Definition recordSuccess (b : t) : t := mk 0 (openedAt b) Closed.

(** [recordFailure]: a code below 500 is ignored; a missing code or a code
    from 500 counts, and the breaker opens at the threshold. *)
Definition recordFailure (now : Z) (errorCode : option Z) (b : t) : t :=
  if match errorCode with Some code => code <? 500 | None => false end then b
  else
    let n := consecutiveFailures b + 1 in
    if bool_decide (n >= threshold) then mk n now Open
    else mk n (openedAt b) (state b).

(** [getConsecutiveFailures] *)
Definition getConsecutiveFailures (b : t) : Z := consecutiveFailures b.

(** A failure that counts towards the threshold: no code, or a code from
    500. *)
Definition qualifying (errorCode : option Z) : bool :=
  match errorCode with None => true | Some code => 500 <=? code end.

(** A sequence of [recordFailure] calls, each with its clock reading. *)
Definition reportAll (calls : list (Z * option Z)) (b : t) : t :=
  foldl (fun b call => recordFailure (fst call) (snd call) b) b calls.

(** The number of qualifying failures in a sequence of reports. *)
Definition countQualifying (calls : list (Z * option Z)) : Z :=
  Z.of_nat (length (filter (fun call => qualifying (snd call) = true) calls)).


(** The calls a client of the breaker can make. *)
Inductive Call : Type :=
| Check
| Succeeded
| Failed (errorCode : option Z).

Definition step (now : Z) (call : Call) (b : t) : t :=
  match call with
  | Check => snd (isOpen now b)
  | Succeeded => recordSuccess b
  | Failed errorCode => recordFailure now errorCode b
  end.

(** A run of calls, each at its own clock reading. *)
Definition runCalls (calls : list (Z * Call)) (b : t) : t :=
  foldl (fun b call => step (fst call) (snd call) b) b calls.

(** The instants at which a run of calls reported a qualifying failure. *)
Definition failureTimes (calls : list (Z * Call)) : list Z :=
  omap (fun call =>
          match snd call with
          | Failed errorCode =>
              if qualifying errorCode then Some (fst call) else None
          | _ => None
          end) calls.

End CircuitBreaker.

(** ** Configuration ([config/index.ts]) *)

Module Config.

(** The settings the client reads. *)
Record ServerConfig : Type := mk {
  requestTimeout : Z;
  maxRetries : Z;
  rateLimitPerMinute : Z
}.

(** [validateNumber]: the default for a missing, empty or unparsable
    value, otherwise the parsed number clamped to [min .. max]. *)
Definition validateNumber (value : option string) (defaultValue min max : Z) : Z :=
  match value with
  | None => defaultValue
  | Some EmptyString => defaultValue
  | Some text =>
      match Str.parseInt10 text with
      | None => defaultValue
      | Some num => Z.min (Z.max num min) max
      end
  end.

(** The numeric settings of [loadConfig], read from the process
    environment. *)
Definition loadConfig (env : string → option string) : ServerConfig :=
  mk (validateNumber (env "REQUEST_TIMEOUT") 30000 5000 120000)
     (validateNumber (env "MAX_RETRIES") 3 0 10)
     (validateNumber (env "RATE_LIMIT_PER_MINUTE") 30 1 60).

End Config.

(** ** File references ([upload/index.ts], file detection) *)

Module Upload.
Import Json.

(** [value.slice(n)] *)
Fixpoint slice (n : nat) (s : string) : string :=
  match n, s with
  | O, _ => s
  | S n, String _ s' => slice n s'
  | S _, EmptyString => EmptyString
  end.

(** A character of the class [[A-Za-z0-9_-]]. *)
Definition fileIdChar (c : ascii) : bool :=
  let n := Ascii.N_of_ascii c in
  ((65 <=? n) && (n <=? 90) || (97 <=? n) && (n <=? 122)
   || (48 <=? n) && (n <=? 57) || (n =? 95) || (n =? 45))%N.

Fixpoint allFileIdChars (s : string) : bool :=
  match s with
  | EmptyString => true
  | String c s' => fileIdChar c && allFileIdChars s'
  end.

(** [/^[A-Za-z0-9_-]{20,}$/.test(value)] *)
Definition fileIdPattern (s : string) : bool :=
  allFileIdChars s && bool_decide (20 <= Z.of_nat (String.length s)).

(** [isLocalFilePath]; [existsSync] is the file system, [false] also
    where [fs.existsSync] throws. *)
Definition isLocalFilePath (existsSync : string → bool) (value : json) : bool :=
  match value with
  | JStr value =>
      let filePath :=
        if Str.startsWith value "file://" then slice 7 value else value in
      if Str.startsWith filePath "/" then existsSync filePath else false
  | _ => false
  end.

(** [extractFilePath] *)
Definition extractFilePath (value : string) : string :=
  if Str.startsWith value "file://" then slice 7 value else value.

(** [isFileId] *)
Definition isFileId (value : json) : bool :=
  match value with
  | JStr value =>
      if Str.startsWith value "/" || Str.startsWith value "http://"
         || Str.startsWith value "https://" || Str.startsWith value "file://"
      then false
      else fileIdPattern value
  | _ => false
  end.

(** [isHttpUrl] *)
Definition isHttpUrl (value : json) : bool :=
  match value with
  | JStr value => Str.startsWith value "http://" || Str.startsWith value "https://"
  | _ => false
  end.

Inductive FileReferenceType : Type := LocalFile | FileId | Url | Unknown.

(** [getFileReferenceType] *)
Definition getFileReferenceType (existsSync : string → bool) (value : json)
    : FileReferenceType :=
  if isLocalFilePath existsSync value then LocalFile
  else if isHttpUrl value then Url
  else if isFileId value then FileId
  else Unknown.

End Upload.

(** ** The API client ([telegram-api.ts]) *)

Module Api.
Import Json.

Record ResponseParameters : Type := mkParameters {
  migrate_to_chat_id : option Z;
  retry_after : option Z
}.

(** [TelegramResponse]; an absent [result] is [JUndefined]. *)
Record TelegramResponse : Type := mkResponse {
  ok : bool;
  result : json;
  description : option string;
  error_code : option Z;
  parameters : option ResponseParameters
}.

(** [ApiCallOptions] *)
Record ApiCallOptions : Type := mkOptions {
  timeout : option Z;
  maxRetries : option Z;
  skipRateLimit : bool
}.

Definition noOptions : ApiCallOptions := mkOptions None None false.

(** How one [fetch] with its [response.json()] ends: with the parsed reply,
    or with an exception (an abort by the timeout, a network failure, a
    body that does not parse).  [elapsed] is the time the exchange took. *)
Inductive FetchOutcome : Type :=
| Replied (data : TelegramResponse) (elapsed : Z)
| Threw (isTimeout : bool) (message : string) (elapsed : Z).

(** How the upload stage ends.  It reads the file system, so its outcome
    comes from the environment: no local file among the parameters (also
    for a method outside [FILE_UPLOAD_METHODS]), local files found and
    valid with the parameters rewritten to [attach://] references, or
    [validateFiles] throwing. *)
Inductive UploadOutcome : Type :=
| NoFiles
| Multipart (cleanParams : Params)
| FileError (message : string).

(** What the client takes from outside. *)
Record Env : Type := mkTickingEnv {
  config : Config.ServerConfig;
  (** the outcome of the n-th [fetch] of the process *)
  fetch : nat → FetchOutcome;
  (** the upload stage for a method and its cleaned parameters *)
  upload : string → Params → UploadOutcome;
  (** [isNaN(Number(a)) || Number(a) < 0] for an array [a] used as a chat id *)
  arrayIsGroup : list json → bool;
  (** the milliseconds by which [Date.now()] has moved on from a
      limiter's admission check, made when the clock read the argument and
      answered with a refusal, to the reading of the clock in the
      wait-time call that follows it *)
  tick : Z → Z
}.

(** An environment in which the clock does not move between a refusal and
    its wait-time read. *)
Definition mkEnv (config : Config.ServerConfig) (fetch : nat → FetchOutcome)
    (upload : string → Params → UploadOutcome) (arrayIsGroup : list json → bool)
    : Env :=
  mkTickingEnv config fetch upload arrayIsGroup (fun _ => 0).

(** What the limiter has recorded and what went over the wire, in order:
    a history kept beside the state to state ordering properties. *)
Inductive Event : Type :=
| Recorded (instant : Z)
| Fetched (index : nat) (method : string).

(** The state of the process: the clock, the module-level singletons, the
    number of fetches made, and the history.  The per-chat limiter is
    [None] until [getPerChatLimiter] first constructs it, which fixes its
    [lastCleanup]; the global limiter and the breaker are constructed as
    lazily, but from the configuration and from constants alone, so they
    are present from the start. *)
Record World : Type := mkWorld {
  clock : Z;
  cache : Cache.Store;
  rateLimiter : RateLimiter.t;
  perChatLimiter : option PerChatRateLimiter.t;
  circuitBreaker : CircuitBreaker.t;
  fetchCount : nat;
  history : list Event
}.

(** The world of a process that has just loaded its configuration. *)
Definition start (env : Env) (now : Z) : World :=
  mkWorld now ∅ (RateLimiter.create (Config.rateLimitPerMinute (config env)))
          None CircuitBreaker.create 0 [].

Definition withClock (t : Z) (w : World) : World :=
  mkWorld t (cache w) (rateLimiter w) (perChatLimiter w) (circuitBreaker w)
          (fetchCount w) (history w).

Definition withCache (c : Cache.Store) (w : World) : World :=
  mkWorld (clock w) c (rateLimiter w) (perChatLimiter w) (circuitBreaker w)
          (fetchCount w) (history w).

Definition withRateLimiter (rl : RateLimiter.t) (w : World) : World :=
  mkWorld (clock w) (cache w) rl (perChatLimiter w) (circuitBreaker w)
          (fetchCount w) (history w).

Definition withPerChatLimiter (l : PerChatRateLimiter.t) (w : World) : World :=
  mkWorld (clock w) (cache w) (rateLimiter w) (Some l) (circuitBreaker w)
          (fetchCount w) (history w).

Definition withCircuitBreaker (b : CircuitBreaker.t) (w : World) : World :=
  mkWorld (clock w) (cache w) (rateLimiter w) (perChatLimiter w) b
          (fetchCount w) (history w).

(** [getPerChatLimiter] *)
Definition getPerChatLimiter (w : World) : PerChatRateLimiter.t :=
  match perChatLimiter w with
  | Some l => l
  | None => PerChatRateLimiter.create (clock w)
  end.

(** [MESSAGE_SENDING_METHODS.has(method)] *)
Definition isMessageSending (method : string) : bool :=
  bool_decide (method ∈
    ["sendMessage"; "sendPhoto"; "sendAudio"; "sendDocument"; "sendVideo";
     "sendAnimation"; "sendVoice"; "sendVideoNote"; "sendMediaGroup";
     "sendLocation"; "sendVenue"; "sendContact"; "sendPoll"; "sendDice";
     "sendSticker"; "sendInvoice"; "sendGame"; "copyMessage";
     "forwardMessage"]).

(** The value of [params.chat_id] as the limiter sees it; [None] when it
    is [undefined]. *)
Definition chatIdOf (env : Env) (value : json) : option PerChatRateLimiter.ChatId :=
  match value with
  | JUndefined => None
  | JNum z => Some (PerChatRateLimiter.NumId z)
  | JStr s => Some (PerChatRateLimiter.StrId s)
  | JNull | JBool _ => Some (PerChatRateLimiter.OtherId (toString value) false)
  | JArr items =>
      Some (PerChatRateLimiter.OtherId (toString value) (arrayIsGroup env items))
  | JObj _ => Some (PerChatRateLimiter.OtherId (toString value) true)
  end.

(** [ErrorCategory] *)
Inductive ErrorCategory : Type :=
| VALIDATION | CLIENT | SERVER | NETWORK | RATE_LIMITED | TIMEOUT | CIRCUIT_OPEN.

(** [categorizeError]: the first rule that matches; [None] is the
    exception thrown for a successful reply. *)
Definition categorizeError (response : TelegramResponse) : option ErrorCategory :=
  if ok response then None
  else if match description response with
          | Some text => Str.includes (Str.toLowerCase text) "timeout"
          | None => false
          end then Some TIMEOUT
  else if match description response with
          | Some text => Str.includes text "circuit breaker"
          | None => false
          end then Some CIRCUIT_OPEN
  else
    match error_code response with
    | None => Some NETWORK
    | Some code =>
        if code =? 0 then Some NETWORK
        else if code =? 429 then Some RATE_LIMITED
        else if 500 <=? code then Some SERVER
        else if 400 <=? code then Some CLIENT
        else Some NETWORK
    end.

(** [getRetryDelay]: the delay the reply asks for, else exponential
    backoff capped at 30 s. *)
Definition getRetryDelay (attempt : Z) (retryAfter : option Z) : Z :=
  match retryAfter with
  | Some seconds => if seconds =? 0 then Z.min (1000 * 2 ^ attempt) 30000
                    else seconds * 1000
  | None => Z.min (1000 * 2 ^ attempt) 30000
  end.

(** [isRetryableError]: not for a success; for code 429; for a code from
    500; for a reply without a code (or with code 0, which is as falsy)
    whose description mentions a network error. *)
Definition isRetryableError (response : TelegramResponse) : bool :=
  if ok response then false
  else if bool_decide (error_code response = Some 429) then true
  else if match error_code response with
          | Some code => negb (code =? 0) && (500 <=? code)
          | None => false
          end then true
  else if match error_code response with
          | Some code => code =? 0
          | None => true
          end &&
          match description response with
          | Some text => Str.includes text "Network error"
          | None => false
          end then true
  else false.

(** [Math.ceil(ms / 1000)] *)
Definition ceilSeconds (ms : Z) : Z := - ((- ms) / 1000).

(** The text of a number in a template string, [NaN] for [None]. *)
Definition show (n : option Z) : string :=
  match n with Some z => pretty z | None => "NaN" end.

Definition cachedResponse (value : json) : TelegramResponse :=
  mkResponse true value None None None.

Definition circuitOpenResponse : TelegramResponse :=
  mkResponse false JUndefined
    (Some "Service temporarily unavailable (circuit breaker open). Try again later.")
    (Some 503) None.

(** The reply of the global limiter; a wait time of [NaN] is carried as a
    missing [retry_after]. *)
Definition rateLimitedResponse (waitTime : option Z) : TelegramResponse :=
  let seconds := ceilSeconds <$> waitTime in
  mkResponse false JUndefined
    (Some ("Rate limit exceeded. Wait " +:+ show seconds +:+ " seconds."))
    (Some 429) (Some (mkParameters None seconds)).

Definition chatLimitedResponse (chatId : PerChatRateLimiter.ChatId) (waitTime : Z)
    : TelegramResponse :=
  let waitSeconds := ceilSeconds waitTime in
  mkResponse false JUndefined
    (Some ("Per-chat rate limit exceeded for chat " +:+
           PerChatRateLimiter.toKey chatId +:+ ". Wait " +:+
           pretty waitSeconds +:+ " seconds."))
    (Some 429) (Some (mkParameters None (Some waitSeconds))).

Definition fileErrorResponse (message : string) : TelegramResponse :=
  mkResponse false JUndefined (Some ("File upload error: " +:+ message))
    (Some 400) None.

Definition thrownResponse (timeout : Z) (isTimeout : bool) (message : string)
    : TelegramResponse :=
  mkResponse false JUndefined
    (Some (if isTimeout then "Request timeout after " +:+ pretty timeout +:+ "ms"
           else "Network error: " +:+ message))
    None None.

Definition unknownErrorResponse : TelegramResponse :=
  mkResponse false JUndefined (Some "Unknown error") None None.

(** The cache probe: [Some value] on a hit, that is when [getCached]
    returns something other than [null]. *)
Definition probeCache (method : string) (params : Params) (w : World)
    : option json * World :=
  if Cache.isCacheable method then
    let r := Cache.getCached (clock w) method params (cache w) in
    (if isNull (fst r) then None else Some (fst r), withCache (snd r) w)
  else (None, w).

(** [breaker.isOpen()] *)
Definition checkBreaker (w : World) : bool * World :=
  let r := CircuitBreaker.isOpen (clock w) (circuitBreaker w) in
  (fst r, withCircuitBreaker (snd r) w).

(** The clock after the [tick] that follows a refusal. *)
Definition afterTick (env : Env) (w : World) : Z :=
  clock w + Z.max 0 (tick env (clock w)).

(** The global limit: [Some reply] when the call is refused.  The check
    and the wait-time read are two calls, each with its own reading of
    the clock. *)
Definition checkGlobalLimit (env : Env) (options : ApiCallOptions) (w : World)
    : option TelegramResponse * World :=
  if skipRateLimit options then (None, w)
  else
    let r := RateLimiter.canMakeRequest (clock w) (rateLimiter w) in
    if fst r then (None, withRateLimiter (snd r) w)
    else
      let later := afterTick env w in
      let wait := RateLimiter.getWaitTime later (snd r) in
      (Some (rateLimitedResponse (fst wait)),
       withClock later (withRateLimiter (snd wait) w)).

(** The per-chat limit: [Some reply] when the call is refused; again the
    check and the wait-time read each read the clock. *)
Definition checkChatLimit (env : Env) (method : string) (params : Params)
    (options : ApiCallOptions) (w : World) : option TelegramResponse * World :=
  if negb (skipRateLimit options) && isMessageSending method then
    match chatIdOf env (getField "chat_id" params) with
    | None => (None, w)
    | Some chatId =>
        let r := PerChatRateLimiter.canSendToChat (clock w) chatId
                   (getPerChatLimiter w) in
        if fst r then (None, withPerChatLimiter (snd r) w)
        else
          let later := afterTick env w in
          let wait := PerChatRateLimiter.getWaitTimeForChat later chatId (snd r) in
          (Some (chatLimitedResponse chatId (fst wait)),
           withClock later (withPerChatLimiter (snd wait) w))
    end
  else (None, w).

(** [getRateLimiter().recordRequest()] *)
Definition recordRequest (w : World) : World :=
  mkWorld (clock w) (cache w)
          (RateLimiter.recordRequest (clock w) (rateLimiter w))
          (perChatLimiter w) (circuitBreaker w) (fetchCount w)
          (history w ++ [Recorded (clock w)]).

(** [await fetch(url, requestOptions)] and [await response.json()]: the
    next outcome of the transport, after the time the exchange took. *)
Definition doFetch (env : Env) (method : string) (w : World) : FetchOutcome * World :=
  let outcome := fetch env (fetchCount w) in
  let elapsed := match outcome with Replied _ e => e | Threw _ _ e => e end in
  (outcome,
   mkWorld (clock w + Z.max 0 elapsed) (cache w) (rateLimiter w)
           (perChatLimiter w) (circuitBreaker w) (S (fetchCount w))
           (history w ++ [Fetched (fetchCount w) method])).

(** [await sleep(ms)] *)
Definition sleep (ms : Z) (w : World) : World :=
  withClock (clock w + Z.max 0 ms) w.

(** The success path: close the breaker, record the message for the
    chat, store a cacheable result. *)
Definition onSuccess (env : Env) (method : string) (finalParams : Params)
    (data : TelegramResponse) (w : World) : World :=
  let w := withCircuitBreaker (CircuitBreaker.recordSuccess (circuitBreaker w)) w in
  let w :=
    if isMessageSending method then
      match chatIdOf env (getField "chat_id" finalParams) with
      | Some chatId =>
          withPerChatLimiter
            (PerChatRateLimiter.recordChatMessage (clock w) chatId
               (getPerChatLimiter w)) w
      | None => w
      end
    else w in
  if Cache.isCacheable method && negb (isUndefined (result data)) then
    withCache (Cache.setCache (clock w) method finalParams (result data)
                 (Cache.CACHE_TTL method) (cache w)) w
  else w.

(** [breaker.recordFailure(errorCode)] *)
Definition onFailure (errorCode : option Z) (w : World) : World :=
  withCircuitBreaker
    (CircuitBreaker.recordFailure (clock w) errorCode (circuitBreaker w)) w.

(** How one iteration of the retry loop ends: with [return], or with
    [continue] and the reply kept in [lastResponse]. *)
Inductive Step : Type :=
| Return (response : TelegramResponse) (w : World)
| Continue (lastResponse : TelegramResponse) (w : World).

(** The body of the retry loop: record the request, make the exchange,
    then return the reply or sleep and go round again. *)
Definition iteration (env : Env) (method : string) (finalParams : Params)
    (timeoutMs maxRetries : Z) (attempt : Z) (w : World) : Step :=
  let w := recordRequest w in
  let r := doFetch env method w in
  match fst r with
  | Replied data _ =>
      if ok data then Return data (onSuccess env method finalParams data (snd r))
      else if isRetryableError data && (attempt <? maxRetries) then
        let delay :=
          getRetryDelay attempt
            (match parameters data with
             | Some p => retry_after p
             | None => None
             end) in
        Continue data (sleep delay (snd r))
      else Return data (onFailure (error_code data) (snd r))
  | Threw isTimeout message _ =>
      let response := thrownResponse timeoutMs isTimeout message in
      if attempt <? maxRetries then
        Continue response (sleep (getRetryDelay attempt None) (snd r))
      else Return response (onFailure None (snd r))
  end.

Definition stepWorld (s : Step) : World :=
  match s with Return _ w => w | Continue _ w => w end.

(** The retry loop, [for (attempt = 0; attempt <= maxRetries; attempt++)].
    [remaining] is the number of iterations the loop condition still
    admits, [maxRetries + 1 - attempt]; when none is left the loop falls
    through to [lastResponse ?? { ok: false, description: "Unknown error" }]. *)
Fixpoint retryLoop (env : Env) (method : string) (finalParams : Params)
    (timeoutMs maxRetries : Z) (remaining : nat) (attempt : Z)
    (lastResponse : option TelegramResponse) (w : World)
    : TelegramResponse * World :=
  match remaining with
  | O => (default unknownErrorResponse lastResponse, w)
  | S remaining =>
      match iteration env method finalParams timeoutMs maxRetries attempt w with
      | Return response w => (response, w)
      | Continue response w =>
          retryLoop env method finalParams timeoutMs maxRetries remaining
                    (attempt + 1) (Some response) w
      end
  end.

(** [Object.fromEntries(Object.entries(params).filter(([_, v]) => v !== undefined))] *)
Definition cleanParams (params : Params) : Params := written params.

(** [callTelegramAPI] *)
Definition callTelegramAPI (env : Env) (method : string) (params : Params)
    (options : ApiCallOptions) (w : World) : TelegramResponse * World :=
  let timeoutMs := default (Config.requestTimeout (config env)) (timeout options) in
  let retries := default (Config.maxRetries (config env)) (maxRetries options) in
  let probe := probeCache method params w in
  match fst probe with
  | Some cached => (cachedResponse cached, snd probe)
  | None =>
      let breaker := checkBreaker (snd probe) in
      if fst breaker then (circuitOpenResponse, snd breaker)
      else
        let global := checkGlobalLimit env options (snd breaker) in
        match fst global with
        | Some refusal => (refusal, snd global)
        | None =>
            let chat := checkChatLimit env method params options (snd global) in
            match fst chat with
            | Some refusal => (refusal, snd chat)
            | None =>
                match upload env method (cleanParams params) with
                | FileError message => (fileErrorResponse message, snd chat)
                | NoFiles =>
                    retryLoop env method (cleanParams params) timeoutMs retries
                              (Z.to_nat (retries + 1)) 0 None (snd chat)
                | Multipart finalParams =>
                    retryLoop env method finalParams timeoutMs retries
                              (Z.to_nat (retries + 1)) 0 None (snd chat)
                end
            end
        end
  end.

(** The same invocation made [n] times in a row. *)
Fixpoint repeatCall (n : nat) (env : Env) (method : string) (params : Params)
    (options : ApiCallOptions) (w : World) : World :=
  match n with
  | O => w
  | S n =>
      repeatCall n env method params options
                 (snd (callTelegramAPI env method params options w))
  end.

(** The number of [fetch] calls an invocation adds. *)
Definition attemptsOf (w w' : World) : nat := (fetchCount w' - fetchCount w)%nat.

Definition isRecorded (e : Event) : bool :=
  match e with Recorded _ => true | Fetched _ _ => false end.

(** The events of consecutive attempts: each fetch right after the record
    made for it. *)
Fixpoint attemptEvents (method : string) (first : nat) (instants : list Z)
    : list Event :=
  match instants with
  | [] => []
  | instant :: rest =>
      Recorded instant :: Fetched first method :: attemptEvents method (S first) rest
  end.

(** An outcome the specification calls retryable: a failure reply with
    code 429 or a code from 500, or a transport error. *)
Definition retryable (outcome : FetchOutcome) : Prop :=
  match outcome with
  | Replied data _ =>
      ok data = false ∧
      (error_code data = Some 429 ∨ ∃ code, error_code data = Some code ∧ 500 <= code)
  | Threw _ _ _ => True
  end.

(** A failure reply with a code in the 4xx range other than 429. *)
Definition clientError (data : TelegramResponse) : Prop :=
  ok data = false ∧
  ∃ code, error_code data = Some code ∧ 400 <= code < 500 ∧ code ≠ 429.

(** The number of limiter records in a history. *)
Definition recordsIn (events : list Event) : nat :=
  length (filter (fun e => isRecorded e = true) events).

(** What an operation leaves alone when it makes no attempt: the fetch
    count and the history. *)
Definition sameTraffic (w w' : World) : Prop :=
  fetchCount w' = fetchCount w ∧ history w' = history w.

(** A process with [MAX_RETRIES=0] and [RATE_LIMIT_PER_MINUTE=100], as
    the tests of the client set it up. *)
Definition testConfig : Config.ServerConfig :=
  Config.loadConfig (fun name =>
    if String.eqb name "MAX_RETRIES" then Some "0"
    else if String.eqb name "RATE_LIMIT_PER_MINUTE" then Some "100"
    else None).

Definition networkDown : Env :=
  mkEnv testConfig (fun _ => Threw false "Network error" 5)
        (fun _ _ => NoFiles) (fun _ => true).

Definition answering (data : TelegramResponse) : Env :=
  mkEnv testConfig (fun _ => Replied data 5) (fun _ _ => NoFiles) (fun _ => true).

End Api.

(** ** Status exports and the health aggregator ([health/index.ts]) *)

Module Health.
Import Api.

(** [getCircuitBreakerStatus]: the state check runs first, so an open
    breaker whose reset time has passed is reported, and left,
    half-open. *)
Definition getCircuitBreakerStatus (w : World)
    : (CircuitBreaker.State * Z) * World :=
  let r := CircuitBreaker.isOpen (clock w) (circuitBreaker w) in
  ((CircuitBreaker.getState (snd r), CircuitBreaker.getConsecutiveFailures (snd r)),
   withCircuitBreaker (snd r) w).

Record RateLimiterStatus : Type := mkRateLimiterStatus {
  requestsInWindow : nat;
  limited : bool;
  perChatTracked : nat
}.

(** [getRateLimiterStatus]: two reads for the gauges, then the three
    reported ones. *)
Definition getRateLimiterStatus (w : World) : RateLimiterStatus * World :=
  let now := clock w in
  let gauge1 := RateLimiter.getRequestCount now (rateLimiter w) in
  let gauge2 := PerChatRateLimiter.getTrackedChatsCount now (getPerChatLimiter w) in
  let count := RateLimiter.getRequestCount now (snd gauge1) in
  let lim := RateLimiter.isLimited now (snd count) in
  let tracked := PerChatRateLimiter.getTrackedChatsCount now (snd gauge2) in
  (mkRateLimiterStatus (fst count) (fst lim) (fst tracked),
   withPerChatLimiter (snd tracked) (withRateLimiter (snd lim) w)).

Inductive Overall : Type := Healthy | Degraded | Unhealthy.

(** [HealthStatus], without the version string and the ISO timestamp. *)
Record HealthStatus : Type := mkHealthStatus {
  status : Overall;
  uptime : Z;
  breakerState : CircuitBreaker.State;
  breakerFailures : Z;
  cacheSize : nat;
  cacheMethods : gmap string Cache.Tally;
  rateLimiterStatus : RateLimiterStatus
}.

(** [getHealthStatus]; [startTime] is the instant the module was loaded. *)
Definition getHealthStatus (startTime : Z) (w : World) : HealthStatus * World :=
  let breaker := getCircuitBreakerStatus w in
  let limiter := getRateLimiterStatus (snd breaker) in
  let stats := Cache.getCacheStats (cache (snd limiter)) in
  let overall :=
    match fst (fst breaker) with
    | CircuitBreaker.Open => Unhealthy
    | CircuitBreaker.HalfOpen => Degraded
    | CircuitBreaker.Closed => if limited (fst limiter) then Degraded else Healthy
    end in
  (mkHealthStatus overall ((clock (snd limiter) - startTime) / 1000)
     (fst (fst breaker)) (snd (fst breaker)) (fst stats) (snd stats) (fst limiter),
   snd limiter).

(** [isReady] *)
Definition isReady (w : World) : bool * World :=
  let breaker := getCircuitBreakerStatus w in
  (match fst (fst breaker) with CircuitBreaker.Open => false | _ => true end,
   snd breaker).

End Health.

(** ** The process as a whole: the worlds it can reach *)

Module Process.
Import Api.

(** The global limiter holds its instants in order, none after the clock,
    and has a budget of at least one (as [loadConfig] ensures). *)
Definition limiterOk (now : Z) (rl : RateLimiter.t) : Prop :=
  1 <= RateLimiter.limitPerMinute rl
  ∧ StronglySorted Z.le (RateLimiter.requests rl)
  ∧ Forall (fun time => time <= now) (RateLimiter.requests rl).

(** The breaker's phase agrees with its counter. *)
Definition breakerOk (b : CircuitBreaker.t) : Prop :=
  0 <= CircuitBreaker.consecutiveFailures b
  ∧ (CircuitBreaker.state b = CircuitBreaker.Closed ↔
     CircuitBreaker.consecutiveFailures b < CircuitBreaker.threshold).

(** A world whose singletons are consistent with its clock. *)
Definition wellTimed (w : World) : Prop :=
  0 < clock w
  ∧ limiterOk (clock w) (rateLimiter w)
  ∧ PerChatRateLimiter.chronological (clock w) (getPerChatLimiter w)
  ∧ breakerOk (circuitBreaker w).

(** What happens in a process, one thing after another: an invocation of
    the client, a health or readiness probe, time passing. *)
Inductive Action : Type :=
| Invoke (method : string) (params : Json.Params) (options : ApiCallOptions)
| ProbeHealth (startTime : Z)
| ProbeReady
| Wait (ms : Z).

Definition act (env : Env) (action : Action) (w : World) : World :=
  match action with
  | Invoke method params options => snd (callTelegramAPI env method params options w)
  | ProbeHealth startTime => snd (Health.getHealthStatus startTime w)
  | ProbeReady => snd (Health.isReady w)
  | Wait ms => sleep ms w
  end.

Definition runActions (env : Env) (actions : list Action) (w : World) : World :=
  foldl (fun w action => act env action w) w actions.

End Process.

(* ===================================================================== *)
(** * Part II: properties                                                 *)
(* ===================================================================== *)

(** ** Lists *)

Section ListFacts.
Context {A : Type} (P : A → Prop) `{!∀ x, Decision (P x)}.

Lemma filter_all (l : list A) : Forall P l → filter P l = l.
Proof.
  induction 1 as [|x l Hx _ IH]; [done|].
  by rewrite filter_cons_True, IH by done.
Qed.

Lemma filter_none (l : list A) : Forall (fun x => ¬ P x) l → filter P l = [].
Proof.
  induction 1 as [|x l Hx _ IH]; [done|].
  by rewrite filter_cons_False by done.
Qed.

Lemma Forall_filter_keeps (Q : A → Prop) (l : list A) :
  Forall Q l → Forall Q (filter P l).
Proof.
  rewrite !Forall_forall. intros Hl x [_ Hx]%list_elem_of_filter. auto.
Qed.

End ListFacts.

(** ** Circuit breaker *)

Section BreakerFacts.
Import CircuitBreaker.

Lemma recordFailure_ignored now code b :
  code < 500 → recordFailure now (Some code) b = b.
Proof.
  intros Hlt. unfold recordFailure.
  by rewrite (proj2 (Z.ltb_lt code 500) Hlt).
Qed.

Lemma recordFailure_counts now errorCode b :
  qualifying errorCode = true →
  recordFailure now errorCode b =
    if bool_decide (consecutiveFailures b + 1 >= threshold)
    then mk (consecutiveFailures b + 1) now Open
    else mk (consecutiveFailures b + 1) (openedAt b) (state b).
Proof.
  unfold recordFailure, qualifying.
  destruct errorCode as [code|]; [|done].
  intros Hq%Z.leb_le. by rewrite (proj2 (Z.ltb_ge code 500) Hq).
Qed.

Lemma recordFailure_cases now errorCode b :
  (qualifying errorCode = false ∧ recordFailure now errorCode b = b) ∨
  (qualifying errorCode = true).
Proof.
  destruct errorCode as [code|]; [|by right].
  destruct (Z.leb_spec 500 code) as [Hge|Hlt].
  - right. unfold qualifying. by apply Z.leb_le.
  - left. split; [|by apply recordFailure_ignored].
    unfold qualifying. by apply Z.leb_gt.
Qed.

Lemma countQualifying_nil : countQualifying [] = 0.
Proof. done. Qed.

Lemma countQualifying_snoc calls call :
  countQualifying (calls ++ [call]) =
  countQualifying calls + (if qualifying (snd call) then 1 else 0).
Proof.
  unfold countQualifying. rewrite filter_app, length_app.
  rewrite filter_cons, filter_nil.
  destruct (qualifying (snd call)); case_decide; simpl; try done; lia.
Qed.

Lemma reportAll_snoc calls call b :
  reportAll (calls ++ [call]) b =
  recordFailure (fst call) (snd call) (reportAll calls b).
Proof. unfold reportAll. by rewrite foldl_app. Qed.

(** Below the threshold the counter is the number of qualifying failures
    and the breaker stays closed. *)
Lemma reportAll_below calls b :
  consecutiveFailures b = 0 → state b = Closed →
  countQualifying calls < threshold →
  consecutiveFailures (reportAll calls b) = countQualifying calls ∧
  state (reportAll calls b) = Closed.
Proof.
  intros Hzero Hclosed.
  induction calls as [|call calls IH] using rev_ind; [done|].
  rewrite countQualifying_snoc, reportAll_snoc. intros Hlt.
  destruct (recordFailure_cases (fst call) (snd call) (reportAll calls b))
    as [[Hq ->]|Hq]; rewrite Hq in *.
  - rewrite Z.add_0_r in *. by apply IH.
  - destruct IH as [Hn Hs]; [lia|].
    rewrite recordFailure_counts by done.
    rewrite bool_decide_eq_false_2 by (rewrite Hn; lia).
    simpl. by rewrite Hn, Hs.
Qed.

Lemma reportAll_ignored calls b :
  Forall (fun call => ∃ code, snd call = Some code ∧ 400 <= code < 500) calls →
  reportAll calls b = b.
Proof.
  induction calls as [|call calls IH] using rev_ind; [done|].
  intros [Hcalls Hcall]%Forall_app. rewrite reportAll_snoc, IH by done.
  apply Forall_singleton in Hcall as (code & -> & Hcode).
  apply recordFailure_ignored. lia.
Qed.

(** C1. After a success (counter at zero, breaker closed), in any sequence
    of failure reports the breaker is still closed before the fifth report
    that carries a qualifying code (no code, or a code from 500) and is
    open after it, opened at that report's instant.  A report with a code
    from 400 to 499, 429 included, changes neither the phase nor the
    counter, however many of them are made. *)
Theorem breaker_opens_on_fifth_qualifying_failure
    (b : t) (earlier : list (Z * option Z)) (now : Z) (errorCode : option Z) :
  consecutiveFailures b = 0 → state b = Closed →
  countQualifying earlier = 4 → qualifying errorCode = true →
  state (reportAll earlier b) = Closed
  ∧ state (reportAll (earlier ++ [(now, errorCode)]) b) = Open
  ∧ openedAt (reportAll (earlier ++ [(now, errorCode)]) b) = now
  ∧ (∀ (b' : t) (now' code : Z), 400 <= code < 500 →
       recordFailure now' (Some code) b' = b')
  ∧ (∀ (b' : t) (calls : list (Z * option Z)),
       Forall (fun call => ∃ code, snd call = Some code ∧ 400 <= code < 500) calls →
       state (reportAll calls b') = state b' ∧
       consecutiveFailures (reportAll calls b') = consecutiveFailures b').
Proof.
  intros Hzero Hclosed Hfour Hq.
  destruct (reportAll_below earlier b Hzero Hclosed) as [Hn Hs].
  { rewrite Hfour. unfold threshold. lia. }
  split; [done|].
  rewrite reportAll_snoc; simpl. rewrite recordFailure_counts by done.
  rewrite bool_decide_eq_true_2 by (rewrite Hn, Hfour; unfold threshold; lia).
  repeat split; try done.
  - intros b' now' code Hcode. apply recordFailure_ignored. lia.
  - by rewrite reportAll_ignored.
  - by rewrite reportAll_ignored.
Qed.

Lemma breaker_opens_on_fifth_qualifying_failure_witness :
  let earlier := [(10, None); (20, Some 503); (30, Some 400);
                  (40, None); (50, Some 429); (60, Some 500)] in
  state (reportAll earlier create) = Closed
  ∧ state (reportAll (earlier ++ [(70, Some 502)]) create) = Open
  ∧ openedAt (reportAll (earlier ++ [(70, Some 502)]) create) = 70.
Proof.
  intros earlier.
  pose proof (breaker_opens_on_fifth_qualifying_failure
                create earlier 70 (Some 502) eq_refl eq_refl eq_refl eq_refl)
    as (H1 & H2 & H3 & _).
  auto.
Defined.


Lemma isOpen_half_opens now b :
  state b = Open → now - openedAt b >= resetMs →
  isOpen now b = (false, mk (consecutiveFailures b) (openedAt b) HalfOpen).
Proof.
  intros Hopen Hlate. unfold isOpen. rewrite Hopen.
  by rewrite bool_decide_eq_true_2 by lia.
Qed.

Lemma isOpen_not_open now b : state b ≠ Open → isOpen now b = (false, b).
Proof. unfold isOpen. by destruct (state b). Qed.




End BreakerFacts.

(** ** Configuration *)

Section ConfigFacts.
Import Config.

Lemma validateNumber_range value defaultValue min max :
  min <= defaultValue <= max → min <= validateNumber value defaultValue min max <= max.
Proof.
  intros Hdefault. unfold validateNumber.
  destruct value as [[|c text]|]; [done| |done].
  destruct (Str.parseInt10 _); [lia|done].
Qed.

(** A loaded configuration has a budget of 1 to 60 requests a minute and
    a retry budget of 0 to 10. *)
Lemma loadConfig_bounds env :
  1 <= rateLimitPerMinute (loadConfig env) <= 60
  ∧ 0 <= maxRetries (loadConfig env) <= 10
  ∧ 5000 <= requestTimeout (loadConfig env) <= 120000.
Proof. unfold loadConfig. cbn. repeat split; apply validateNumber_range; lia. Qed.

End ConfigFacts.

(** ** Global rate limiter *)

Section RateLimiterFacts.
Import RateLimiter.

Lemma recordAll_snoc times now rl :
  recordAll (times ++ [now]) rl = recordRequest now (recordAll times rl).
Proof. unfold recordAll. by rewrite foldl_app. Qed.

Lemma recordAll_requests times rl :
  requests (recordAll times rl) = requests rl ++ times.
Proof.
  induction times as [|now times IH] using rev_ind.
  - simpl. by rewrite app_nil_r.
  - rewrite recordAll_snoc. simpl. by rewrite IH, app_assoc.
Qed.

Lemma recordAll_limit times rl :
  limitPerMinute (recordAll times rl) = limitPerMinute rl.
Proof.
  induction times as [|now times IH] using rev_ind; [done|].
  by rewrite recordAll_snoc.
Qed.

Lemma cleanup_idemp now rl : cleanup now (cleanup now rl) = cleanup now rl.
Proof.
  unfold cleanup. simpl. f_equal.
  apply list_filter_filter_r. by intros time.
Qed.

(** C5. An admission check first drops every instant that is 60 s old or
    older and keeps the younger ones, then allows exactly when fewer
    instants remain than the per-minute budget.  When it refuses, the wait
    time read next is [60000 - (now - oldest)], floored at 0, for the
    first remaining instant.  After 30 records made within the minute
    before the check, with a budget of 30, the check refuses and the wait
    time lies between 0 and 60 000 ms. *)
Theorem rate_limiter_admission (now : Z) (rl : t) :
  1 <= limitPerMinute rl →
  let allowed := fst (canMakeRequest now rl) in
  let rl' := snd (canMakeRequest now rl) in
  requests rl' = filter (fun time => now - time < 60000) (requests rl)
  ∧ (∀ time, time ∈ requests rl → 60000 <= now - time → time ∉ requests rl')
  ∧ (allowed = true ↔ Z.of_nat (length (requests rl')) < limitPerMinute rl)
  ∧ (allowed = false →
       ∃ oldest rest, requests rl' = oldest :: rest ∧
         getWaitTime now rl' = (Some (Z.max 0 (60000 - (now - oldest))), rl'))
  ∧ (∀ (rl0 : t) (times : list Z),
       limitPerMinute rl0 = 30 → length times = 30%nat →
       Forall (fun time => time <= now) (requests rl0) →
       Forall (fun time => now - 60000 < time <= now) times →
       fst (canMakeRequest now (recordAll times rl0)) = false ∧
       ∃ waitMs,
         fst (getWaitTime now (snd (canMakeRequest now (recordAll times rl0))))
           = Some waitMs ∧ 0 <= waitMs <= 60000).
Proof.
  intros Hlimit allowed rl'.
  assert (Hreq : requests rl' =
                 filter (fun time => now - time < 60000) (requests rl)).
  { subst rl'. simpl. apply list_filter_iff. intros time. lia. }
  assert (Hwait : ∀ l : t, 1 <= limitPerMinute l →
            fst (canMakeRequest now l) = false →
            ∃ oldest rest, requests (snd (canMakeRequest now l)) = oldest :: rest ∧
              getWaitTime now (snd (canMakeRequest now l)) =
              (Some (Z.max 0 (60000 - (now - oldest))), snd (canMakeRequest now l))).
  { intros l Hl Hrefused. unfold canMakeRequest in *. cbn [fst snd] in *.
    apply bool_decide_eq_false in Hrefused.
    unfold getWaitTime. rewrite cleanup_idemp.
    rewrite bool_decide_eq_false_2 by done.
    change (limitPerMinute (cleanup now l)) with (limitPerMinute l) in Hrefused.
    destruct (requests (cleanup now l)) as [|oldest rest] eqn:Hrem.
    - simpl in Hrefused. lia.
    - by exists oldest, rest. }
  split; [done|]. split; [|split; [|split]].
  - intros time _ Hold. rewrite Hreq, list_elem_of_filter. lia.
  - subst allowed rl'. simpl. by rewrite bool_decide_eq_true.
  - by apply Hwait.
  - intros rl0 times Hbudget Hlen Hpast Hminute.
    set (full := recordAll times rl0).
    assert (Hfull : fst (canMakeRequest now full) = false).
    { simpl. apply bool_decide_eq_false.
      subst full. rewrite recordAll_limit, recordAll_requests, Hbudget.
      rewrite filter_app, length_app.
      rewrite (filter_all _ times); [lia|].
      eapply Forall_impl; [exact Hminute|]. simpl. lia. }
    split; [done|].
    destruct (Hwait full) as (oldest & rest & Hrem & Hw); [|done|].
    { subst full. rewrite recordAll_limit. lia. }
    exists (Z.max 0 (60000 - (now - oldest))). rewrite Hw. split; [done|].
    assert (Hin : oldest > now - 60000 ∧ oldest ∈ requests full).
    { apply (list_elem_of_filter (fun time => time > now - 60000)).
      change (oldest ∈ requests (snd (canMakeRequest now full))).
      rewrite Hrem. left. }
    destruct Hin as [_ Hin]. subst full.
    rewrite recordAll_requests, elem_of_app in Hin.
    assert (oldest <= now).
    { destruct Hin as [Hin|Hin].
      - by apply (proj1 (Forall_forall _ _) Hpast).
      - apply (proj1 (Forall_forall _ _) Hminute) in Hin. lia. }
    lia.
Qed.

Lemma rate_limiter_admission_witness :
  let times := (fun i => 1000 + 100 * i) <$> seqZ 0 30 in
  fst (canMakeRequest 5000 (recordAll times (create 30))) = false
  ∧ ∃ waitMs,
      fst (getWaitTime 5000 (snd (canMakeRequest 5000 (recordAll times (create 30)))))
        = Some waitMs ∧ 0 <= waitMs <= 60000.
Proof.
  intros times.
  assert (Hlimit : 1 <= limitPerMinute (create 30)) by (simpl; lia).
  pose proof (rate_limiter_admission 5000 (create 30) Hlimit) as (_ & _ & _ & _ & H).
  apply (H (create 30) times); [reflexivity | reflexivity | constructor |].
  apply Forall_forall. intros time Htime.
  apply list_elem_of_fmap in Htime as (i & -> & Hi).
  apply elem_of_seqZ in Hi. lia.
Defined.

End RateLimiterFacts.

(** ** Per-chat rate limiter *)

Section PerChatFacts.
Import PerChatRateLimiter.

Lemma chronological_create now : chronological now (create now).
Proof. intros id ts. unfold create. simpl. by rewrite lookup_empty. Qed.

Lemma chronological_mono now now' l :
  now <= now' → chronological now l → chronological now' l.
Proof.
  intros Hle Hl id ts Hts. destruct (Hl id ts Hts) as [Hs Hb].
  split; [done|]. eapply Forall_impl; [exact Hb|]. simpl. lia.
Qed.

Lemma StronglySorted_filter (P : Z → Prop) `{∀ x, Decision (P x)} (ts : list Z) :
  StronglySorted Z.le ts → StronglySorted Z.le (filter P ts).
Proof.
  induction 1 as [|t ts Hs IH Hall]; [constructor|].
  rewrite filter_cons. case_decide; [|done].
  constructor; [done|]. by apply Forall_filter_keeps.
Qed.

Lemma chronological_maybeCleanup now l :
  chronological now l → chronological now (maybeCleanup now l).
Proof.
  intros Hl. unfold maybeCleanup. case_match; [done|].
  intros id ts. simpl. rewrite lookup_omap.
  destruct (chatTimestamps l !! id) as [old|] eqn:Hold; [|done]. simpl.
  destruct (Hl id old Hold) as [Hs Hb].
  destruct (filter _ old) as [|t recent] eqn:Hrecent; [done|].
  intros [= <-]. rewrite <- Hrecent.
  split; [by apply StronglySorted_filter | by apply Forall_filter_keeps].
Qed.

Lemma chronological_recordChatMessage now now' chatId l :
  now <= now' → 0 < now' →
  chronological now l → chronological now' (recordChatMessage now' chatId l).
Proof.
  intros Hle Hpos Hl id ts. unfold recordChatMessage. simpl.
  destruct (decide (toKey chatId = id)) as [<-|Hne].
  - rewrite lookup_insert_eq. intros [= <-].
    destruct (chatTimestamps l !! toKey chatId) as [old|] eqn:Hold; simpl.
    + destruct (Hl _ old Hold) as [Hs Hb]. split.
      * apply StronglySorted_app. split; [|split; [done|repeat constructor]].
        intros x1 x2 Hx1 ->%list_elem_of_singleton.
        apply (proj1 (Forall_forall _ _) Hb) in Hx1. lia.
      * apply Forall_app. split; [|repeat constructor; lia].
        eapply Forall_impl; [exact Hb|]. simpl. lia.
    + split; repeat constructor; lia.
  - rewrite lookup_insert_ne by done. intros Hts.
    by apply (chronological_mono now now' l Hle Hl id ts).
Qed.

(** The instants of a chat after the periodic sweep: the same, or the
    recent ones. *)
Lemma recorded_maybeCleanup now chatId l :
  recorded chatId (maybeCleanup now l) = recorded chatId l ∨
  recorded chatId (maybeCleanup now l) =
    filter (fun t => t > now - 60000) (recorded chatId l).
Proof.
  unfold maybeCleanup. case_match; [by left|]. right.
  unfold recorded. simpl. rewrite lookup_omap.
  destruct (chatTimestamps l !! toKey chatId) as [old|]; [|done]. simpl.
  by destruct (filter _ old).
Qed.

Lemma recent_maybeCleanup now chatId l :
  filter (fun t => t > now - 60000) (recorded chatId (maybeCleanup now l)) =
  filter (fun t => t > now - 60000) (recorded chatId l).
Proof.
  destruct (recorded_maybeCleanup now chatId l) as [->| ->]; [done|].
  apply list_filter_filter_r. by intros t.
Qed.

Lemma canSendToChat_group now chatId l :
  isGroupChat chatId = true →
  fst (canSendToChat now chatId l) =
  bool_decide (Z.of_nat (length (filter (fun t => t > now - 60000)
                                        (recorded chatId l))) < 20).
Proof.
  intros Hgroup. unfold canSendToChat. rewrite Hgroup. cbn [fst].
  fold (recorded chatId (maybeCleanup now l)).
  by rewrite recent_maybeCleanup.
Qed.

Lemma last_recent now (ts : list Z) (lastInstant : Z) :
  StronglySorted Z.le ts → last ts = Some lastInstant →
  last (filter (fun t => t > now - 60000) ts) =
    if bool_decide (lastInstant > now - 60000) then Some lastInstant else None.
Proof.
  intros Hs [old ->]%last_Some. rewrite filter_app, filter_cons, filter_nil.
  case_bool_decide as Hlast.
  - rewrite decide_True by done. apply last_snoc.
  - rewrite decide_False by done. rewrite app_nil_r. apply last_None.
    apply filter_none. apply Forall_forall. intros t Ht.
    assert (t <= lastInstant).
    { eapply (StronglySorted_app_1_elem_of _ old [lastInstant]); [done..|left]. }
    lia.
Qed.

Lemma canSendToChat_private now chatId l :
  isGroupChat chatId = false →
  StronglySorted Z.le (recorded chatId l) →
  Forall (fun t => 0 < t) (recorded chatId l) →
  fst (canSendToChat now chatId l) =
  match last (recorded chatId l) with
  | None => true
  | Some lastInstant => bool_decide (now - lastInstant >= 1000)
  end.
Proof.
  intros Hprivate Hs Hpos. unfold canSendToChat. rewrite Hprivate.
  fold (recorded chatId (maybeCleanup now l)).
  destruct (recorded_maybeCleanup now chatId l) as [->| ->].
  - destruct (last (recorded chatId l)) as [lastInstant|] eqn:Hlast; [|done].
    assert (0 < lastInstant).
    { apply last_Some_elem_of in Hlast.
      by apply (proj1 (Forall_forall _ _) Hpos). }
    by rewrite (proj2 (Z.eqb_neq lastInstant 0)) by lia.
  - destruct (last (recorded chatId l)) as [lastInstant|] eqn:Hlast.
    + assert (0 < lastInstant).
      { apply last_Some_elem_of in Hlast.
        by apply (proj1 (Forall_forall _ _) Hpos). }
      rewrite (last_recent now _ lastInstant) by done.
      case_bool_decide as Hrecent.
      * by rewrite (proj2 (Z.eqb_neq lastInstant 0)) by lia.
      * cbn [fst]. symmetry. apply bool_decide_eq_true_2.
        unfold privateMessageIntervalMs. lia.
    + apply last_None in Hlast. by rewrite Hlast.
Qed.

Lemma chronological_recorded t0 chatId l :
  chronological t0 l →
  StronglySorted Z.le (recorded chatId l) ∧ Forall (fun t => 0 < t) (recorded chatId l).
Proof.
  intros Hl. unfold recorded.
  destruct (chatTimestamps l !! toKey chatId) as [ts|] eqn:Hts; simpl.
  - destruct (Hl _ ts Hts) as [Hs Hb]. split; [done|].
    eapply Forall_impl; [exact Hb|]. simpl. lia.
  - split; constructor.
Qed.

Lemma recorded_recordChatMessage now sent other l :
  recorded other (recordChatMessage now sent l) =
  if decide (toKey sent = toKey other) then recorded other l ++ [now]
  else recorded other l.
Proof.
  unfold recorded, recordChatMessage. cbn [chatTimestamps].
  case_decide as Hkey.
  - by rewrite Hkey, lookup_insert_eq.
  - by rewrite lookup_insert_ne.
Qed.

(** C6. Every id is classified: a numeric id below zero is group/channel
    and one from zero up is private; a string id is classified by what
    [parseInt] makes of it, group/channel when it does not parse and
    otherwise by the sign of the number read.  In the group regime a send
    is admitted exactly when fewer than 20 of the chat's recorded instants
    lie within the trailing 60 s.  In the private regime, with the
    instants recorded in order by a clock that reads after the epoch, a
    send is admitted exactly when no instant is recorded or the last
    recorded instant is at least 1000 ms old.  The record is kept per
    destination: different numbers, and different strings, are different
    destinations, and recording a message adds its instant to the record
    of its own destination and to no other. *)
Theorem per_chat_admission (now t0 : Z) (chatId other : ChatId) (l : t) :
  (∀ z, z < 0 → isGroupChat (NumId z) = true)
  ∧ (∀ s, Str.parseInt10 s = None → isGroupChat (StrId s) = true)
  ∧ (∀ z, 0 <= z → isGroupChat (NumId z) = false)
  ∧ (∀ s n, Str.parseInt10 s = Some n →
       (n < 0 → isGroupChat (StrId s) = true)
       ∧ (0 <= n → isGroupChat (StrId s) = false))
  ∧ (isGroupChat chatId = true →
       (fst (canSendToChat now chatId l) = true ↔
        Z.of_nat (length (filter (fun t => now - t < 60000) (recorded chatId l)))
          < 20))
  ∧ (isGroupChat chatId = false → chronological t0 l →
       (fst (canSendToChat now chatId l) = true ↔
        recorded chatId l = [] ∨
        ∃ lastInstant, last (recorded chatId l) = Some lastInstant ∧
                       now - lastInstant >= 1000))
  ∧ (∀ z z', toKey (NumId z) = toKey (NumId z') → z = z')
  ∧ (∀ s s', toKey (StrId s) = toKey (StrId s') → s = s')
  ∧ recorded chatId (recordChatMessage now chatId l) = recorded chatId l ++ [now]
  ∧ (toKey other ≠ toKey chatId →
     recorded other (recordChatMessage now chatId l) = recorded other l).
Proof.
  split; [|split; [|split; [|split; [|split; [|split; [|split; [|split; [|split]]]]]]]].
  - intros z Hz. simpl. by apply Z.ltb_lt.
  - intros s Hs. simpl. by rewrite Hs.
  - intros z Hz. simpl. by apply Z.ltb_ge.
  - intros s n Hs. simpl. rewrite Hs. split; intros Hn.
    + by apply Z.ltb_lt.
    + by apply Z.ltb_ge.
  - intros Hgroup. rewrite canSendToChat_group by done.
    rewrite bool_decide_eq_true.
    rewrite (list_filter_iff (fun t => t > now - 60000)
                             (fun t => now - t < 60000)) by (intros t; lia).
    lia.
  - intros Hprivate [Hs Hpos]%(chronological_recorded t0 chatId).
    rewrite canSendToChat_private by done.
    destruct (last (recorded chatId l)) as [lastInstant|] eqn:Hlast.
    + rewrite bool_decide_eq_true. split.
      * intros Hold. right. by exists lastInstant.
      * intros [Hnil|(t & [= <-] & Hold)]; [|done].
        by rewrite Hnil in Hlast.
    + apply last_None in Hlast. split; [by left|done].
  - intros z z' Hkey. by apply (inj pretty).
  - by intros s s' Hkey.
  - rewrite recorded_recordChatMessage. by rewrite decide_True.
  - intros Hkey. rewrite recorded_recordChatMessage. rewrite decide_False; [done|].
    congruence.
Qed.

Lemma per_chat_admission_witness :
  let l := recordChatMessage 1000200 (NumId 12345)
             (recordChatMessage 1000000 (NumId 12345) (create 1000000)) in
  fst (canSendToChat 1000500 (NumId 12345) l) = false
  ∧ fst (canSendToChat 1001200 (NumId 12345) l) = true
  ∧ fst (canSendToChat 1000500 (StrId "@channel") l) = true
  ∧ isGroupChat (StrId "12345") = false
  ∧ isGroupChat (StrId "-1001234567890") = true
  ∧ isGroupChat (StrId (String "194" (String "160" "5"))) = false
  ∧ recorded (NumId 67890) (recordChatMessage 1000300 (NumId 12345) l) = [].
Proof.
  intros l.
  assert (Hl : chronological 1000200 l).
  { apply (chronological_recordChatMessage 1000000); [lia..|].
    apply (chronological_recordChatMessage 1000000); [lia..|].
    apply chronological_create. }
  split; [|split; [|split; [|split; [|split; [|split]]]]].
  - destruct (per_chat_admission 1000500 1000200 (NumId 12345) (NumId 12345) l)
      as (_ & _ & _ & _ & _ & H & _).
    destruct (fst (canSendToChat 1000500 (NumId 12345) l)) eqn:E; [|done].
    destruct (proj1 (H eq_refl Hl) eq_refl) as [Hnil|(t & Hlast & Hold)].
    + vm_compute in Hnil. discriminate.
    + vm_compute in Hlast. injection Hlast as <-. lia.
  - destruct (per_chat_admission 1001200 1000200 (NumId 12345) (NumId 12345) l)
      as (_ & _ & _ & _ & _ & H & _).
    apply (H eq_refl Hl). right. exists 1000200.
    split; [by vm_compute | lia].
  - destruct (per_chat_admission 1000500 1000200 (StrId "@channel") (NumId 12345) l)
      as (_ & _ & _ & _ & H & _).
    apply (H eq_refl). by vm_compute.
  - destruct (per_chat_admission 0 0 (NumId 0) (NumId 0) l) as (_ & _ & _ & H & _).
    apply (H "12345" 12345); [by vm_compute|lia].
  - destruct (per_chat_admission 0 0 (NumId 0) (NumId 0) l) as (_ & _ & _ & H & _).
    apply (H "-1001234567890" (-1001234567890)); [by vm_compute|lia].
  - destruct (per_chat_admission 0 0 (NumId 0) (NumId 0) l) as (_ & _ & _ & H & _).
    apply (H (String "194" (String "160" "5")) 5); [by vm_compute|lia].
  - destruct (per_chat_admission 1000300 1000200 (NumId 12345) (NumId 67890) l)
      as (_ & _ & _ & _ & _ & _ & Hnum & _ & _ & H).
    rewrite H; [by vm_compute|].
    intros Hkey. apply Hnum in Hkey. discriminate.
Defined.

End PerChatFacts.

(** ** JSON serialisation *)

Section JsonFacts.
Import Json.

Lemma append_assoc (a b c : string) : (a +:+ b) +:+ c = a +:+ (b +:+ c).
Proof.
  induction a as [|x a IH]; [done|].
  change (String x ((a +:+ b) +:+ c) = String x (a +:+ (b +:+ c))).
  by rewrite IH.
Qed.

Lemma append_cons (x : ascii) (a b : string) :
  String x a +:+ b = String x (a +:+ b).
Proof. done. Qed.

Lemma unescape_escape (c : ascii) (r : string) :
  unescapeChar (escapeChar c +:+ r) = Some (c, r).
Proof. destruct c as [[] [] [] [] [] [] [] []]; reflexivity. Qed.

Lemma unescape_dquote (r : string) : unescapeChar (String Str.dquote r) = None.
Proof. reflexivity. Qed.

(** An escaped string followed by the closing quote determines the string
    and what follows the quote. *)
Lemma escape_closed_inj (a b x y : string) :
  escape a +:+ String Str.dquote x = escape b +:+ String Str.dquote y →
  a = b ∧ x = y.
Proof.
  revert b. induction a as [|c a IH]; intros [|c' b]; cbn [escape].
  - intros [= ->]. done.
  - rewrite append_assoc. intros Heq%(f_equal unescapeChar).
    rewrite unescape_escape in Heq. cbn in Heq. discriminate.
  - rewrite append_assoc. intros Heq%(f_equal unescapeChar).
    rewrite unescape_escape in Heq. cbn in Heq. discriminate.
  - rewrite !append_assoc. intros Heq%(f_equal unescapeChar).
    rewrite !unescape_escape in Heq. injection Heq as -> Heq.
    destruct (IH b Heq) as [-> ->]. done.
Qed.

Lemma quote_prefix_inj (a b x y : string) :
  quote a +:+ x = quote b +:+ y → a = b ∧ x = y.
Proof.
  unfold quote. rewrite !append_cons, !append_assoc, !append_cons.
  intros [= Heq]. by apply escape_closed_inj in Heq.
Qed.

Lemma stringify_object (fields : Params) :
  stringifyObject fields =
  "{" +:+ String.concat "," (map member (written fields)) +:+ "}".
Proof.
  unfold stringifyObject. cbn [stringify]. do 3 f_equal.
  induction fields as [|[k v] fields IH]; [done|].
  unfold written. rewrite filter_cons. cbn [snd].
  destruct v; cbn [isUndefined]; case_decide; try done;
    cbn [map]; by rewrite IH.
Qed.

Lemma concat_members_cons (kv : string * json) (rest : Params) :
  String.concat "," (map member (kv :: rest)) +:+ "}" =
  quote (fst kv) +:+ (":" +:+ (stringify (snd kv) +:+ afterMember rest)).
Proof.
  destruct rest as [|kv' rest]; cbn [map String.concat afterMember];
    unfold member; by rewrite !append_assoc.
Qed.

Lemma written_NoDup (fields : Params) :
  NoDup (fields.*1) → NoDup ((written fields).*1).
Proof.
  induction fields as [|[k v] fields IH]; [done|].
  rewrite fmap_cons. intros [Hk Hrest]%NoDup_cons.
  unfold written. rewrite filter_cons. case_decide; [|by apply IH].
  rewrite fmap_cons. apply NoDup_cons. split; [|by apply IH].
  cbn [fst] in *. intros Hin. apply Hk.
  apply list_elem_of_fmap in Hin as (kv & -> & Hkv).
  apply list_elem_of_filter in Hkv as [_ Hkv].
  by apply list_elem_of_fmap_2.
Qed.

Lemma permutation_head_value (k : string) (v v' : json) (l l' : Params) :
  (k, v) :: l ≡ₚ (k, v') :: l' → NoDup (k :: l.*1) → v = v'.
Proof.
  intros Hperm [Hk _]%NoDup_cons.
  assert (Hin : (k, v') ∈ (k, v) :: l) by (rewrite Hperm; left).
  apply elem_of_cons in Hin as [[= ->]|Hin]; [done|].
  destruct Hk. by apply (list_elem_of_fmap_2 fst) in Hin.
Qed.

(** Two serialised member lists of the same members agree only when the
    members come in the same order. *)
Lemma concat_members_inj (ms ms' : Params) :
  ms ≡ₚ ms' → NoDup (ms.*1) →
  String.concat "," (map member ms) +:+ "}" =
  String.concat "," (map member ms') +:+ "}" →
  ms = ms'.
Proof.
  revert ms'. induction ms as [|[k v] ms IH]; intros ms' Hperm Hnodup Heq.
  - by apply Permutation_nil_l in Hperm.
  - destruct ms' as [|[k' v'] ms'].
    { by apply Permutation_nil_r in Hperm. }
    rewrite !concat_members_cons in Heq. cbn [fst snd] in Heq.
    apply quote_prefix_inj in Heq as [<- Heq].
    assert (v = v') as <- by (by eapply permutation_head_value).
    apply Permutation_cons_inv in Hperm.
    do 2 apply (inj (String.app _)) in Heq.
    rewrite fmap_cons in Hnodup. apply NoDup_cons in Hnodup as [_ Hnodup].
    f_equal. destruct ms as [|kv ms], ms' as [|kv' ms'].
    + done.
    + by apply Permutation_nil_l in Hperm.
    + by apply Permutation_nil_r in Hperm.
    + apply IH; [done..|]. cbn [afterMember] in Heq.
      by apply (inj (String.app _)) in Heq.
Qed.

End JsonFacts.

(** ** Response cache *)

Section CacheFacts.
Import Json Cache.

Lemma colonFree_cons (c : ascii) (s : string) :
  Str.colonFree (String c s) = true ↔ c ≠ ":"%char ∧ Str.colonFree s = true.
Proof.
  cbn [Str.colonFree]. rewrite andb_true_iff, negb_true_iff.
  by rewrite Ascii.eqb_neq.
Qed.

(** Between method names without a colon, only the method's own prefix
    starts one of its keys. *)
Lemma method_prefix_own (method method' rest : string) :
  Str.colonFree method = true → Str.colonFree method' = true →
  Str.startsWith (method +:+ ":" +:+ rest) (method' +:+ ":") = true →
  method' = method.
Proof.
  unfold Str.startsWith. revert method.
  induction method' as [|c' method' IH]; intros [|c method] Hm Hm'.
  - done.
  - apply colonFree_cons in Hm as [Hc _].
    rewrite append_cons. change (EmptyString +:+ ":") with (String ":"%char EmptyString).
    cbn [String.prefix]. destruct (ascii_dec _ _) as [<-|]; done.
  - apply colonFree_cons in Hm' as [Hc' _].
    rewrite append_cons. change (EmptyString +:+ ":" +:+ rest) with (String ":"%char rest).
    cbn [String.prefix]. destruct (ascii_dec _ _) as [->|]; done.
  - apply colonFree_cons in Hm as [_ Hm]. apply colonFree_cons in Hm' as [_ Hm'].
    rewrite !append_cons. cbn [String.prefix].
    destruct (ascii_dec _ _) as [->|]; [|done].
    intros Hp. f_equal. by apply IH.
Qed.

Lemma getCached_miss now method params (cache : Store) :
  cache !! generateKey method params = None →
  getCached now method params cache = (JNull, cache).
Proof. intros Hnone. unfold getCached. by rewrite Hnone. Qed.

Lemma getCached_fresh now method params (cache : Store) entry :
  cache !! generateKey method params = Some entry → now <= expiresAt entry →
  getCached now method params cache = (data entry, cache).
Proof.
  intros Hsome Hfresh. unfold getCached. rewrite Hsome.
  rewrite Z.gtb_ltb. by rewrite (proj2 (Z.ltb_ge _ _) Hfresh).
Qed.

Lemma getCached_stale now method params (cache : Store) entry :
  cache !! generateKey method params = Some entry → expiresAt entry < now →
  getCached now method params cache =
    (JNull, delete (generateKey method params) cache).
Proof.
  intros Hsome Hstale. unfold getCached. rewrite Hsome.
  rewrite Z.gtb_ltb. by rewrite (proj2 (Z.ltb_lt _ _) Hstale).
Qed.

Lemma setCache_stores now method params value ttl (cache : Store) :
  ttl ≠ 0 →
  setCache now method params value (Some ttl) cache !! generateKey method params
    = Some (mkEntry value (now + ttl)).
Proof.
  intros Httl. unfold setCache.
  rewrite (proj2 (Z.eqb_neq _ _) Httl). apply lookup_insert_eq.
Qed.

(** An operation that keeps a key leaves a fresh entry under it in place. *)
Lemma step_keeps key now op (cache : Store) entry :
  keeps key op → cache !! key = Some entry → now <= expiresAt entry →
  step now op cache !! key = Some entry.
Proof.
  intros Hkeeps Hsome Hfresh. destruct op as [m p|m p v ttl|m| |]; cbn in *.
  - unfold getCached.
    destruct (cache !! generateKey m p) as [e|] eqn:He; [|done].
    destruct (decide (generateKey m p = key)) as [Heq|Hne].
    + rewrite Heq in *. assert (e = entry) as -> by congruence.
      rewrite Z.gtb_ltb. by rewrite (proj2 (Z.ltb_ge _ _) Hfresh).
    + destruct (now >? expiresAt e); [|done].
      cbn. by rewrite lookup_delete_ne.
  - unfold setCache.
    destruct (match ttl with Some t => Some t | None => CACHE_TTL m end) as [t|];
      [|done].
    destruct (t =? 0); [done|]. by rewrite lookup_insert_ne.
  - unfold clearCacheForMethod. by apply map_lookup_filter_Some.
  - done.
  - done.
Qed.

Lemma run_keeps key limit ops (cache : Store) entry :
  Forall (fun top => fst top <= limit ∧ keeps key (snd top)) ops →
  cache !! key = Some entry → limit <= expiresAt entry →
  run ops cache !! key = Some entry.
Proof.
  intros Hops. revert cache.
  induction Hops as [|[now op] ops [Hnow Hkeeps] _ IH]; intros cache Hsome Hfresh.
  - done.
  - cbn in *. apply IH; [|done]. apply step_keeps; [done..|lia].
Qed.

(** C3, as the code has it.  A value stored for [(method, params)] at time
    [t] with time to live [ttl] is what a lookup of [(method, params)]
    returns at a later time [t'] with [t' - t < ttl], when every operation
    in between keeps the key (it is not a clear, not a store under the same
    key, and not an eviction of a method whose prefix starts the key, such
    as this method's).  A lookup that finds its entry with
    [now > expiresAt] drops the entry and misses; with [now <= expiresAt],
    the instant [expiresAt] included, it returns the value and keeps the
    entry.  Evicting another method keeps the key when no method name has
    a colon. *)
Theorem cache_store_then_lookup
    (method : string) (params : Params) (value : json) (ttl t t' : Z)
    (between : list (Z * Op)) (cache : Store) :
  t <= t' → t' - t < ttl →
  Forall (fun top => fst top <= t' ∧ keeps (generateKey method params) (snd top))
         between →
  fst (getCached t' method params
         (run between (setCache t method params value (Some ttl) cache))) = value
  ∧ (∀ (now : Z) (c : Store) (entry : CacheEntry),
       c !! generateKey method params = Some entry →
       (now > expiresAt entry →
          getCached now method params c =
            (JNull, delete (generateKey method params) c))
       ∧ (now <= expiresAt entry →
          getCached now method params c = (data entry, c)))
  ∧ (∀ other : string,
       Str.colonFree method = true → Str.colonFree other = true →
       other ≠ method →
       keeps (generateKey method params) (EvictMethod other)).
Proof.
  intros Hlater Hwithin Hbetween. split; [|split].
  - assert (Hstored :
      run between (setCache t method params value (Some ttl) cache)
        !! generateKey method params = Some (mkEntry value (t + ttl))).
    { apply (run_keeps _ t'); [done| |cbn; lia].
      apply setCache_stores. lia. }
    rewrite (getCached_fresh _ _ _ _ _ Hstored); [done | cbn; lia].
  - intros now c entry Hsome. split; intros Hnow.
    + apply (getCached_stale _ _ _ _ entry); [done|lia].
    + by apply (getCached_fresh _ _ _ _ entry).
  - intros other Hm Ho Hne. cbn.
    destruct (Str.startsWith _ _) eqn:Hprefix; [|done].
    destruct Hne. by eapply method_prefix_own.
Qed.

Lemma cache_store_then_lookup_witness :
  let between :=
    [(10000, Lookup "getChat" [("chat_id", JNum 7)]);
     (20000, Store_ "getChat" [("chat_id", JNum 8)] (JStr "other") None);
     (30000, EvictMethod "getMe");
     (40000, Stats)] in
  fst (getCached 50000 "getChat" [("chat_id", JNum 7)]
         (run between
              (setCache 1000 "getChat" [("chat_id", JNum 7)] (JStr "seven")
                        (Some 60000) ∅)))
  = JStr "seven".
Proof.
  intros between.
  assert (Hbetween :
    Forall (fun top => fst top <= 50000 ∧
                       keeps (generateKey "getChat" [("chat_id", JNum 7)]) (snd top))
           between).
  { subst between.
    repeat (constructor; [split; [cbn; lia | by vm_compute]|]).
    constructor. }
  assert (Hlater : 1000 <= 50000) by lia.
  assert (Hwithin : 50000 - 1000 < 60000) by lia.
  exact (proj1 (cache_store_then_lookup "getChat" [("chat_id", JNum 7)]
                  (JStr "seven") 60000 1000 50000 between ∅
                  Hlater Hwithin Hbetween)).
Defined.

(** C3 as stated fails at the expiry instant itself: a lookup that reads
    the clock at exactly [expiresAt] returns the value and keeps the
    entry. *)
Lemma cache_expiry_instant_counterexample :
  ¬ (∀ (now : Z) (method : string) (params : Params) (c : Store)
       (entry : CacheEntry),
       c !! generateKey method params = Some entry →
       now >= expiresAt entry →
       getCached now method params c =
         (JNull, delete (generateKey method params) c)).
Proof.
  intros Hclaim.
  specialize (Hclaim 1000 "getMe" []
                (setCache 0 "getMe" [] (JNum 7) (Some 1000) ∅)
                (mkEntry (JNum 7) 1000)).
  assert (Hhit : fst (getCached 1000 "getMe" []
                   (setCache 0 "getMe" [] (JNum 7) (Some 1000) ∅)) = JNum 7)
    by (by vm_compute).
  rewrite Hclaim in Hhit; [discriminate| by vm_compute | cbn; lia].
Qed.

(** C4, as the code has it.  The key is the method, a colon and
    [JSON.stringify] of the parameters, which follows the enumeration
    order of the object.  Two parameter objects with the same fields get
    the same key exactly when they enumerate the fields that are written
    (those whose value is not undefined) in the same order. *)
Theorem cache_key_follows_field_order (method : string) (p q : Params) :
  wfObject p → p ≡ₚ q →
  (generateKey method p = generateKey method q ↔ written p = written q).
Proof.
  intros Hwf Hperm. unfold generateKey. rewrite !stringify_object. split.
  - intros Heq. do 3 apply (inj (String.app _)) in Heq.
    apply concat_members_inj; [|by apply written_NoDup|done].
    unfold written. by rewrite Hperm.
  - by intros ->.
Qed.

Lemma cache_key_follows_field_order_witness :
  generateKey "getChat" [("chat_id", JNum 7); ("extra", JUndefined); ("full", JBool true)] =
  generateKey "getChat" [("extra", JUndefined); ("chat_id", JNum 7); ("full", JBool true)].
Proof.
  apply cache_key_follows_field_order; [| |reflexivity].
  - unfold wfObject. by apply (bool_decide_unpack _).
  - apply perm_swap.
Defined.

(** C4 as stated fails: two objects with the same two fields in opposite
    orders get different keys. *)
Lemma cache_key_field_order_counterexample :
  ¬ (∀ (method : string) (p q : Params),
       wfObject p → p ≡ₚ q → generateKey method p = generateKey method q).
Proof.
  intros Hclaim.
  specialize (Hclaim "getChat" [("chat_id", JNum 7); ("full", JBool true)]
                               [("full", JBool true); ("chat_id", JNum 7)]).
  assert (Heq : generateKey "getChat" [("chat_id", JNum 7); ("full", JBool true)] =
                generateKey "getChat" [("full", JBool true); ("chat_id", JNum 7)]).
  { apply Hclaim; [|apply perm_swap].
    unfold wfObject. by apply (bool_decide_unpack _). }
  vm_compute in Heq. discriminate.
Qed.

End CacheFacts.

(** ** Health probes *)

Section HealthFacts.
Import Api Health.

(** C10. Reading the breaker status is not read-only.  For a breaker that
    is open with [now - openedAt >= 30000], [getCircuitBreakerStatus]
    itself makes the transition to half-open, and so do [getHealthStatus]
    and [isReady], which call it: the probe reports half-open (degraded,
    ready) and leaves the breaker half-open for the invocations that
    follow. *)
Theorem status_probe_half_opens_breaker (startTime : Z) (w : World) :
  CircuitBreaker.state (circuitBreaker w) = CircuitBreaker.Open →
  clock w - CircuitBreaker.openedAt (circuitBreaker w) >= 30000 →
  fst (fst (getCircuitBreakerStatus w)) = CircuitBreaker.HalfOpen
  ∧ CircuitBreaker.state (circuitBreaker (snd (getCircuitBreakerStatus w)))
    = CircuitBreaker.HalfOpen
  ∧ status (fst (getHealthStatus startTime w)) = Degraded
  ∧ CircuitBreaker.state (circuitBreaker (snd (getHealthStatus startTime w)))
    = CircuitBreaker.HalfOpen
  ∧ fst (isReady w) = true
  ∧ CircuitBreaker.state (circuitBreaker (snd (isReady w)))
    = CircuitBreaker.HalfOpen
  ∧ circuitBreaker (snd (isReady w)) ≠ circuitBreaker w.
Proof.
  intros Hopen Hlate.
  assert (Hprobe : getCircuitBreakerStatus w =
    ((CircuitBreaker.HalfOpen,
      CircuitBreaker.consecutiveFailures (circuitBreaker w)),
     withCircuitBreaker
       (CircuitBreaker.mk (CircuitBreaker.consecutiveFailures (circuitBreaker w))
          (CircuitBreaker.openedAt (circuitBreaker w)) CircuitBreaker.HalfOpen) w)).
  { unfold getCircuitBreakerStatus. by rewrite isOpen_half_opens. }
  unfold getHealthStatus, isReady. rewrite Hprobe. cbn.
  repeat split; try done.
  intros Heq. rewrite <- Heq in Hopen. discriminate.
Qed.

Lemma status_probe_half_opens_breaker_witness :
  let env := mkEnv (Config.loadConfig (fun _ => None))
               (fun _ => Threw false "down" 10) (fun _ _ => NoFiles) (fun _ => true) in
  let w := withClock 40000
             (withCircuitBreaker (CircuitBreaker.mk 5 1000 CircuitBreaker.Open)
                (start env 0)) in
  fst (isReady w) = true
  ∧ CircuitBreaker.state (circuitBreaker (snd (isReady w))) = CircuitBreaker.HalfOpen
  ∧ status (fst (getHealthStatus 0 w)) = Degraded.
Proof.
  intros env w.
  assert (Hlate : clock w - CircuitBreaker.openedAt (circuitBreaker w) >= 30000)
    by (cbn; lia).
  pose proof (status_probe_half_opens_breaker 0 w eq_refl Hlate)
    as (_ & _ & H3 & _ & H5 & H6 & _).
  auto.
Defined.

End HealthFacts.

(** ** The API client *)

Section ApiFacts.
Import Json Api.

Lemma withCache_same (w : World) : withCache (cache w) w = w.
Proof. by destruct w. Qed.

Lemma sameTraffic_refl w : sameTraffic w w.
Proof. done. Qed.

Lemma sameTraffic_trans w1 w2 w3 :
  sameTraffic w1 w2 → sameTraffic w2 w3 → sameTraffic w1 w3.
Proof. intros [H1 H2] [H3 H4]. split; congruence. Qed.

Lemma probeCache_traffic method params w :
  sameTraffic w (snd (probeCache method params w)).
Proof. unfold probeCache. by destruct (Cache.isCacheable method). Qed.

Lemma checkBreaker_traffic w : sameTraffic w (snd (checkBreaker w)).
Proof. done. Qed.

Lemma checkGlobalLimit_traffic env options w :
  sameTraffic w (snd (checkGlobalLimit env options w)).
Proof.
  unfold checkGlobalLimit. destruct (skipRateLimit options); [done|].
  by destruct (fst (RateLimiter.canMakeRequest _ _)).
Qed.

Lemma checkChatLimit_traffic env method params options w :
  sameTraffic w (snd (checkChatLimit env method params options w)).
Proof.
  unfold checkChatLimit. destruct (_ && _); [|done].
  destruct (chatIdOf _ _); [|done].
  by destruct (fst (PerChatRateLimiter.canSendToChat _ _ _)).
Qed.

Lemma onSuccess_traffic env method finalParams data w :
  sameTraffic w (onSuccess env method finalParams data w)
  ∧ rateLimiter (onSuccess env method finalParams data w) = rateLimiter w.
Proof.
  unfold onSuccess. destruct (isMessageSending method);
    [destruct (chatIdOf _ _)|]; by destruct (_ && _).
Qed.

Lemma onFailure_traffic errorCode w :
  sameTraffic w (onFailure errorCode w)
  ∧ rateLimiter (onFailure errorCode w) = rateLimiter w.
Proof. done. Qed.

Lemma sleep_traffic ms w :
  sameTraffic w (sleep ms w) ∧ rateLimiter (sleep ms w) = rateLimiter w.
Proof. done. Qed.

(** One iteration makes one record and then one fetch. *)
Lemma iteration_traffic env method finalParams timeoutMs retries attempt w :
  let w' := stepWorld (iteration env method finalParams timeoutMs retries attempt w) in
  fetchCount w' = S (fetchCount w)
  ∧ history w' = history w ++ [Recorded (clock w); Fetched (fetchCount w) method]
  ∧ RateLimiter.requests (rateLimiter w') =
    RateLimiter.requests (rateLimiter w) ++ [clock w].
Proof.
  unfold iteration.
  set (w1 := snd (doFetch env method (recordRequest w))).
  assert (H1 : fetchCount w1 = S (fetchCount w)
    ∧ history w1 = history w ++ [Recorded (clock w); Fetched (fetchCount w) method]
    ∧ RateLimiter.requests (rateLimiter w1) =
      RateLimiter.requests (rateLimiter w) ++ [clock w]).
  { subst w1. cbn. by rewrite <- app_assoc. }
  destruct H1 as (Hn & Hh & Hr).
  destruct (fst (doFetch env method (recordRequest w))) as [data e|isTimeout msg e].
  - destruct (ok data).
    + cbn [stepWorld].
      destruct (onSuccess_traffic env method finalParams data w1) as [[-> ->] ->].
      done.
    + by destruct (_ && _).
  - by destruct (_ <? _).
Qed.

Lemma isRetryableError_retryable data elapsed :
  retryable (Replied data elapsed) → isRetryableError data = true.
Proof.
  intros [Hok Hcode]. unfold isRetryableError. rewrite Hok.
  destruct Hcode as [->|(code & -> & Hcode)]; [done|].
  case_bool_decide; [done|].
  rewrite (proj2 (Z.eqb_neq code 0)) by lia.
  by rewrite (proj2 (Z.leb_le 500 code)) by lia.
Qed.

Lemma isRetryableError_clientError data :
  clientError data → isRetryableError data = false.
Proof.
  intros [Hok (code & Hcode & Hrange & Hne)]. unfold isRetryableError.
  rewrite Hok, Hcode.
  rewrite bool_decide_eq_false_2 by congruence.
  rewrite (proj2 (Z.eqb_neq code 0)) by lia.
  by rewrite (proj2 (Z.leb_gt 500 code)) by lia.
Qed.

Lemma iteration_outcome env method w :
  fst (doFetch env method (recordRequest w)) = fetch env (fetchCount w).
Proof. done. Qed.

(** A retryable outcome with budget left makes the loop go round. *)
Lemma iteration_continues env method finalParams timeoutMs retries attempt w :
  retryable (fetch env (fetchCount w)) → attempt < retries →
  ∃ response w',
    iteration env method finalParams timeoutMs retries attempt w =
      Continue response w'.
Proof.
  intros Hretry Hbudget. unfold iteration.
  rewrite iteration_outcome.
  destruct (fetch env (fetchCount w)) as [data e|isTimeout msg e].
  - rewrite (isRetryableError_retryable data e) by done.
    destruct Hretry as [-> _].
    rewrite (proj2 (Z.ltb_lt _ _) Hbudget). cbn. eauto.
  - rewrite (proj2 (Z.ltb_lt _ _) Hbudget). eauto.
Qed.

(** The loop goes round only with budget left. *)
Lemma iteration_continue_budget env method finalParams timeoutMs retries attempt w
    response w' :
  iteration env method finalParams timeoutMs retries attempt w = Continue response w' →
  attempt < retries.
Proof.
  unfold iteration.
  destruct (fst (doFetch env method (recordRequest w))) as [data e|isTimeout msg e].
  - destruct (ok data); [done|].
    destruct (isRetryableError data); [|done].
    destruct (Z.ltb_spec attempt retries); done.
  - destruct (Z.ltb_spec attempt retries); done.
Qed.

(** A client error is returned at once. *)
Lemma iteration_returns_clientError env method finalParams timeoutMs retries
    attempt w data elapsed :
  fetch env (fetchCount w) = Replied data elapsed → clientError data →
  ∃ w', iteration env method finalParams timeoutMs retries attempt w = Return data w'.
Proof.
  intros Hfetch Hclient. unfold iteration.
  rewrite iteration_outcome.
  rewrite Hfetch. rewrite isRetryableError_clientError by done.
  destruct Hclient as [-> _]. cbn. eauto.
Qed.

Lemma retryLoop_S env method finalParams timeoutMs retries remaining attempt
    lastResponse w :
  retryLoop env method finalParams timeoutMs retries (S remaining) attempt
            lastResponse w =
  match iteration env method finalParams timeoutMs retries attempt w with
  | Return response w' => (response, w')
  | Continue response w' =>
      retryLoop env method finalParams timeoutMs retries remaining
                (attempt + 1) (Some response) w'
  end.
Proof. done. Qed.

(** The attempts of the retry loop: how many, and what follows each. *)
Lemma retryLoop_attempts env method finalParams timeoutMs retries remaining :
  ∀ attempt lastResponse w,
  Z.of_nat remaining = Z.max 0 (retries + 1 - attempt) →
  let r := retryLoop env method finalParams timeoutMs retries remaining attempt
                     lastResponse w in
  let n := attemptsOf w (snd r) in
  (fetchCount w <= fetchCount (snd r))%nat
  ∧ (n <= remaining)%nat
  ∧ ((0 < remaining)%nat → (0 < n)%nat)
  ∧ ∀ k : nat, (k < n)%nat →
      (retryable (fetch env (fetchCount w + k)) →
       attempt + Z.of_nat k < retries → (k + 1 < n)%nat)
      ∧ (∀ data elapsed,
           fetch env (fetchCount w + k) = Replied data elapsed →
           clientError data → n = (k + 1)%nat ∧ fst r = data).
Proof.
  unfold attemptsOf.
  induction remaining as [|remaining IH]; intros attempt lastResponse w Hinv.
  { cbn. repeat split; lia. }
  rewrite retryLoop_S.
  pose proof (iteration_traffic env method finalParams timeoutMs retries attempt w)
    as (Hcount & _ & _).
  destruct (iteration env method finalParams timeoutMs retries attempt w)
    as [response w1|response w1] eqn:Hstep; cbn [stepWorld] in Hcount.
  - cbn [fst snd]. rewrite Hcount.
    split; [lia|]. split; [lia|]. split; [lia|].
    intros k Hk. assert (k = 0%nat) as -> by lia.
    rewrite Nat.add_0_r. split.
    + intros Hretry Hbudget.
      destruct (iteration_continues env method finalParams timeoutMs retries
                  attempt w Hretry) as (? & ? & Hcont); [lia|congruence].
    + intros data elapsed Hfetch Hclient.
      destruct (iteration_returns_clientError env method finalParams timeoutMs
                  retries attempt w data elapsed Hfetch Hclient) as [w' Hret].
      split; [lia|congruence].
  - apply iteration_continue_budget in Hstep as Hbudget.
    destruct (IH (attempt + 1) (Some response) w1) as (Hmono & Hle & Hpos & Hall);
      [lia|].
    rewrite Hcount in *.
    split; [lia|]. split; [lia|]. split; [lia|].
    intros [|k] Hk.
    + rewrite Nat.add_0_r. split.
      * intros _ _. assert (0 < remaining)%nat by lia. specialize (Hpos ltac:(done)). lia.
      * intros data elapsed Hfetch Hclient.
        destruct (iteration_returns_clientError env method finalParams timeoutMs
                    retries attempt w data elapsed Hfetch Hclient) as [w' Hret].
        congruence.
    + destruct (Hall k) as [Hretry Hclient]; [lia|].
      replace (fetchCount w + S k)%nat with (S (fetchCount w) + k)%nat by lia.
      split.
      * intros Hr Hb. specialize (Hretry Hr). lia.
      * intros data elapsed Hfetch Hc.
        destruct (Hclient data elapsed Hfetch Hc) as [Hn Hresp].
        split; [lia|done].
Qed.

(** The history of the retry loop: a record, then its fetch, per attempt. *)
Lemma retryLoop_history env method finalParams timeoutMs retries remaining :
  ∀ attempt lastResponse w,
  let r := retryLoop env method finalParams timeoutMs retries remaining attempt
                     lastResponse w in
  ∃ instants : list Z,
    fetchCount (snd r) = (fetchCount w + length instants)%nat
    ∧ history (snd r) =
      history w ++ attemptEvents method (fetchCount w) instants
    ∧ RateLimiter.requests (rateLimiter (snd r)) =
      RateLimiter.requests (rateLimiter w) ++ instants.
Proof.
  induction remaining as [|remaining IH]; intros attempt lastResponse w.
  { exists []. cbn. by rewrite !app_nil_r, Nat.add_0_r. }
  cbn zeta. rewrite retryLoop_S.
  pose proof (iteration_traffic env method finalParams timeoutMs retries attempt w)
    as (Hcount & Hhistory & Hrequests).
  destruct (iteration env method finalParams timeoutMs retries attempt w)
    as [response w1|response w1]; cbn [stepWorld] in *.
  - exists [clock w]. cbn [fst snd length attemptEvents].
    split; [lia|]. by split.
  - destruct (IH (attempt + 1) (Some response) w1) as (instants & Hn & Hh & Hr).
    exists (clock w :: instants). cbn [length attemptEvents].
    rewrite Hn, Hh, Hr, Hcount, Hhistory, Hrequests.
    split; [lia|]. by rewrite <- !app_assoc.
Qed.

(** An invocation returns before the loop, having made no attempt, or
    runs the loop from a state with the same traffic. *)
Lemma callTelegramAPI_cases env method params options w :
  let retries := default (Config.maxRetries (config env)) (maxRetries options) in
  let timeoutMs := default (Config.requestTimeout (config env)) (timeout options) in
  let r := callTelegramAPI env method params options w in
  sameTraffic w (snd r)
  ∨ ∃ finalParams before,
      sameTraffic w before ∧
      r = retryLoop env method finalParams timeoutMs retries
                    (Z.to_nat (retries + 1)) 0 None before.
Proof.
  cbn zeta. unfold callTelegramAPI.
  pose proof (probeCache_traffic method params w) as H1.
  destruct (fst (probeCache method params w)); [by left|].
  pose proof (checkBreaker_traffic (snd (probeCache method params w))) as H2.
  pose proof (sameTraffic_trans _ _ _ H1 H2) as H12.
  destruct (fst (checkBreaker _)); [by left|].
  pose proof (checkGlobalLimit_traffic env options
                (snd (checkBreaker (snd (probeCache method params w))))) as H3.
  pose proof (sameTraffic_trans _ _ _ H12 H3) as H13.
  destruct (fst (checkGlobalLimit _ _ _)); [by left|].
  pose proof (checkChatLimit_traffic env method params options
    (snd (checkGlobalLimit env options
            (snd (checkBreaker (snd (probeCache method params w))))))) as H4.
  pose proof (sameTraffic_trans _ _ _ H13 H4) as H14.
  destruct (fst (checkChatLimit _ _ _ _ _)); [by left|].
  destruct (upload env method (cleanParams params)) as [|finalParams|message].
  - right. eauto.
  - right. eauto.
  - by left.
Qed.

Lemma recordsIn_app events events' :
  recordsIn (events ++ events') = (recordsIn events + recordsIn events')%nat.
Proof. unfold recordsIn. by rewrite filter_app, length_app. Qed.

Lemma recordsIn_attemptEvents method first instants :
  recordsIn (attemptEvents method first instants) = length instants.
Proof.
  revert first. induction instants as [|instant instants IH]; intros first; [done|].
  cbn [attemptEvents length]. rewrite <- (IH (S first)). unfold recordsIn.
  rewrite filter_cons_True by done. by rewrite filter_cons_False by done.
Qed.

(** C8. An invocation with retry budget [retries] makes at most
    [1 + retries] fetches.  When the k-th of them ends in a failure reply
    with code 429 or a code from 500, or in a transport error, and
    [k < retries], a further fetch follows.  When it ends in a failure
    reply with a 4xx code other than 429, it is the last fetch of the
    invocation and that reply is what the invocation returns. *)
Theorem invoke_attempts_and_retries
    (env : Env) (method : string) (params : Params) (options : ApiCallOptions)
    (w : World) :
  let retries := default (Config.maxRetries (config env)) (maxRetries options) in
  let r := callTelegramAPI env method params options w in
  let n := attemptsOf w (snd r) in
  (n <= Z.to_nat (1 + retries))%nat
  ∧ ∀ k : nat, (k < n)%nat →
      (retryable (fetch env (fetchCount w + k)) →
       Z.of_nat k < retries → (k + 1 < n)%nat)
      ∧ (∀ data elapsed,
           fetch env (fetchCount w + k) = Replied data elapsed →
           clientError data → n = (k + 1)%nat ∧ fst r = data).
Proof.
  cbn zeta.
  destruct (callTelegramAPI_cases env method params options w)
    as [[Hcount _]|(finalParams & before & [Hcount _] & ->)].
  - unfold attemptsOf. rewrite Hcount. split; [lia|]. intros k Hk. lia.
  - pose proof (retryLoop_attempts env method finalParams
      (default (Config.requestTimeout (config env)) (timeout options))
      (default (Config.maxRetries (config env)) (maxRetries options))
      (Z.to_nat (default (Config.maxRetries (config env)) (maxRetries options) + 1))
      0 None before) as Hloop.
    cbn zeta in Hloop. unfold attemptsOf in *. rewrite Hcount in Hloop.
    destruct Hloop as (_ & Hle & _ & Hall); [lia|].
    split; [lia|]. intros k Hk. destruct (Hall k Hk) as [Hretry Hclient].
    split; [|done]. intros Hr Hb. apply Hretry; [done|lia].
Qed.

Lemma invoke_attempts_and_retries_witness :
  let badRequest := mkResponse false JUndefined (Some "Bad Request") (Some 400) None in
  let env := mkEnv (Config.loadConfig (fun _ => None))
               (fun _ => Replied badRequest 5) (fun _ _ => NoFiles) (fun _ => true) in
  let r := callTelegramAPI env "sendMessage"
             [("chat_id", JNum 123); ("text", JStr "x")] noOptions (start env 1000) in
  attemptsOf (start env 1000) (snd r) = 1%nat ∧ fst r = badRequest.
Proof.
  intros badRequest env r.
  destruct (invoke_attempts_and_retries env "sendMessage"
              [("chat_id", JNum 123); ("text", JStr "x")] noOptions (start env 1000))
    as [_ Hall].
  destruct (Hall 0%nat) as [_ Hclient]; [by vm_compute|].
  apply (Hclient badRequest 5); [done|].
  split; [done|]. exists 400. repeat split; (done || lia).
Defined.

(** C9, as the code has it.  Every invocation, successful or not, makes
    one record in the global limiter per fetch, immediately before it,
    retries included: the history grows by a record and its fetch for each
    attempt, the number of records grows by the number of attempts, and
    the recorded instants end the limiter's list.  So a call that succeeds
    at its first attempt records once, one that needed k retries records
    k + 1 times, and a cache hit or a refusal records nothing. *)
Theorem invoke_records_before_each_attempt
    (env : Env) (method : string) (params : Params) (options : ApiCallOptions)
    (w : World) :
  let r := callTelegramAPI env method params options w in
  ∃ instants : list Z,
    length instants = attemptsOf w (snd r)
    ∧ history (snd r) = history w ++ attemptEvents method (fetchCount w) instants
    ∧ recordsIn (history (snd r)) = (recordsIn (history w) + attemptsOf w (snd r))%nat
    ∧ ∃ kept : list Z,
        RateLimiter.requests (rateLimiter (snd r)) = kept ++ instants.
Proof.
  cbn zeta. unfold attemptsOf.
  destruct (callTelegramAPI_cases env method params options w)
    as [[Hcount Hhistory]|(finalParams & before & [Hcount Hhistory] & ->)].
  - exists []. rewrite Hcount, Hhistory. cbn [length attemptEvents].
    rewrite app_nil_r. split; [lia|]. split; [done|]. split; [lia|].
    eexists. by rewrite app_nil_r.
  - destruct (retryLoop_history env method finalParams
      (default (Config.requestTimeout (config env)) (timeout options))
      (default (Config.maxRetries (config env)) (maxRetries options))
      (Z.to_nat (default (Config.maxRetries (config env)) (maxRetries options) + 1))
      0 None before) as (instants & Hn & Hh & Hr).
    exists instants. rewrite Hn, Hh, Hr, Hcount, Hhistory.
    split; [lia|]. split; [done|]. split; [|eauto].
    rewrite recordsIn_app, recordsIn_attemptEvents. lia.
Qed.

Lemma invoke_records_before_each_attempt_witness :
  let failure := mkResponse false JUndefined (Some "Bad Gateway") (Some 502) None in
  let success := mkResponse true (JObj [("message_id", JNum 1)]) None None None in
  let env := mkEnv (Config.loadConfig (fun _ => None))
               (fun n => match n with O => Replied failure 5 | _ => Replied success 5 end)
               (fun _ _ => NoFiles) (fun _ => true) in
  let r := callTelegramAPI env "sendMessage"
             [("chat_id", JNum 123); ("text", JStr "x")] noOptions (start env 1000) in
  history (snd r) =
    [Recorded 1000; Fetched 0 "sendMessage"; Recorded 2005; Fetched 1 "sendMessage"].
Proof.
  intros failure success env r.
  destruct (invoke_records_before_each_attempt env "sendMessage"
              [("chat_id", JNum 123); ("text", JStr "x")] noOptions (start env 1000))
    as (instants & _ & Hhistory & _).
  etrans; [exact Hhistory|]. by vm_compute.
Defined.

(** C9 as stated fails: an invocation that succeeds at its second attempt
    has recorded two instants, not one. *)
Lemma invoke_one_record_counterexample :
  ¬ (∀ (env : Env) (method : string) (params : Params)
       (options : ApiCallOptions) (w : World),
       ok (fst (callTelegramAPI env method params options w)) = true →
       recordsIn (history (snd (callTelegramAPI env method params options w))) =
         (recordsIn (history w) + 1)%nat).
Proof.
  intros Hclaim.
  set (failure := mkResponse false JUndefined (Some "Bad Gateway") (Some 502) None).
  set (success := mkResponse true (JObj [("message_id", JNum 1)]) None None None).
  set (env := mkEnv (Config.loadConfig (fun _ => None))
                (fun n => match n with O => Replied failure 5 | _ => Replied success 5 end)
                (fun _ _ => NoFiles) (fun _ => true)).
  specialize (Hclaim env "sendMessage" [("chat_id", JNum 123); ("text", JStr "x")]
                noOptions (start env 1000)).
  vm_compute in Hclaim. specialize (Hclaim eq_refl). discriminate.
Qed.

(** The hit path of [callTelegramAPI]. *)
Lemma callTelegramAPI_hit env method params options w entry :
  Cache.isCacheable method = true →
  cache w !! Cache.generateKey method params = Some entry →
  clock w <= Cache.expiresAt entry →
  Cache.data entry ≠ JNull →
  callTelegramAPI env method params options w =
    (cachedResponse (Cache.data entry), w).
Proof.
  intros Hcacheable Hentry Hfresh Hvalue.
  unfold callTelegramAPI, probeCache. rewrite Hcacheable.
  rewrite (getCached_fresh _ _ _ _ entry) by done. cbn [fst snd].
  rewrite withCache_same.
  by destruct (Cache.data entry).
Qed.

(** C7, as the code has it.  For a cacheable method whose cache holds,
    for the given parameters, an entry that is fresh and whose value is
    not null, the invocation returns [{ok: true, result: <cached>}] and
    leaves the whole state as it was: no fetch is made, no instant is
    recorded in the global or the per-chat limiter, and the breaker keeps
    its phase and its failure count. *)
Theorem cache_hit_short_circuits
    (env : Env) (method : string) (params : Params) (options : ApiCallOptions)
    (w : World) (entry : Cache.CacheEntry) :
  Cache.isCacheable method = true →
  cache w !! Cache.generateKey method params = Some entry →
  clock w < Cache.expiresAt entry →
  Cache.data entry ≠ JNull →
  let r := callTelegramAPI env method params options w in
  fst r = mkResponse true (Cache.data entry) None None None
  ∧ fetchCount (snd r) = fetchCount w
  ∧ history (snd r) = history w
  ∧ rateLimiter (snd r) = rateLimiter w
  ∧ perChatLimiter (snd r) = perChatLimiter w
  ∧ CircuitBreaker.state (circuitBreaker (snd r)) =
    CircuitBreaker.state (circuitBreaker w)
  ∧ CircuitBreaker.consecutiveFailures (circuitBreaker (snd r)) =
    CircuitBreaker.consecutiveFailures (circuitBreaker w)
  ∧ snd r = w.
Proof.
  intros Hcacheable Hentry Hfresh Hvalue r. subst r.
  rewrite (callTelegramAPI_hit _ _ _ _ _ entry) by (done || lia).
  done.
Qed.

Lemma cache_hit_short_circuits_witness :
  let env := mkEnv (Config.loadConfig (fun _ => None))
               (fun _ => Replied (mkResponse true (JObj [("id", JNum 7)]) None None None) 5)
               (fun _ _ => NoFiles) (fun _ => true) in
  let w := snd (callTelegramAPI env "getMe" [] noOptions (start env 1000)) in
  let r := callTelegramAPI env "getMe" [] noOptions w in
  fst r = mkResponse true (JObj [("id", JNum 7)]) None None None
  ∧ fetchCount (snd r) = 1%nat
  ∧ snd r = w.
Proof.
  intros env w r.
  assert (Hentry : cache w !! Cache.generateKey "getMe" [] =
                   Some (Cache.mkEntry (JObj [("id", JNum 7)]) 3601005))
    by (by vm_compute).
  assert (Hfresh : clock w < Cache.expiresAt (Cache.mkEntry (JObj [("id", JNum 7)]) 3601005))
    by (by vm_compute).
  assert (Hvalue : Cache.data (Cache.mkEntry (JObj [("id", JNum 7)]) 3601005) ≠ JNull)
    by done.
  pose proof (cache_hit_short_circuits env "getMe" [] noOptions w _
                eq_refl Hentry Hfresh Hvalue) as (H1 & H2 & _ & _ & _ & _ & _ & H8).
  split; [exact H1|]. split; [|exact H8].
  etrans; [exact H2|]. by vm_compute.
Defined.

(** C7 as stated fails for an entry whose value is null, which
    [getCached] cannot tell from a miss: the first invocation caches the
    reply [{ok: true, result: null}], and the second, made while that
    entry is fresh, goes to the network again. *)
Lemma cache_hit_null_counterexample :
  ¬ (∀ (env : Env) (method : string) (params : Params)
       (options : ApiCallOptions) (w : World) (entry : Cache.CacheEntry),
       Cache.isCacheable method = true →
       cache w !! Cache.generateKey method params = Some entry →
       clock w < Cache.expiresAt entry →
       fst (callTelegramAPI env method params options w) =
         mkResponse true (Cache.data entry) None None None
       ∧ fetchCount (snd (callTelegramAPI env method params options w)) =
         fetchCount w).
Proof.
  intros Hclaim.
  set (env := mkEnv (Config.loadConfig (fun _ => None))
                (fun _ => Replied (mkResponse true JNull None None None) 5)
                (fun _ _ => NoFiles) (fun _ => true)).
  set (w := snd (callTelegramAPI env "getMe" [] noOptions (start env 1000))).
  destruct (Hclaim env "getMe" [] noOptions w (Cache.mkEntry JNull 3601005))
    as [_ Hcount]; [done | by vm_compute | by vm_compute |].
  vm_compute in Hcount. discriminate.
Qed.

End ApiFacts.

(** ** Scenarios of the test suite, run on the embedding *)

Section Scenarios.
Import Json Api.

(** "should open after consecutive failures", "should reject requests when
    open": five failed calls open the breaker, the sixth is refused with
    503 and makes no fetch. *)
Example breaker_opens_after_five_failed_calls :
  let w5 := repeatCall 5 networkDown "getMe" [] noOptions (start networkDown 1000000) in
  let sixth := callTelegramAPI networkDown "getMe" [] noOptions w5 in
  CircuitBreaker.state (circuitBreaker w5) = CircuitBreaker.Open
  ∧ fetchCount w5 = 5%nat
  ∧ error_code (fst sixth) = Some 503
  ∧ fetchCount (snd sixth) = 5%nat.
Proof. by vm_compute. Qed.

(** "should track consecutive failures count": two failed calls leave the
    breaker closed with a count of two. *)
Example breaker_counts_two_failures :
  let w2 := repeatCall 2 networkDown "getMe" [] noOptions (start networkDown 1000000) in
  CircuitBreaker.state (circuitBreaker w2) = CircuitBreaker.Closed
  ∧ CircuitBreaker.consecutiveFailures (circuitBreaker w2) = 2.
Proof. by vm_compute. Qed.

(** "should not retry on non-retriable errors": a 400 reply is returned
    after one fetch and leaves the breaker closed at zero. *)
Example bad_request_is_not_retried :
  let badRequest := mkResponse false JUndefined (Some "Bad Request") (Some 400) None in
  let env := answering badRequest in
  let r := callTelegramAPI env "sendMessage" [("chat_id", JNum 123); ("text", JStr "Test")]
             (mkOptions None (Some 3) false) (start env 1000000) in
  fst r = badRequest
  ∧ fetchCount (snd r) = 1%nat
  ∧ circuitBreaker (snd r) = CircuitBreaker.create.
Proof. by vm_compute. Qed.

(** "should cache getMe responses": the second call is served from the
    cache. *)
Example getMe_is_cached :
  let env := answering (mkResponse true (JObj [("id", JNum 123)]) None None None) in
  let w2 := repeatCall 2 env "getMe" [] noOptions (start env 1000000) in
  fetchCount w2 = 1%nat.
Proof. by vm_compute. Qed.

(** "should limit private chats to 1/sec", "should track separate chats
    independently": a second message to the same private chat at once is
    refused with 429, a message to another chat goes through. *)
Example private_chat_is_paced :
  let env := answering (mkResponse true (JObj [("message_id", JNum 1)]) None None None) in
  let w1 := snd (callTelegramAPI env "sendMessage"
                   [("chat_id", JNum 12345); ("text", JStr "Hello")] noOptions
                   (start env 1000000)) in
  let same := callTelegramAPI env "sendMessage"
                [("chat_id", JNum 12345); ("text", JStr "World")] noOptions w1 in
  let other := callTelegramAPI env "sendMessage"
                 [("chat_id", JNum 222); ("text", JStr "Hello B")] noOptions w1 in
  ok (fst same) = false
  ∧ error_code (fst same) = Some 429
  ∧ description (fst same) =
      Some "Per-chat rate limit exceeded for chat 12345. Wait 1 seconds."
  ∧ ok (fst other) = true.
Proof. by vm_compute. Qed.

(** "should return rate limited response with retry_after", "should skip
    rate limit when option is set": with a budget of one, a second call
    within the minute is refused unless it skips the limit. *)
Example global_limit_of_one :
  let config := Config.loadConfig (fun name =>
    if String.eqb name "RATE_LIMIT_PER_MINUTE" then Some "1" else None) in
  let env := mkEnv config
               (fun _ => Replied (mkResponse true (JObj []) None None None) 5)
               (fun _ _ => NoFiles) (fun _ => true) in
  let w1 := snd (callTelegramAPI env "sendDice" [] noOptions (start env 1000000)) in
  let second := callTelegramAPI env "sendDice" [] noOptions w1 in
  let skipping := callTelegramAPI env "sendDice" [] (mkOptions None None true) w1 in
  error_code (fst second) = Some 429
  ∧ parameters (fst second) = Some (mkParameters None (Some 60))
  ∧ ok (fst skipping) = true.
Proof. by vm_compute. Qed.

End Scenarios.

(* ===================================================================== *)
(** * Part III: further properties of the code                            *)
(* ===================================================================== *)

(** ** Configuration, retry delays and error categories *)

Section PolicyFacts.
Import Json Api.

(** X1. Whatever the environment variables hold (missing, empty, not a
    number, out of range), the loaded settings lie in their ranges: the
    request timeout in 5000..120000 ms, the retry budget in 0..10, the
    per-minute budget in 1..60. *)
Theorem loaded_settings_in_range (env : string → option string) :
  5000 <= Config.requestTimeout (Config.loadConfig env) <= 120000
  ∧ 0 <= Config.maxRetries (Config.loadConfig env) <= 10
  ∧ 1 <= Config.rateLimitPerMinute (Config.loadConfig env) <= 60.
Proof.
  unfold Config.loadConfig. cbn.
  repeat split; apply validateNumber_range; lia.
Qed.

Lemma backoff_small attempt :
  0 <= attempt <= 4 → Z.min (1000 * 2 ^ attempt) 30000 = 1000 * 2 ^ attempt.
Proof.
  intros Hrange.
  assert (attempt = 0 ∨ attempt = 1 ∨ attempt = 2 ∨ attempt = 3 ∨ attempt = 4)
    as [->|[->|[->|[->| ->]]]] by lia; reflexivity.
Qed.

Lemma backoff_large attempt :
  5 <= attempt → Z.min (1000 * 2 ^ attempt) 30000 = 30000.
Proof.
  intros Hrange. apply Z.min_r.
  assert (2 ^ 5 <= 2 ^ attempt) by (apply Z.pow_le_mono_r; lia).
  change (2 ^ 5) with 32 in *. lia.
Qed.

(** X2. A delay the reply asks for (a non-zero [retry_after]) is waited
    exactly, in milliseconds, without a cap.  Otherwise the delay after
    attempt [i] is [1000 * 2^i] up to the fourth retry and 30 000 ms from
    the fifth on: it lies between 1000 and 30 000 and never shrinks from
    one attempt to the next. *)
Theorem retry_delay_policy (attempt later seconds : Z) :
  0 <= attempt <= later →
  (seconds ≠ 0 → getRetryDelay attempt (Some seconds) = seconds * 1000)
  ∧ getRetryDelay attempt (Some 0) = getRetryDelay attempt None
  ∧ (attempt <= 4 → getRetryDelay attempt None = 1000 * 2 ^ attempt)
  ∧ (5 <= attempt → getRetryDelay attempt None = 30000)
  ∧ 1000 <= getRetryDelay attempt None <= 30000
  ∧ getRetryDelay attempt None <= getRetryDelay later None.
Proof.
  intros Hrange. unfold getRetryDelay.
  split; [|split; [|split; [|split; [|split]]]].
  - intros Hne. by rewrite (proj2 (Z.eqb_neq _ _) Hne).
  - done.
  - intros Hsmall. apply backoff_small. lia.
  - apply backoff_large.
  - destruct (Z.le_gt_cases attempt 4).
    + rewrite backoff_small by lia.
      assert (2 ^ 0 <= 2 ^ attempt) by (apply Z.pow_le_mono_r; lia).
      assert (2 ^ attempt <= 2 ^ 4) by (apply Z.pow_le_mono_r; lia).
      change (2 ^ 0) with 1 in *. change (2 ^ 4) with 16 in *. lia.
    + rewrite backoff_large by lia. lia.
  - destruct (Z.le_gt_cases later 4).
    + rewrite !backoff_small by lia.
      assert (2 ^ attempt <= 2 ^ later) by (apply Z.pow_le_mono_r; lia). lia.
    + rewrite (backoff_large later) by lia. lia.
Qed.

Lemma retry_delay_policy_witness :
  getRetryDelay 2 (Some 7) = 7000
  ∧ getRetryDelay 3 None = 8000
  ∧ getRetryDelay 3 None <= getRetryDelay 9 None.
Proof.
  assert (Hrange : 0 <= 2 <= 9) by lia.
  assert (Hrange' : 0 <= 3 <= 9) by lia.
  pose proof (retry_delay_policy 2 9 7 Hrange) as (H1 & _).
  pose proof (retry_delay_policy 3 9 7 Hrange') as (_ & _ & H3 & _ & _ & H6).
  split; [apply H1; lia|]. split; [|exact H6].
  etrans; [apply H3; lia|]. reflexivity.
Defined.

(** X3. The category of a failure agrees with what the retry loop and the
    breaker do with it.  A reply categorised CLIENT is never retried and
    never counted by the breaker; one categorised RATE_LIMITED is retried
    and not counted; one categorised SERVER is retried and counted.  Every
    failure gets a category, a success gets none, and no reply is ever
    categorised VALIDATION. *)
Theorem category_agrees_with_retry_and_breaker
    (response : TelegramResponse) (now : Z) (b : CircuitBreaker.t) :
  (categorizeError response = Some CLIENT →
     isRetryableError response = false ∧
     CircuitBreaker.recordFailure now (error_code response) b = b)
  ∧ (categorizeError response = Some RATE_LIMITED →
     isRetryableError response = true ∧
     CircuitBreaker.recordFailure now (error_code response) b = b)
  ∧ (categorizeError response = Some SERVER →
     isRetryableError response = true ∧
     CircuitBreaker.qualifying (error_code response) = true)
  ∧ (categorizeError response = None ↔ ok response = true)
  ∧ categorizeError response ≠ Some VALIDATION.
Proof.
  unfold categorizeError, isRetryableError.
  destruct (ok response); [by repeat split|].
  destruct (match description response with
            | Some text => Str.includes (Str.toLowerCase text) "timeout"
            | None => false end); [by repeat split|].
  destruct (match description response with
            | Some text => Str.includes text "circuit breaker"
            | None => false end); [by repeat split|].
  destruct (error_code response) as [code|]; [|by repeat split].
  destruct (Z.eqb_spec code 0) as [->|Hzero]; [by repeat split|].
  destruct (Z.eqb_spec code 429) as [->|Hlimit]; [by repeat split|].
  rewrite bool_decide_eq_false_2 by congruence.
  destruct (Z.leb_spec 500 code) as [Hserver|Hserver].
  { repeat split; try done. cbn. by apply Z.leb_le. }
  destruct (Z.leb_spec 400 code) as [Hclient|Hclient]; [|by repeat split].
  repeat split; try done.
  apply recordFailure_ignored. lia.
Qed.

Lemma category_agrees_with_retry_and_breaker_witness :
  let response := mkResponse false JUndefined (Some "Not Found") (Some 404) None in
  isRetryableError response = false
  ∧ CircuitBreaker.recordFailure 1000 (error_code response) CircuitBreaker.create
    = CircuitBreaker.create.
Proof.
  intros response.
  destruct (category_agrees_with_retry_and_breaker response 1000
              CircuitBreaker.create) as (Hclient & _).
  apply Hclient. by vm_compute.
Defined.

End PolicyFacts.

(** ** The response cache, beyond store and lookup *)

Section CacheMoreFacts.
Import Json Cache.

Lemma prefix_append (a b : string) : String.prefix a (a +:+ b) = true.
Proof.
  induction a as [|c a IH].
  - by destruct b.
  - rewrite append_cons. cbn [String.prefix].
    by destruct (ascii_dec c c).
Qed.

Lemma written_idemp (fields : Params) : written (written fields) = written fields.
Proof. unfold written. apply list_filter_filter_r. by intros kv. Qed.

(** X4. A property whose value is undefined does not count for the key:
    two parameter objects that agree on the properties that are written
    get the same key, so what is stored under the cleaned parameters is
    found under the raw ones. *)
Theorem cache_key_ignores_undefined
    (method : string) (p q : Params) (now ttl : Z) (value : json) (c : Store) :
  written p = written q → 0 < ttl →
  generateKey method p = generateKey method q
  ∧ generateKey method (written p) = generateKey method p
  ∧ getCached now method q (setCache now method (written p) value (Some ttl) c)
    = (value, setCache now method (written p) value (Some ttl) c).
Proof.
  intros Hsame Httl.
  assert (Hkey : ∀ a b : Params, written a = written b →
                 generateKey method a = generateKey method b).
  { intros a b Hab. unfold generateKey. by rewrite !stringify_object, Hab. }
  split; [by apply Hkey|]. split; [apply Hkey, written_idemp|].
  apply (getCached_fresh _ _ _ _ (mkEntry value (now + ttl))); [|cbn; lia].
  rewrite <- (Hkey p q Hsame), <- (Hkey (written p) p (written_idemp p)).
  apply setCache_stores. lia.
Qed.

Lemma cache_key_ignores_undefined_witness :
  fst (getCached 500 "getChat" [("chat_id", JNum 7); ("extra", JUndefined)]
         (setCache 500 "getChat" [("chat_id", JNum 7)] (JStr "seven") (Some 1000) ∅))
  = JStr "seven".
Proof.
  assert (Httl : 0 < 1000) by lia.
  pose proof (cache_key_ignores_undefined "getChat" [("chat_id", JNum 7)]
                [("chat_id", JNum 7); ("extra", JUndefined)] 500 1000
                (JStr "seven") ∅ eq_refl Httl) as (_ & _ & H).
  change (written [("chat_id", JNum 7)]) with [("chat_id", JNum 7)] in H.
  by rewrite H.
Defined.

(** X5. Keys of different methods never collide: when no method name
    has a colon, a key determines its method. *)
Theorem cache_key_determines_method (method method' : string) (p p' : Params) :
  Str.colonFree method = true → Str.colonFree method' = true →
  generateKey method p = generateKey method' p' → method = method'.
Proof.
  intros Hm Hm' Hkey.
  apply (method_prefix_own method' method (stringifyObject p')); [done..|].
  unfold Str.startsWith. unfold generateKey in Hkey. rewrite <- Hkey.
  rewrite <- append_assoc. apply prefix_append.
Qed.

Lemma cache_key_determines_method_witness :
  generateKey "getChat" [("chat_id", JNum 7)] ≠ generateKey "getMe" [("chat_id", JNum 7)].
Proof.
  intros Hkey.
  pose proof (cache_key_determines_method "getChat" "getMe" _ _ eq_refl eq_refl Hkey).
  discriminate.
Defined.

(** X6. Evicting a method removes every entry of that method, so each of
    its lookups misses afterwards; it leaves the entries of every other
    method in place (method names without a colon); and evicting twice is
    evicting once. *)
Theorem evict_method_scope (method other : string) (p : Params) (now : Z) (c : Store) :
  Str.colonFree method = true → Str.colonFree other = true → other ≠ method →
  clearCacheForMethod method c !! generateKey method p = None
  ∧ getCached now method p (clearCacheForMethod method c)
    = (JNull, clearCacheForMethod method c)
  ∧ clearCacheForMethod method c !! generateKey other p = c !! generateKey other p
  ∧ clearCacheForMethod method (clearCacheForMethod method c)
    = clearCacheForMethod method c.
Proof.
  intros Hm Ho Hne.
  assert (Hgone : clearCacheForMethod method c !! generateKey method p = None).
  { unfold clearCacheForMethod. apply map_lookup_filter_None. right.
    intros entry _. cbn. unfold Str.startsWith, generateKey.
    rewrite <- append_assoc, prefix_append. done. }
  split; [done|]. split; [by apply getCached_miss|]. split.
  - unfold clearCacheForMethod.
    assert (Hkeep : Str.startsWith (generateKey other p) (method +:+ ":") = false).
    { destruct (Str.startsWith _ _) eqn:Hprefix; [|done].
      destruct Hne. symmetry. by eapply method_prefix_own. }
    destruct (c !! generateKey other p) as [entry|] eqn:Hentry.
    + by apply map_lookup_filter_Some.
    + apply map_lookup_filter_None. by left.
  - unfold clearCacheForMethod. apply map_eq. intros key.
    apply option_eq. intros entry.
    rewrite !map_lookup_filter_Some. split; [by intros [? _] | by intros [? ?]].
Qed.

Lemma evict_method_scope_witness :
  let c := setCache 0 "getChat" [("chat_id", JNum 7)] (JStr "chat") None
             (setCache 0 "getMe" [] (JStr "me") None ∅) in
  fst (getCached 10 "getMe" [] (clearCacheForMethod "getMe" c)) = JNull
  ∧ clearCacheForMethod "getMe" c !! generateKey "getChat" [("chat_id", JNum 7)]
    = c !! generateKey "getChat" [("chat_id", JNum 7)].
Proof.
  intros c.
  assert (Hne : "getChat" ≠ "getMe") by discriminate.
  pose proof (evict_method_scope "getMe" "getChat" [] 10 c eq_refl eq_refl Hne)
    as (_ & H2 & _).
  pose proof (evict_method_scope "getMe" "getChat" [("chat_id", JNum 7)] 10 c
                eq_refl eq_refl Hne) as (_ & _ & H3 & _).
  split; [by rewrite H2 | exact H3].
Defined.

(** X7. A lookup touches its own key at most: every other key keeps its
    entry, and no entry is ever added.  What a lookup returns other than
    null is the value of an entry stored under its key that had not
    expired; that entry stays. *)
Theorem lookup_is_sound_and_local
    (now : Z) (method : string) (p : Params) (c : Store) :
  (∀ key, key ≠ generateKey method p →
     snd (getCached now method p c) !! key = c !! key)
  ∧ snd (getCached now method p c) ⊆ c
  ∧ (fst (getCached now method p c) ≠ JNull →
     ∃ entry, c !! generateKey method p = Some entry
              ∧ data entry = fst (getCached now method p c)
              ∧ now <= expiresAt entry
              ∧ snd (getCached now method p c) = c).
Proof.
  unfold getCached.
  destruct (c !! generateKey method p) as [entry|] eqn:Hentry.
  - destruct (Z.gtb_spec now (expiresAt entry)) as [Hstale|Hfresh]; cbn [fst snd].
    + split; [|split; [|done]].
      * intros key Hkey. by rewrite lookup_delete_ne.
      * apply delete_subseteq.
    + split; [done|]. split; [done|]. intros _. by exists entry.
  - cbn [fst snd]. by repeat split.
Qed.

Lemma lookup_is_sound_and_local_witness :
  let c := setCache 0 "getMe" [] (JStr "me") (Some 100) ∅ in
  ∃ entry, c !! generateKey "getMe" [] = Some entry ∧ 50 <= expiresAt entry.
Proof.
  intros c.
  destruct (lookup_is_sound_and_local 50 "getMe" [] c) as (_ & _ & H).
  destruct H as (entry & Hentry & _ & Hfresh & _); [by vm_compute|].
  by exists entry.
Defined.

Lemma beforeColon_key (method rest : string) :
  Str.colonFree method = true → Str.beforeColon (method +:+ ":" +:+ rest) = method.
Proof.
  induction method as [|c method IH]; [done|].
  intros [Hc Hm]%colonFree_cons. rewrite append_cons. cbn [Str.beforeColon].
  rewrite (proj2 (Ascii.eqb_neq _ _) Hc). by rewrite IH.
Qed.

(** X8. The statistics count right, for the names a plain object can
    count.  The size is the number of entries.  A name that the object
    does not inherit is listed exactly when some key equals it up to the
    key's first colon, with the number of those keys as its count; for a
    method without a colon in its name these are the keys of that
    method.  A name inherited from [Object.prototype] is listed, once
    such a key exists, with a string in place of the count, and
    [__proto__] is never listed. *)
Theorem cache_stats_count_entries (c : Store) (name method : string) (p : Params) :
  let listed := snd (getCacheStats c) !! name in
  let keys := size (filter (fun kv => Str.beforeColon (fst kv) = name) c) in
  fst (getCacheStats c) = size c
  ∧ (name ≠ "__proto__" → name ∉ inheritedNames →
     listed = if decide (keys = 0%nat) then None else Some (Count keys))
  ∧ (name ∈ inheritedNames →
     listed = if decide (keys = 0%nat) then None else Some NotACount)
  ∧ (name = "__proto__" → listed = None)
  ∧ (name ≠ "__proto__" →
     (listed = None ↔
      ∀ key entry, c !! key = Some entry → Str.beforeColon key ≠ name))
  ∧ (Str.colonFree method = true →
     Str.beforeColon (generateKey method p) = method).
Proof.
  cbn zeta. split; [done|].
  set (keysOf := fun (n : string) (m : Store) =>
                   size (filter (fun kv => Str.beforeColon (fst kv) = n) m)).
  set (expected := fun (n : string) (m : Store) =>
         if decide (n = "__proto__") then None
         else if decide (keysOf n m = 0%nat) then None
         else if decide (n ∈ inheritedNames) then Some NotACount
         else Some (Count (keysOf n m))).
  assert (Hall : ∀ n, snd (getCacheStats c) !! n = expected n c).
  { unfold getCacheStats. cbn [snd].
    apply (map_fold_weak_ind
      (fun (r : gmap string Tally) (m : Store) => ∀ n, r !! n = expected n m)).
    - intros n. unfold expected, keysOf.
      rewrite map_filter_empty, map_size_empty, lookup_empty.
      by repeat case_decide.
    - intros key entry m r Hfresh IH n.
      assert (Hother : Str.beforeColon key ≠ n → keysOf n (<[key:=entry]> m) = keysOf n m).
      { intros Hne. unfold keysOf.
        by rewrite map_filter_insert_not by (intros y; cbn; congruence). }
      assert (Hown : keysOf (Str.beforeColon key) (<[key:=entry]> m)
                     = S (keysOf (Str.beforeColon key) m)).
      { unfold keysOf. rewrite map_filter_insert_True by done.
        rewrite map_size_insert_None; [done|].
        apply map_lookup_filter_None. by left. }
      unfold tally.
      destruct (String.eqb_spec (Str.beforeColon key) "__proto__") as [Hproto|Hproto].
      { rewrite IH. unfold expected. case_decide as Hn; [done|].
        rewrite Hother by congruence. done. }
      assert (Hset : ∀ v, Some v = expected (Str.beforeColon key) (<[key:=entry]> m) →
                <[Str.beforeColon key := v]> r !! n = expected n (<[key:=entry]> m)).
      { intros v Hv. destruct (decide (Str.beforeColon key = n)) as [<-|Hne].
        - by rewrite lookup_insert_eq.
        - rewrite lookup_insert_ne by done. rewrite IH. unfold expected.
          by rewrite Hother. }
      rewrite (IH (Str.beforeColon key)). unfold expected at 1.
      rewrite decide_False by done.
      case_decide as Hnone.
      + case_bool_decide as Hinherited; apply Hset; unfold expected;
          rewrite decide_False by done; rewrite Hown, Hnone;
          rewrite decide_False by done; by rewrite ?decide_True, ?decide_False by done.
      + case_decide as Hinherited; apply Hset; unfold expected;
          rewrite decide_False by done; rewrite Hown;
          rewrite decide_False by done; by rewrite ?decide_True, ?decide_False by done. }
  assert (Hkeys : keysOf name c = 0%nat ↔
            ∀ key entry, c !! key = Some entry → Str.beforeColon key ≠ name).
  { unfold keysOf. rewrite map_size_empty_iff. split.
    - intros Hempty key entry Hentry Hname.
      assert (Hin : filter (fun kv => Str.beforeColon (fst kv) = name) c !! key
                    = Some entry) by (by apply map_lookup_filter_Some).
      rewrite Hempty in Hin. by rewrite lookup_empty in Hin.
    - intros Hnokeys. apply map_empty. intros key.
      apply map_lookup_filter_None. right. intros entry Hentry Hname.
      by apply (Hnokeys key entry). }
  fold (keysOf name c). rewrite Hall. unfold expected.
  split; [|split; [|split; [|split]]].
  - intros Hproto Hordinary. rewrite decide_False by done.
    case_decide; [done|]. by rewrite decide_False.
  - intros Hinherited.
    assert (name ≠ "__proto__").
    { intros ->.
      exact (bool_decide_eq_false_1 ("__proto__" ∈ inheritedNames) eq_refl Hinherited). }
    rewrite decide_False by done. case_decide; [done|]. by rewrite decide_True.
  - intros ->. by rewrite decide_True.
  - intros Hproto. rewrite decide_False by done. rewrite <- Hkeys.
    case_decide; [done|]. by case_decide.
  - intros Hm. by apply beforeColon_key.
Qed.

Lemma cache_stats_count_entries_witness :
  let c := setCache 0 "toString" [] (JNum 3) (Some 1000)
             (setCache 0 "getMe" [("extra", JBool true)] (JNum 2) None
                (setCache 0 "getChat" [("chat_id", JNum 123)] (JNum 123) None
                   (setCache 0 "getMe" [] (JNum 1) None ∅))) in
  fst (getCacheStats c) = 4%nat
  ∧ snd (getCacheStats c) !! "getMe" = Some (Count 2)
  ∧ snd (getCacheStats c) !! "toString" = Some NotACount
  ∧ Str.beforeColon (generateKey "getMe" [("extra", JBool true)]) = "getMe".
Proof.
  intros c.
  pose proof (cache_stats_count_entries c "getMe" "getMe" [("extra", JBool true)])
    as (H1 & H2 & _ & _ & _ & H6).
  pose proof (cache_stats_count_entries c "toString" "getMe" [])
    as (_ & _ & H3 & _).
  split; [by rewrite H1|]. split; [|split; [|by apply H6]].
  - rewrite H2; [by vm_compute|done|].
    exact (bool_decide_eq_false_1 ("getMe" ∈ inheritedNames) eq_refl).
  - rewrite H3; [by vm_compute|]. by apply (bool_decide_unpack _).
Defined.

End CacheMoreFacts.

(** ** The global rate limiter, beyond admission *)

Section RateLimiterMoreFacts.
Import RateLimiter.

Lemma cleanup_later now now' rl :
  now <= now' → cleanup now' (cleanup now rl) = cleanup now' rl.
Proof.
  intros Hle. unfold cleanup. cbn. f_equal.
  rewrite list_filter_filter. apply list_filter_iff. intros time. lia.
Qed.

Lemma filter_drops_head (oldest : Z) (rest : list Z) :
  Z.of_nat (length (filter (fun time => time > oldest) (oldest :: rest)))
    <= Z.of_nat (length rest).
Proof.
  rewrite filter_cons_False by lia.
  pose proof (length_filter (fun time => time > oldest) rest). lia.
Qed.

(** X9. The wait time agrees with the admission check and is enough.  For
    a budget of at least one and instants not after [now]: the wait time
    is 0 exactly when the check allows; when it refuses, the wait time
    lies in 1..60 000 ms, and if no more instants than the budget are in
    the window, a check made that much later is allowed. *)
Theorem rate_limiter_wait_is_enough (now : Z) (rl : t) :
  1 <= limitPerMinute rl →
  Forall (fun time => time <= now) (requests rl) →
  let allowed := fst (canMakeRequest now rl) in
  let wait := fst (getWaitTime now rl) in
  (allowed = true ↔ wait = Some 0)
  ∧ (allowed = false →
     ∃ waitMs, wait = Some waitMs ∧ 1 <= waitMs <= 60000
       ∧ (Z.of_nat (length (requests (cleanup now rl))) <= limitPerMinute rl →
          fst (canMakeRequest (now + waitMs) rl) = true)).
Proof.
  intros Hlimit Hpast. cbn zeta. unfold canMakeRequest, getWaitTime. cbn [fst snd].
  change (limitPerMinute (cleanup now rl)) with (limitPerMinute rl).
  destruct (requests (cleanup now rl)) as [|oldest rest] eqn:Hremaining.
  { cbn [length]. rewrite bool_decide_eq_true_2 by lia.
    split; [done|]. intros [=]. }
  assert (Hin : oldest > now - 60000 ∧ oldest ∈ requests rl).
  { apply (list_elem_of_filter (fun time => time > now - 60000)).
    change (oldest ∈ requests (cleanup now rl)). rewrite Hremaining. left. }
  destruct Hin as [Hrecent Hin].
  assert (Holdest : oldest <= now) by (by apply (proj1 (Forall_forall _ _) Hpast)).
  case_bool_decide as Hallowed; cbn [fst].
  { split; [done|]. intros [=]. }
  split.
  { split; [done|]. intros [= Hzero]. lia. }
  intros _. exists (Z.max 0 (60000 - (now - oldest))).
  split; [done|]. split; [lia|].
  intros Hfull. apply bool_decide_eq_true.
  rewrite <- (cleanup_later now) by lia.
  unfold cleanup at 1. cbn [requests]. rewrite Hremaining.
  pose proof (filter_drops_head oldest rest) as Hdrop.
  rewrite (list_filter_iff _ (fun time => time > oldest)) by (intros time; lia).
  cbn [length] in Hfull. cbn [limitPerMinute cleanup]. lia.
Qed.

Lemma rate_limiter_wait_is_enough_witness :
  let rl := recordAll [1000; 2000] (create 2) in
  fst (getWaitTime 3000 rl) = Some 58000
  ∧ fst (canMakeRequest (3000 + 58000) rl) = true.
Proof.
  intros rl.
  assert (Hlimit : 1 <= limitPerMinute rl) by (by vm_compute).
  assert (Hpast : Forall (fun time => time <= 3000) (requests rl)).
  { repeat constructor; by vm_compute. }
  destruct (rate_limiter_wait_is_enough 3000 rl Hlimit Hpast) as [_ Hrefused].
  destruct Hrefused as (waitMs & Hwait & _ & Henough); [by vm_compute|].
  assert (waitMs = 58000) as -> by (vm_compute in Hwait; congruence).
  split; [exact Hwait|]. apply Henough. by vm_compute.
Defined.

(** X10. Asking costs nothing: after an admission check, a wait-time
    read, a count read or a limit read at some instant, every later check
    answers as if that read had not happened, and leaves the same state. *)
Theorem rate_limiter_reads_are_transparent (now now' : Z) (rl : t) :
  now <= now' →
  canMakeRequest now' (snd (canMakeRequest now rl)) = canMakeRequest now' rl
  ∧ canMakeRequest now' (snd (getWaitTime now rl)) = canMakeRequest now' rl
  ∧ canMakeRequest now' (snd (getRequestCount now rl)) = canMakeRequest now' rl
  ∧ canMakeRequest now' (snd (isLimited now rl)) = canMakeRequest now' rl.
Proof.
  intros Hle.
  assert (Hread : ∀ l, l = cleanup now rl →
            canMakeRequest now' l = canMakeRequest now' rl).
  { intros l ->. unfold canMakeRequest. by rewrite cleanup_later. }
  repeat split; apply Hread; try done.
  unfold getWaitTime. case_bool_decide; [done|].
  by destruct (requests (cleanup now rl)).
Qed.

Lemma rate_limiter_reads_are_transparent_witness :
  let rl := recordAll [1000; 2000] (create 2) in
  canMakeRequest 70000 (snd (canMakeRequest 3000 rl)) = canMakeRequest 70000 rl.
Proof.
  intros rl. assert (Hle : 3000 <= 70000) by lia.
  exact (proj1 (rate_limiter_reads_are_transparent 3000 70000 rl Hle)).
Defined.

End RateLimiterMoreFacts.

(** ** Numbers as text *)

Section ParseFacts.









End ParseFacts.

(** ** The per-chat rate limiter, beyond admission *)

Section PerChatMoreFacts.
Import PerChatRateLimiter.

Lemma maybeCleanup_idemp now l :
  maybeCleanup now (maybeCleanup now l) = maybeCleanup now l.
Proof.
  destruct (now - lastCleanup l <? cleanupIntervalMs) eqn:Hearly.
  - assert (maybeCleanup now l = l) as Hsame
      by (unfold maybeCleanup; by rewrite Hearly).
    by rewrite !Hsame.
  - set (swept := maybeCleanup now l).
    assert (lastCleanup swept = now) as Hswept
      by (unfold swept, maybeCleanup; by rewrite Hearly).
    unfold maybeCleanup at 1. by rewrite Hswept, Z.sub_diag.
Qed.

Lemma canSendToChat_state now chatId l :
  snd (canSendToChat now chatId l) = maybeCleanup now l.
Proof.
  unfold canSendToChat. destruct (isGroupChat chatId); [done|].
  destruct (last _) as [lastMessage|]; [|done]. by destruct (lastMessage =? 0).
Qed.

Lemma getWaitTimeForChat_state now chatId l :
  snd (getWaitTimeForChat now chatId l) = maybeCleanup now l.
Proof.
  unfold getWaitTimeForChat. destruct (last _); [|done].
  destruct (isGroupChat chatId).
  - destruct (filter _ _); [done|]. by case_bool_decide.
  - by case_bool_decide.
Qed.

Lemma getWaitTimeForChat_group now chatId l :
  isGroupChat chatId = true →
  fst (getWaitTimeForChat now chatId l) =
  match filter (fun t => t > now - 60000) (recorded chatId l) with
  | [] => 0
  | oldest :: rest =>
      if bool_decide (Z.of_nat (length (oldest :: rest)) < 20) then 0
      else Z.max 0 (60000 - (now - oldest))
  end.
Proof.
  intros Hgroup. unfold getWaitTimeForChat. rewrite Hgroup.
  fold (recorded chatId (maybeCleanup now l)).
  rewrite <- (recent_maybeCleanup now chatId l).
  destruct (last (recorded chatId (maybeCleanup now l))) eqn:Hlast.
  - destruct (filter _ (recorded chatId (maybeCleanup now l))); [done|].
    change groupMessagesPerMinute with 20. by destruct (bool_decide _).
  - apply last_None in Hlast. by rewrite Hlast.
Qed.

Lemma getWaitTimeForChat_private now chatId l :
  isGroupChat chatId = false →
  StronglySorted Z.le (recorded chatId l) →
  fst (getWaitTimeForChat now chatId l) =
  match last (recorded chatId l) with
  | None => 0
  | Some lastInstant =>
      if bool_decide (now - lastInstant >= 1000) then 0
      else 1000 - (now - lastInstant)
  end.
Proof.
  intros Hprivate Hs. unfold getWaitTimeForChat. rewrite Hprivate.
  fold (recorded chatId (maybeCleanup now l)).
  destruct (recorded_maybeCleanup now chatId l) as [->| ->].
  - destruct (last (recorded chatId l)); [|done].
    change privateMessageIntervalMs with 1000. by destruct (bool_decide _).
  - destruct (last (recorded chatId l)) as [lastInstant|] eqn:Hlast.
    + rewrite (last_recent now _ lastInstant) by done.
      change privateMessageIntervalMs with 1000.
      case_bool_decide as Hrecent; [by destruct (bool_decide _)|].
      cbn [fst]. rewrite bool_decide_eq_true_2; [done|lia].
    + apply last_None in Hlast. by rewrite Hlast.
Qed.

(** X12. Chats are paced one by one.  For a limiter filled by a clock
    that never runs back: a message recorded for one chat leaves the
    admission of every chat with another key as it was; and after a
    message to a private chat at [now], the next one to that chat is
    admitted exactly from [now + 1000] on. *)
Theorem per_chat_pacing (t0 now later : Z) (sent other : ChatId) (l : t) :
  chronological t0 l → t0 <= now → 0 < now →
  (toKey sent ≠ toKey other →
     fst (canSendToChat later other (recordChatMessage now sent l)) =
     fst (canSendToChat later other l))
  ∧ (isGroupChat sent = false →
     fst (canSendToChat later sent (recordChatMessage now sent l)) =
     bool_decide (later - now >= 1000)).
Proof.
  intros Hl Hnow Hpos.
  pose proof (chronological_recordChatMessage t0 now sent l Hnow Hpos Hl) as Hl'.
  split.
  - intros Hkey.
    assert (Hsame : recorded other (recordChatMessage now sent l) = recorded other l).
    { rewrite recorded_recordChatMessage. by rewrite decide_False. }
    destruct (isGroupChat other) eqn:Hregime.
    + rewrite !canSendToChat_group by done. by rewrite Hsame.
    + destruct (chronological_recorded t0 other l Hl) as [Hs Hp].
      destruct (chronological_recorded now other _ Hl') as [Hs' Hp'].
      rewrite !canSendToChat_private by done. by rewrite Hsame.
  - intros Hprivate.
    destruct (chronological_recorded now sent _ Hl') as [Hs' Hp'].
    rewrite canSendToChat_private by done.
    rewrite recorded_recordChatMessage, decide_True by done.
    by rewrite last_snoc.
Qed.

Lemma per_chat_pacing_witness :
  let l := recordChatMessage 5000 (NumId 111) (create 1000) in
  fst (canSendToChat 5999 (NumId 111) (recordChatMessage 5500 (NumId 111) l)) = false
  ∧ fst (canSendToChat 5999 (NumId 222) (recordChatMessage 5500 (NumId 111) l)) = true.
Proof.
  intros l.
  assert (Hl : chronological 5000 l).
  { apply (chronological_recordChatMessage 1000); [lia..|apply chronological_create]. }
  assert (Hnow : 5000 <= 5500) by lia. assert (Hpos : 0 < 5500) by lia.
  assert (Hkey : toKey (NumId 111) ≠ toKey (NumId 222)) by (by vm_compute).
  pose proof (per_chat_pacing 5000 5500 5999 (NumId 111) (NumId 111) l Hl Hnow Hpos)
    as [_ Hsame].
  pose proof (per_chat_pacing 5000 5500 5999 (NumId 111) (NumId 222) l Hl Hnow Hpos)
    as [Hother _].
  split; [by rewrite Hsame|]. rewrite Hother by done. by vm_compute.
Defined.

Lemma chronological_swept t0 now l :
  chronological t0 l → chronological t0 (maybeCleanup now l).
Proof.
  intros Hl. unfold maybeCleanup. case_match; [done|].
  intros id ts. simpl. rewrite lookup_omap.
  destruct (chatTimestamps l !! id) as [old|] eqn:Hold; [|done]. simpl.
  destruct (Hl _ old Hold) as [Hs Hb].
  intros Hts.
  assert (ts = filter (fun t => t > now - 60000) old) as ->.
  { destruct (filter _ old); [done|]. by injection Hts as <-. }
  split.
  - by apply StronglySorted_filter.
  - by apply Forall_filter_keeps.
Qed.

Lemma chronological_bound t0 chatId l :
  chronological t0 l → Forall (fun t => t <= t0) (recorded chatId l).
Proof.
  intros Hl. unfold recorded.
  destruct (chatTimestamps l !! toKey chatId) as [ts|] eqn:Hts; simpl; [|constructor].
  destruct (Hl _ ts Hts) as [_ Hb].
  eapply Forall_impl; [exact Hb|]. simpl. lia.
Qed.

Lemma window_after_sweep now later chatId l :
  now <= later →
  filter (fun t => t > later - 60000) (recorded chatId (maybeCleanup now l)) =
  filter (fun t => t > later - 60000) (recorded chatId l).
Proof.
  intros Hle. destruct (recorded_maybeCleanup now chatId l) as [->| ->]; [done|].
  rewrite list_filter_filter. apply list_filter_iff. intros t. lia.
Qed.

Lemma canSendToChat_after_sweep t0 now later chatId l :
  chronological t0 l → now <= later →
  fst (canSendToChat later chatId (maybeCleanup now l)) =
  fst (canSendToChat later chatId l).
Proof.
  intros Hl Hle.
  destruct (isGroupChat chatId) eqn:Hregime.
  - rewrite !canSendToChat_group by done. by rewrite window_after_sweep.
  - destruct (chronological_recorded t0 chatId l Hl) as [Hs Hp].
    destruct (chronological_recorded t0 chatId _ (chronological_swept t0 now l Hl))
      as [Hs' Hp'].
    rewrite !canSendToChat_private by done.
    destruct (recorded_maybeCleanup now chatId l) as [->| ->]; [done|].
    destruct (last (recorded chatId l)) as [lastInstant|] eqn:Hlast.
    + rewrite (last_recent now _ lastInstant) by done.
      case_bool_decide as Hrecent; [done|].
      symmetry. apply bool_decide_eq_true. lia.
    + apply last_None in Hlast. by rewrite Hlast.
Qed.

Lemma getWaitTimeForChat_after_sweep now chatId l :
  fst (getWaitTimeForChat now chatId (maybeCleanup now l)) =
  fst (getWaitTimeForChat now chatId l).
Proof. unfold getWaitTimeForChat. by rewrite maybeCleanup_idemp. Qed.

(** X13. The per-chat wait time agrees with the admission check and is
    enough.  For a limiter filled by a clock that never runs back, a check
    at [now] followed by a wait-time read, as the request pipeline does:
    the wait time is 0 exactly when the check admits; when it refuses, the
    wait time lies in 1..1000 ms for a private chat and 1..60 000 ms for a
    group, and a check made that much later admits (for a group, if no
    more than 20 instants are in the window). *)
Theorem per_chat_wait_is_enough (t0 now : Z) (chatId : ChatId) (l : t) :
  chronological t0 l → t0 <= now →
  let allowed := fst (canSendToChat now chatId l) in
  let checked := snd (canSendToChat now chatId l) in
  let wait := fst (getWaitTimeForChat now chatId checked) in
  let waited := snd (getWaitTimeForChat now chatId checked) in
  (allowed = true ↔ wait = 0)
  ∧ (allowed = false →
     1 <= wait <= (if isGroupChat chatId then 60000 else 1000)
     ∧ ((isGroupChat chatId = true →
         Z.of_nat (length (filter (fun t => t > now - 60000)
                                  (recorded chatId l))) <= 20) →
        fst (canSendToChat (now + wait) chatId waited) = true)).
Proof.
  intros Hl Hnow. cbn zeta.
  rewrite getWaitTimeForChat_state, canSendToChat_state, maybeCleanup_idemp.
  rewrite getWaitTimeForChat_after_sweep.
  destruct (chronological_recorded t0 chatId l Hl) as [Hs Hp].
  pose proof (chronological_bound t0 chatId l Hl) as Hb.
  assert (Hlater : ∀ wait, 0 <= wait →
            fst (canSendToChat (now + wait) chatId (maybeCleanup now l)) =
            fst (canSendToChat (now + wait) chatId l)).
  { intros wait Hwait. apply (canSendToChat_after_sweep t0); [done|lia]. }
  destruct (isGroupChat chatId) eqn:Hregime.
  - rewrite canSendToChat_group, getWaitTimeForChat_group by done.
    destruct (filter _ (recorded chatId l)) as [|oldest rest] eqn:Hwindow.
    { split; [done|]. intros [=]. }
    assert (Hin : oldest > now - 60000 ∧ oldest ∈ recorded chatId l).
    { apply (list_elem_of_filter (fun t => t > now - 60000)).
      rewrite Hwindow. left. }
    destruct Hin as [Hrecent Hin].
    assert (Holdest : oldest <= now).
    { apply (proj1 (Forall_forall _ _) Hb) in Hin. lia. }
    case_bool_decide as Hallowed.
    { split; [done|]. intros [=]. }
    split; [split; [done|lia]|].
    intros _. split; [lia|]. intros Hfull.
    rewrite Hlater by lia. rewrite canSendToChat_group by done.
    apply bool_decide_eq_true.
    rewrite (list_filter_iff _ (fun t => t > oldest ∧ t > now - 60000))
      by (intros t; lia).
    rewrite <- list_filter_filter, Hwindow.
    pose proof (filter_drops_head oldest rest) as Hdrop.
    specialize (Hfull eq_refl). cbn [length] in Hfull. lia.
  - rewrite canSendToChat_private, getWaitTimeForChat_private by done.
    destruct (last (recorded chatId l)) as [lastInstant|] eqn:Hlast.
    2:{ split; [done|]. intros [=]. }
    assert (HlastIn : lastInstant ∈ recorded chatId l).
    { apply last_Some in Hlast as [old ->]. set_solver. }
    assert (HlastLe : lastInstant <= now).
    { apply (proj1 (Forall_forall _ _) Hb) in HlastIn. lia. }
    case_bool_decide as Hallowed.
    { split; [done|]. intros [=]. }
    split; [split; [done|lia]|].
    intros _. split; [lia|]. intros _.
    rewrite Hlater by lia. rewrite canSendToChat_private by done.
    rewrite Hlast. apply bool_decide_eq_true. lia.
Qed.

Lemma per_chat_wait_is_enough_witness :
  let l := recordChatMessage 5000 (NumId 111) (create 1000) in
  let checked := snd (canSendToChat 5400 (NumId 111) l) in
  fst (getWaitTimeForChat 5400 (NumId 111) checked) = 600
  ∧ fst (canSendToChat (5400 + 600) (NumId 111)
           (snd (getWaitTimeForChat 5400 (NumId 111) checked))) = true.
Proof.
  intros l checked.
  assert (Hl : chronological 5000 l).
  { apply (chronological_recordChatMessage 1000); [lia..|apply chronological_create]. }
  assert (Hnow : 5000 <= 5400) by lia.
  destruct (per_chat_wait_is_enough 5000 5400 (NumId 111) l Hl Hnow) as [_ Hrefused].
  destruct Hrefused as [_ Henough]; [by vm_compute|].
  assert (Hwait : fst (getWaitTimeForChat 5400 (NumId 111) checked) = 600)
    by (by vm_compute).
  split; [exact Hwait|].
  fold checked in Henough. rewrite Hwait in Henough. apply Henough.
  intros Hgroup. by vm_compute in Hgroup.
Defined.

(** X14. Asking costs nothing here either: for a limiter filled by a
    clock that never runs back, an admission check, a wait-time read or a
    count of tracked chats at some instant (each of which may sweep the
    table) leaves every later admission check, for any chat, with the
    answer it would have had without the read. *)
Theorem per_chat_reads_are_transparent
    (t0 now later : Z) (asked chatId : ChatId) (l : t) :
  chronological t0 l → now <= later →
  fst (canSendToChat later chatId (step now (CanSend asked) l)) =
    fst (canSendToChat later chatId l)
  ∧ fst (canSendToChat later chatId (step now (WaitTime asked) l)) =
    fst (canSendToChat later chatId l)
  ∧ fst (canSendToChat later chatId (step now Tracked l)) =
    fst (canSendToChat later chatId l).
Proof.
  intros Hl Hle. cbn [step getTrackedChatsCount snd].
  rewrite canSendToChat_state, getWaitTimeForChat_state.
  by rewrite (canSendToChat_after_sweep t0).
Qed.

Lemma per_chat_reads_are_transparent_witness :
  let l := recordChatMessage 5000 (NumId 111) (create 1000) in
  fst (canSendToChat 70000 (NumId 111) (step 69000 Tracked l)) =
  fst (canSendToChat 70000 (NumId 111) l).
Proof.
  intros l.
  assert (Hl : chronological 5000 l).
  { apply (chronological_recordChatMessage 1000); [lia..|apply chronological_create]. }
  assert (Hle : 69000 <= 70000) by lia.
  exact (proj2 (proj2 (per_chat_reads_are_transparent
                         5000 69000 70000 (NumId 111) (NumId 111) l Hl Hle))).
Defined.

Lemma chronological_step t0 now call l :
  chronological t0 l → t0 <= now → 0 < now → chronological now (step now call l).
Proof.
  intros Hl Hle Hpos.
  assert (Hread : chronological now (maybeCleanup now l)).
  { apply chronological_swept. by apply (chronological_mono t0). }
  destruct call as [chatId|chatId|chatId|]; cbn [step getTrackedChatsCount snd].
  - by rewrite canSendToChat_state.
  - by apply (chronological_recordChatMessage t0).
  - by rewrite getWaitTimeForChat_state.
  - done.
Qed.

Lemma runCalls_snoc calls call l :
  runCalls (calls ++ [call]) l = step (fst call) (snd call) (runCalls calls l).
Proof. unfold runCalls. by rewrite foldl_app. Qed.

Lemma sentTo_snoc chatId calls now call :
  sentTo chatId (calls ++ [(now, call)]) =
  sentTo chatId calls ++
    match call with
    | Record_ id => if decide (toKey id = toKey chatId) then [now] else []
    | _ => []
    end.
Proof.
  unfold sentTo. rewrite omap_app. f_equal.
  destruct call as [id|id|id|]; try done. cbn. by case_decide.
Qed.

Lemma sentTo_sorted chatId calls :
  StronglySorted Z.le (map fst calls) → StronglySorted Z.le (sentTo chatId calls).
Proof.
  induction calls as [|[now call] calls IH]; [constructor|].
  cbn [map fst]. intros Hs. apply StronglySorted_inv in Hs as [Hs Hhead].
  assert (Hskip : ∀ rest, rest = sentTo chatId calls → StronglySorted Z.le rest)
    by (intros rest ->; by apply IH).
  assert (Hkeep : StronglySorted Z.le (now :: sentTo chatId calls)).
  { constructor; [by apply IH|]. apply Forall_forall. intros sent Hsent.
    apply list_elem_of_omap in Hsent as ([now' call'] & Hin & Hsent).
    assert (sent = now') as ->.
    { cbn in Hsent. destruct call'; try done. by case_decide; simplify_eq. }
    apply (proj1 (Forall_forall _ _) Hhead).
    apply list_elem_of_fmap. by exists (now', call'). }
  unfold sentTo in *. cbn [omap list_omap snd fst].
  destruct call as [id|id|id|]; try by apply Hskip.
  case_decide; [exact Hkeep|by apply Hskip].
Qed.

Lemma clock_end_le t0 (clock : list Z) now :
  StronglySorted Z.le ((t0 :: clock) ++ [now]) →
  StronglySorted Z.le (t0 :: clock) ∧ t0 <= now ∧ default t0 (last clock) <= now.
Proof.
  intros Hs. apply StronglySorted_app in Hs as (Hbetween & Hs & _).
  split; [done|]. split.
  - apply Hbetween; [left|left].
  - destruct (last clock) as [tEnd|] eqn:Hlast; simpl.
    + apply Hbetween; [|left]. right. apply last_Some in Hlast as [old ->].
      apply elem_of_app. right. left.
    + apply Hbetween; [left|left].
Qed.

Lemma runCalls_window t0 calls :
  0 < t0 → StronglySorted Z.le (t0 :: map fst calls) →
  chronological (default t0 (last (map fst calls))) (runCalls calls (create t0))
  ∧ ∀ chatId later, default t0 (last (map fst calls)) <= later →
      filter (fun t => t > later - 60000)
             (recorded chatId (runCalls calls (create t0))) =
      filter (fun t => t > later - 60000) (sentTo chatId calls).
Proof.
  intros Hpos. induction calls as [|[now call] calls IH] using rev_ind.
  { intros _. split; [apply chronological_create|]. intros chatId later _.
    unfold recorded, runCalls, create. cbn. by rewrite lookup_empty. }
  rewrite fmap_app. cbn [fmap list_fmap fst]. rewrite last_snoc.
  change (default t0 (Some now)) with now.
  rewrite app_comm_cons. intros Hs.
  apply clock_end_le in Hs as (Hs & Hfirst & Hend).
  change (default t0 (last (map fst calls)) <= now) in Hend.
  destruct (IH Hs) as [Hl Hwindow]. clear IH.
  rewrite runCalls_snoc. cbn [fst snd].
  split; [apply (chronological_step _ _ _ _ Hl); lia|].
  intros chatId later Hlater. rewrite sentTo_snoc.
  assert (Hread : filter (fun t => t > later - 60000)
                    (recorded chatId (maybeCleanup now (runCalls calls (create t0)))) =
                  filter (fun t => t > later - 60000) (sentTo chatId calls ++ [])).
  { rewrite app_nil_r, window_after_sweep by done. apply Hwindow. lia. }
  destruct call as [id|id|id|]; cbn [step getTrackedChatsCount snd].
  - by rewrite canSendToChat_state.
  - rewrite recorded_recordChatMessage. case_decide.
    + rewrite !filter_app. f_equal. apply Hwindow. lia.
    + rewrite app_nil_r. apply Hwindow. lia.
  - by rewrite getWaitTimeForChat_state.
  - done.
Qed.

Lemma last_window later (ts : list Z) :
  StronglySorted Z.le ts →
  last (filter (fun t => t > later - 60000) ts) =
  match last ts with
  | Some lastInstant =>
      if bool_decide (lastInstant > later - 60000) then Some lastInstant else None
  | None => None
  end.
Proof.
  intros Hs. destruct (last ts) as [lastInstant|] eqn:Hlast.
  - by apply last_recent.
  - apply last_None in Hlast. by rewrite Hlast.
Qed.

(** X15. Admission follows the messages sent, and nothing else.  Start a
    limiter at [t0] and make any run of calls (admission checks, records,
    wait-time reads, counts, for any chats) at clock readings that never
    decrease.  A check at a later reading [later] then admits a group
    exactly when fewer than 20 of the messages recorded for that chat's
    key fall in the last 60 s, and a private chat exactly when no message
    was recorded for its key or the last one is at least 1000 ms old:
    reads, sweeps and other chats' messages have no influence. *)
Theorem per_chat_admission_follows_sends
    (t0 later : Z) (calls : list (Z * Call)) (chatId : ChatId) :
  0 < t0 → StronglySorted Z.le ((t0 :: map fst calls) ++ [later]) →
  fst (canSendToChat later chatId (runCalls calls (create t0))) =
  if isGroupChat chatId then
    bool_decide (Z.of_nat (length (filter (fun t => t > later - 60000)
                                          (sentTo chatId calls))) < 20)
  else
    match last (sentTo chatId calls) with
    | None => true
    | Some lastSent => bool_decide (later - lastSent >= 1000)
    end.
Proof.
  intros Hpos Hclock.
  apply clock_end_le in Hclock as (Hs & Hfirst & Hend).
  destruct (runCalls_window t0 calls Hpos Hs) as [Hl Hwindow].
  specialize (Hwindow chatId later Hend).
  destruct (isGroupChat chatId) eqn:Hregime.
  - rewrite canSendToChat_group by done. by rewrite Hwindow.
  - destruct (chronological_recorded _ chatId _ Hl) as [Hsorted Hp].
    rewrite canSendToChat_private by done.
    assert (Hsent : StronglySorted Z.le (sentTo chatId calls)).
    { apply sentTo_sorted. by apply StronglySorted_inv in Hs as [? _]. }
    apply (f_equal last) in Hwindow.
    rewrite !last_window in Hwindow by done.
    destruct (last (recorded chatId _)) as [lastInstant|],
             (last (sentTo chatId calls)) as [lastSent|];
      repeat case_bool_decide; simplify_eq; try done; lia.
Qed.

Lemma per_chat_admission_follows_sends_witness :
  let calls := [(2000, Record_ (NumId 111)); (2100, Record_ (NumId 222));
                (70000, Tracked); (70500, WaitTime (NumId 111));
                (70600, Record_ (StrId "111"))] in
  fst (canSendToChat 71000 (NumId 111) (runCalls calls (create 1000))) = false
  ∧ fst (canSendToChat 71000 (NumId 222) (runCalls calls (create 1000))) = true.
Proof.
  intros calls.
  assert (Hpos : 0 < 1000) by lia.
  assert (Hclock : StronglySorted Z.le ((1000 :: map fst calls) ++ [71000])).
  { repeat constructor; by vm_compute. }
  split.
  - by rewrite (per_chat_admission_follows_sends 1000 71000 calls (NumId 111) Hpos Hclock).
  - by rewrite (per_chat_admission_follows_sends 1000 71000 calls (NumId 222) Hpos Hclock).
Defined.

Lemma getWaitTimeForChat_bounds t0 later chatId l :
  chronological t0 l → t0 <= later →
  0 <= fst (getWaitTimeForChat later chatId l)
    <= (if isGroupChat chatId then 60000 else 1000).
Proof.
  intros Hl Hlater.
  destruct (chronological_recorded t0 chatId l Hl) as [Hs Hp].
  pose proof (chronological_bound t0 chatId l Hl) as Hb.
  destruct (isGroupChat chatId) eqn:Hregime.
  - rewrite getWaitTimeForChat_group by done.
    destruct (filter _ (recorded chatId l)) as [|oldest rest] eqn:Hwindow; [lia|].
    assert (Hin : oldest > later - 60000 ∧ oldest ∈ recorded chatId l).
    { apply (list_elem_of_filter (fun t => t > later - 60000)).
      rewrite Hwindow. left. }
    destruct Hin as [Hrecent Hin].
    apply (proj1 (Forall_forall _ _) Hb) in Hin.
    case_bool_decide; lia.
  - rewrite getWaitTimeForChat_private by done.
    destruct (last (recorded chatId l)) as [lastInstant|] eqn:Hlast; [|lia].
    assert (HlastIn : lastInstant ∈ recorded chatId l).
    { apply last_Some in Hlast as [old ->]. set_solver. }
    apply (proj1 (Forall_forall _ _) Hb) in HlastIn.
    case_bool_decide; lia.
Qed.

Lemma getWaitTimeForChat_refused t0 now chatId l :
  chronological t0 l → t0 <= now →
  fst (canSendToChat now chatId l) = false →
  1 <= fst (getWaitTimeForChat now chatId (maybeCleanup now l))
    <= (if isGroupChat chatId then 60000 else 1000).
Proof.
  intros Hl Hnow. rewrite getWaitTimeForChat_after_sweep.
  destruct (chronological_recorded t0 chatId l Hl) as [Hs Hp].
  pose proof (chronological_bound t0 chatId l Hl) as Hb.
  destruct (isGroupChat chatId) eqn:Hregime.
  - rewrite canSendToChat_group, getWaitTimeForChat_group by done.
    destruct (filter _ (recorded chatId l)) as [|oldest rest] eqn:Hwindow; [done|].
    assert (Hin : oldest > now - 60000 ∧ oldest ∈ recorded chatId l).
    { apply (list_elem_of_filter (fun t => t > now - 60000)).
      rewrite Hwindow. left. }
    destruct Hin as [Hrecent Hin].
    apply (proj1 (Forall_forall _ _) Hb) in Hin.
    case_bool_decide; [done|]. intros _. lia.
  - rewrite canSendToChat_private, getWaitTimeForChat_private by done.
    destruct (last (recorded chatId l)) as [lastInstant|] eqn:Hlast; [|done].
    assert (HlastIn : lastInstant ∈ recorded chatId l).
    { apply last_Some in Hlast as [old ->]. set_solver. }
    apply (proj1 (Forall_forall _ _) Hb) in HlastIn.
    case_bool_decide; [done|]. intros _. lia.
Qed.

End PerChatMoreFacts.

(** ** The circuit breaker over any run of calls *)

Section BreakerMoreFacts.
Import CircuitBreaker.

Lemma recordFailure_qualifying now errorCode b :
  qualifying errorCode = true →
  recordFailure now errorCode b =
  if bool_decide (consecutiveFailures b + 1 >= threshold)
  then mk (consecutiveFailures b + 1) now Open
  else mk (consecutiveFailures b + 1) (openedAt b) (state b).
Proof.
  intros Hq. unfold recordFailure.
  destruct errorCode as [code|]; [|done].
  cbn in Hq. apply Z.leb_le in Hq.
  by rewrite (proj2 (Z.ltb_ge code 500)) by lia.
Qed.

Lemma recordFailure_other now errorCode b :
  qualifying errorCode = false → recordFailure now errorCode b = b.
Proof.
  intros Hq. unfold recordFailure.
  destruct errorCode as [code|]; [|done].
  cbn in Hq. apply Z.leb_gt in Hq.
  by rewrite (proj2 (Z.ltb_lt code 500)) by lia.
Qed.

Lemma breaker_runCalls_snoc calls call b :
  runCalls (calls ++ [call]) b = step (fst call) (snd call) (runCalls calls b).
Proof. unfold runCalls. by rewrite foldl_app. Qed.

Lemma failureTimes_snoc calls now call :
  failureTimes (calls ++ [(now, call)]) =
  failureTimes calls ++
    match call with
    | Failed errorCode => if qualifying errorCode then [now] else []
    | _ => []
    end.
Proof.
  unfold failureTimes. rewrite omap_app. f_equal.
  destruct call as [| |errorCode]; try done. cbn. by destruct (qualifying _).
Qed.

(** X16. The phase follows the counter.  After any run of checks, success
    reports and failure reports on a fresh breaker: the counter is not
    negative; the breaker is closed exactly when fewer than 5 consecutive
    qualifying failures are counted; while it is open, its opening
    instant is that of the last qualifying failure reported (each further
    one restarts the 30 s reset period); and a qualifying failure reported
    to a half-open breaker opens it again at once. *)
Theorem breaker_phase_follows_counter (calls : list (Z * Call)) :
  let b := runCalls calls create in
  0 <= consecutiveFailures b
  ∧ (state b = Closed ↔ consecutiveFailures b < threshold)
  ∧ (state b = Open → last (failureTimes calls) = Some (openedAt b))
  ∧ (∀ now errorCode, state b = HalfOpen → qualifying errorCode = true →
       recordFailure now errorCode b = mk (consecutiveFailures b + 1) now Open).
Proof.
  cbn zeta.
  assert (Hinv : 0 <= consecutiveFailures (runCalls calls create)
            ∧ (state (runCalls calls create) = Closed ↔
               consecutiveFailures (runCalls calls create) < threshold)
            ∧ (state (runCalls calls create) = Open →
               last (failureTimes calls) =
               Some (openedAt (runCalls calls create)))).
  { induction calls as [|[now call] calls IH] using rev_ind.
    { cbn. unfold threshold. repeat split; try done; lia. }
    rewrite breaker_runCalls_snoc, failureTimes_snoc. cbn [fst snd].
    destruct IH as (Hcount & Hphase & Hopened).
    set (b := runCalls calls create) in *. unfold threshold in *.
    destruct call as [| |errorCode]; cbn [step].
    - rewrite app_nil_r. unfold isOpen.
      destruct (state b) eqn:Hstate; cbn [snd]; [by rewrite Hstate| |by rewrite Hstate].
      case_bool_decide; cbn [snd state consecutiveFailures openedAt].
      + split; [done|]. split; [|done].
        split; [done|]. intros Hfew. by apply Hphase in Hfew.
      + by rewrite Hstate.
    - cbn. repeat split; try done; lia.
    - destruct (qualifying errorCode) eqn:Hq.
      + rewrite recordFailure_qualifying by done. unfold threshold.
        case_bool_decide as Htrip; cbn [state consecutiveFailures openedAt].
        * split; [lia|]. split; [split; [done|lia]|].
          intros _. by rewrite last_snoc.
        * split; [lia|]. split.
          -- split; [lia|]. intros _. apply Hphase. lia.
          -- intros Hopen.
             assert (state b = Closed) by (apply Hphase; lia). congruence.
      + rewrite recordFailure_other, app_nil_r by done. done. }
  destruct Hinv as (Hcount & Hphase & Hopened).
  repeat split; try done; try apply Hphase.
  intros now errorCode Hhalf Hq.
  rewrite recordFailure_qualifying by done.
  rewrite bool_decide_eq_true_2; [done|].
  destruct (decide (consecutiveFailures (runCalls calls create) < threshold))
    as [Hfew|Hmany]; [|unfold threshold in *; lia].
  apply Hphase in Hfew. congruence.
Qed.

Lemma breaker_phase_follows_counter_witness :
  let calls := [(1, Failed None); (2, Failed (Some 500)); (3, Failed (Some 404));
                (4, Failed (Some 502)); (5, Failed None); (6, Failed (Some 503));
                (40000, Check)] in
  state (runCalls calls create) = HalfOpen
  ∧ recordFailure 41000 (Some 500) (runCalls calls create) = mk 6 41000 Open.
Proof.
  intros calls.
  destruct (breaker_phase_follows_counter calls) as (_ & _ & _ & Hreopen).
  split; [by vm_compute|].
  rewrite (Hreopen 41000 (Some 500)); by vm_compute.
Defined.

End BreakerMoreFacts.

(** ** The process as a whole *)

Section ProcessFacts.
Import Json Api Process.

Lemma limiterOk_swept now later rl :
  limiterOk now rl → limiterOk now (RateLimiter.cleanup later rl).
Proof.
  intros (Hlimit & Hs & Hb). unfold limiterOk, RateLimiter.cleanup. cbn.
  split; [done|]. split; [by apply StronglySorted_filter|by apply Forall_filter_keeps].
Qed.

Lemma limiterOk_cleanup now rl :
  limiterOk now rl → limiterOk now (RateLimiter.cleanup now rl).
Proof.
  intros (Hlimit & Hs & Hb). unfold limiterOk, RateLimiter.cleanup. cbn.
  split; [done|]. split; [by apply StronglySorted_filter|by apply Forall_filter_keeps].
Qed.

Lemma limiterOk_later now now' rl :
  now <= now' → limiterOk now rl → limiterOk now' rl.
Proof.
  intros Hle (Hlimit & Hs & Hb). split; [done|]. split; [done|].
  eapply Forall_impl; [exact Hb|]. simpl. lia.
Qed.

Lemma limiterOk_record now rl :
  limiterOk now rl → limiterOk now (RateLimiter.recordRequest now rl).
Proof.
  intros (Hlimit & Hs & Hb). unfold limiterOk, RateLimiter.recordRequest. cbn.
  split; [done|]. split.
  - apply StronglySorted_app. split; [|split; [done|repeat constructor]].
    intros x1 x2 Hx1 ->%list_elem_of_singleton.
    by apply (proj1 (Forall_forall _ _) Hb).
  - apply Forall_app. split; [done|]. repeat constructor. lia.
Qed.

Lemma getWaitTime_state now rl :
  snd (RateLimiter.getWaitTime now rl) = RateLimiter.cleanup now rl.
Proof.
  unfold RateLimiter.getWaitTime. case_bool_decide; [done|].
  by destruct (RateLimiter.requests _).
Qed.

Lemma cleanup_idemp_state now rl :
  RateLimiter.cleanup now (RateLimiter.cleanup now rl) = RateLimiter.cleanup now rl.
Proof. by apply cleanup_later. Qed.

Lemma breakerOk_isOpen now b :
  breakerOk b → breakerOk (snd (CircuitBreaker.isOpen now b)).
Proof.
  intros Hb. pose proof Hb as [Hcount Hphase]. unfold CircuitBreaker.isOpen.
  destruct (CircuitBreaker.state b) eqn:Hstate; [exact Hb| |exact Hb].
  case_bool_decide; [|exact Hb]. split; [done|]. cbn.
  split; [done|]. intros Hfew. apply Hphase in Hfew. congruence.
Qed.

Lemma breakerOk_recordSuccess b : breakerOk (CircuitBreaker.recordSuccess b).
Proof. split; cbn; [lia|]. by split. Qed.

Lemma breakerOk_recordFailure now errorCode b :
  breakerOk b → breakerOk (CircuitBreaker.recordFailure now errorCode b).
Proof.
  intros [Hcount Hphase].
  destruct (CircuitBreaker.qualifying errorCode) eqn:Hq.
  2:{ by rewrite recordFailure_other. }
  rewrite recordFailure_qualifying by done.
  unfold CircuitBreaker.threshold in *.
  case_bool_decide; (split; cbn; [lia|]); unfold CircuitBreaker.threshold.
  - split; [done|lia].
  - split; [lia|]. intros _. apply Hphase. lia.
Qed.

Lemma wellTimed_later w w' :
  clock w <= clock w' → rateLimiter w' = rateLimiter w →
  perChatLimiter w' = perChatLimiter w → circuitBreaker w' = circuitBreaker w →
  wellTimed w → wellTimed w'.
Proof.
  intros Hclock Hrl Hchat Hb (Hpos & Hlimiter & Hl & Hbreaker).
  unfold wellTimed, getPerChatLimiter in *. rewrite Hrl, Hchat, Hb.
  split; [lia|]. split; [by apply (limiterOk_later (clock w))|]. split; [|done].
  destruct (perChatLimiter w).
  - by apply (chronological_mono (clock w)).
  - apply chronological_create.
Qed.

Lemma wellTimed_probeCache method params w :
  wellTimed w → wellTimed (snd (probeCache method params w)).
Proof.
  unfold probeCache. destruct (Cache.isCacheable method); [|done].
  by apply wellTimed_later.
Qed.

Lemma wellTimed_checkBreaker w : wellTimed w → wellTimed (snd (checkBreaker w)).
Proof.
  intros (Hpos & Hlimiter & Hl & Hbreaker).
  split; [exact Hpos|]. split; [exact Hlimiter|]. split; [exact Hl|].
  by apply breakerOk_isOpen.
Qed.

Lemma wellTimed_withRateLimiter rl w :
  limiterOk (clock w) rl → wellTimed w → wellTimed (withRateLimiter rl w).
Proof.
  intros Hrl (Hpos & _ & Hl & Hbreaker).
  split; [exact Hpos|]. split; [exact Hrl|]. split; [exact Hl|exact Hbreaker].
Qed.

Lemma wellTimed_withPerChatLimiter l w :
  PerChatRateLimiter.chronological (clock w) l →
  wellTimed w → wellTimed (withPerChatLimiter l w).
Proof.
  intros Hl (Hpos & Hrl & _ & Hbreaker).
  split; [exact Hpos|]. split; [exact Hrl|]. split; [exact Hl|exact Hbreaker].
Qed.

Lemma wellTimed_withCircuitBreaker b w :
  breakerOk b → wellTimed w → wellTimed (withCircuitBreaker b w).
Proof.
  intros Hb (Hpos & Hrl & Hl & _).
  split; [exact Hpos|]. split; [exact Hrl|]. split; [exact Hl|exact Hb].
Qed.

Lemma afterTick_le env w : clock w <= afterTick env w.
Proof. unfold afterTick. lia. Qed.

Lemma wellTimed_withClock later w :
  clock w <= later → wellTimed w → wellTimed (withClock later w).
Proof. intros Hle. by apply wellTimed_later. Qed.

Lemma wellTimed_checkGlobalLimit env options w :
  wellTimed w → wellTimed (snd (checkGlobalLimit env options w)).
Proof.
  intros Hw. pose proof Hw as (_ & Hlimiter & _).
  unfold checkGlobalLimit. destruct (skipRateLimit options); [done|].
  destruct (fst (RateLimiter.canMakeRequest _ _)); cbn [snd].
  - apply wellTimed_withRateLimiter; [|done]. by apply limiterOk_cleanup.
  - rewrite getWaitTime_state.
    apply wellTimed_withClock; [exact (afterTick_le env w)|].
    apply wellTimed_withRateLimiter; [|done].
    cbn [RateLimiter.canMakeRequest snd]. by do 2 apply limiterOk_swept.
Qed.

Lemma wellTimed_checkChatLimit env method params options w :
  wellTimed w → wellTimed (snd (checkChatLimit env method params options w)).
Proof.
  intros Hw. pose proof Hw as (_ & _ & Hl & _).
  unfold checkChatLimit. destruct (_ && _); [|done].
  destruct (chatIdOf _ _) as [chatId|]; [|done].
  destruct (fst (PerChatRateLimiter.canSendToChat _ _ _)); cbn [snd].
  - rewrite canSendToChat_state. apply wellTimed_withPerChatLimiter; [|done].
    by apply chronological_swept.
  - rewrite getWaitTimeForChat_state, canSendToChat_state.
    apply wellTimed_withClock; [exact (afterTick_le env w)|].
    apply wellTimed_withPerChatLimiter; [|done].
    by do 2 apply chronological_swept.
Qed.

Lemma wellTimed_sleep ms w : wellTimed w → wellTimed (sleep ms w).
Proof. apply wellTimed_later; try done. cbn. lia. Qed.

Lemma wellTimed_onSuccess env method finalParams data w :
  wellTimed w → wellTimed (onSuccess env method finalParams data w).
Proof.
  intros Hw. unfold onSuccess.
  set (w1 := withCircuitBreaker _ w).
  assert (H1 : wellTimed w1).
  { apply wellTimed_withCircuitBreaker; [apply breakerOk_recordSuccess|done]. }
  set (w2 := if isMessageSending method then _ else w1).
  assert (H2 : wellTimed w2).
  { subst w2. destruct (isMessageSending method); [|done].
    destruct (chatIdOf _ _) as [chatId|]; [|done].
    pose proof H1 as (Hpos & _ & Hl & _).
    apply wellTimed_withPerChatLimiter; [|done].
    by apply (chronological_recordChatMessage (clock w1)). }
  destruct (_ && _); [|done]. by apply (wellTimed_later w2).
Qed.

Lemma wellTimed_onFailure errorCode w :
  wellTimed w → wellTimed (onFailure errorCode w).
Proof.
  intros Hw. pose proof Hw as (_ & _ & _ & Hb).
  apply wellTimed_withCircuitBreaker; [|done]. by apply breakerOk_recordFailure.
Qed.

Lemma wellTimed_attempt env method w :
  wellTimed w → wellTimed (snd (doFetch env method (recordRequest w))).
Proof.
  intros (Hpos & Hrl & Hl & Hb).
  apply (wellTimed_later (recordRequest w)); try done; [cbn; lia|].
  split; [exact Hpos|]. split; [by apply limiterOk_record|].
  split; [exact Hl|exact Hb].
Qed.

(** A property of the world that each stage keeps is kept by the retry
    loop and by the invocation. *)
Lemma iteration_preserves (P : World → Prop) env method finalParams timeoutMs
    retries attempt w :
  (∀ w, P w → P (snd (doFetch env method (recordRequest w)))) →
  (∀ data w, P w → P (onSuccess env method finalParams data w)) →
  (∀ errorCode w, P w → P (onFailure errorCode w)) →
  (∀ ms w, P w → P (sleep ms w)) →
  P w → P (stepWorld (iteration env method finalParams timeoutMs retries attempt w)).
Proof.
  intros Hattempt Hsuccess Hfailure Hsleep Hw. unfold iteration.
  specialize (Hattempt w Hw).
  destruct (fst (doFetch env method (recordRequest w))) as [data e|isTimeout msg e].
  - destruct (ok data); [by apply Hsuccess|].
    destruct (_ && _); [by apply Hsleep|by apply Hfailure].
  - destruct (_ <? _); [by apply Hsleep|by apply Hfailure].
Qed.

Lemma retryLoop_preserves (P : World → Prop) env method finalParams timeoutMs
    retries remaining :
  (∀ attempt w, P w →
     P (stepWorld (iteration env method finalParams timeoutMs retries attempt w))) →
  ∀ attempt lastResponse w, P w →
    P (snd (retryLoop env method finalParams timeoutMs retries remaining attempt
                      lastResponse w)).
Proof.
  intros Hstep. induction remaining as [|remaining IH];
    intros attempt lastResponse w Hw; [done|].
  rewrite retryLoop_S. specialize (Hstep attempt w Hw).
  destruct (iteration _ _ _ _ _ _ _) as [response w'|response w']; [done|].
  by apply IH.
Qed.

Lemma callTelegramAPI_preserves (P : World → Prop) env method params options w :
  (∀ w, P w → P (snd (probeCache method params w))) →
  (∀ w, P w → P (snd (checkBreaker w))) →
  (∀ w, P w → P (snd (checkGlobalLimit env options w))) →
  (∀ w, P w → P (snd (checkChatLimit env method params options w))) →
  (∀ finalParams timeoutMs retries attempt w, P w →
     P (stepWorld (iteration env method finalParams timeoutMs retries attempt w))) →
  P w → P (snd (callTelegramAPI env method params options w)).
Proof.
  intros Hprobe Hbreaker Hglobal Hchat Hstep Hw. unfold callTelegramAPI.
  specialize (Hprobe w Hw).
  destruct (fst (probeCache method params w)); [done|].
  specialize (Hbreaker _ Hprobe).
  destruct (fst (checkBreaker _)); [done|].
  specialize (Hglobal _ Hbreaker).
  destruct (fst (checkGlobalLimit _ _ _)); [done|].
  specialize (Hchat _ Hglobal).
  destruct (fst (checkChatLimit _ _ _ _ _)); [done|].
  destruct (upload env method (cleanParams params)); [|..|done];
    apply retryLoop_preserves; try done; intros; by apply Hstep.
Qed.

Lemma wellTimed_callTelegramAPI env method params options w :
  wellTimed w → wellTimed (snd (callTelegramAPI env method params options w)).
Proof.
  apply (callTelegramAPI_preserves wellTimed).
  - apply wellTimed_probeCache.
  - apply wellTimed_checkBreaker.
  - apply wellTimed_checkGlobalLimit.
  - apply wellTimed_checkChatLimit.
  - intros finalParams timeoutMs retries attempt w'. apply iteration_preserves.
    + apply wellTimed_attempt.
    + intros data w''. apply wellTimed_onSuccess.
    + apply wellTimed_onFailure.
    + apply wellTimed_sleep.
Qed.

Lemma wellTimed_getCircuitBreakerStatus w :
  wellTimed w → wellTimed (snd (Health.getCircuitBreakerStatus w)).
Proof. apply wellTimed_checkBreaker. Qed.

Lemma wellTimed_getRateLimiterStatus w :
  wellTimed w → wellTimed (snd (Health.getRateLimiterStatus w)).
Proof.
  intros Hw. pose proof Hw as (_ & Hrl & Hl & _).
  unfold Health.getRateLimiterStatus. cbn [snd fst].
  apply wellTimed_withPerChatLimiter.
  - cbn. by do 2 apply chronological_swept.
  - apply wellTimed_withRateLimiter; [|done].
    cbn. by do 3 apply limiterOk_cleanup.
Qed.

Lemma wellTimed_act env action w : wellTimed w → wellTimed (act env action w).
Proof.
  intros Hw. destruct action as [method params options|startTime| |ms]; cbn [act].
  - by apply wellTimed_callTelegramAPI.
  - unfold Health.getHealthStatus. cbn [snd].
    by apply wellTimed_getRateLimiterStatus, wellTimed_getCircuitBreakerStatus.
  - by apply wellTimed_getCircuitBreakerStatus.
  - by apply wellTimed_sleep.
Qed.

Lemma wellTimed_start env now :
  0 < now → 1 <= Config.rateLimitPerMinute (config env) → wellTimed (start env now).
Proof.
  intros Hpos Hlimit. split; [done|]. split; [|split].
  - split; [done|]. split; constructor.
  - apply chronological_create.
  - split; [done|]. by split.
Qed.

(** X17. The process keeps its books in order.  Start a process after the
    epoch with a rate limit of at least one and let it do anything, in
    any order: invocations of the client (with any replies, errors and
    retries), health and readiness probes, time passing.  In the world it
    reaches, the global limiter holds its instants in order with none
    after the clock, every chat's instants are in order, after the epoch
    and not after the clock, and the breaker is closed exactly when fewer
    than 5 consecutive failures are counted. *)
Theorem process_stays_well_timed (env : Env) (now : Z) (actions : list Action) :
  0 < now → 1 <= Config.rateLimitPerMinute (config env) →
  wellTimed (runActions env actions (start env now)).
Proof.
  intros Hpos Hlimit. unfold runActions.
  generalize (wellTimed_start env now Hpos Hlimit).
  generalize (start env now).
  induction actions as [|action actions IH]; intros w Hw; [done|].
  cbn [foldl]. apply IH. by apply wellTimed_act.
Qed.

Lemma process_stays_well_timed_witness :
  wellTimed (runActions networkDown
               [Invoke "sendMessage" [("chat_id", JNum 7); ("text", JStr "hi")] noOptions;
                Wait 500; ProbeHealth 0; Invoke "getMe" [] noOptions; ProbeReady]
               (start networkDown 1000)).
Proof.
  apply process_stays_well_timed; [lia|by vm_compute].
Defined.

Lemma probeCache_rest method params w :
  ∃ c, snd (probeCache method params w) = withCache c w.
Proof.
  unfold probeCache. destruct (Cache.isCacheable method); cbn [snd]; [by eexists|].
  exists (cache w). by rewrite withCache_same.
Qed.

Lemma isOpen_refusing now b :
  fst (CircuitBreaker.isOpen now b) = true →
  snd (CircuitBreaker.isOpen now b) = b
  ∧ CircuitBreaker.state b = CircuitBreaker.Open.
Proof.
  unfold CircuitBreaker.isOpen.
  destruct (CircuitBreaker.state b); [done| |done]. by case_bool_decide.
Qed.

Lemma isOpen_answer now b :
  fst (CircuitBreaker.isOpen now b) = true ↔
  CircuitBreaker.state (snd (CircuitBreaker.isOpen now b)) = CircuitBreaker.Open.
Proof.
  unfold CircuitBreaker.isOpen.
  destruct (CircuitBreaker.state b) eqn:Hstate; cbn; rewrite ?Hstate; [done| |done].
  case_bool_decide; cbn; [done|]. by rewrite Hstate.
Qed.

Lemma withCircuitBreaker_same w : withCircuitBreaker (circuitBreaker w) w = w.
Proof. by destruct w. Qed.

(** X18. Not ready means refused.  The readiness probe answers no
    exactly when the health report says unhealthy; and in a world where
    it answers no, every invocation that is not served from the cache is
    refused with the circuit-breaker reply (code 503), touching nothing
    but the cache entry it probed: no fetch, no instant recorded, the
    breaker as it was. *)
Theorem not_ready_means_refused
    (env : Env) (startTime : Z) (method : string) (params : Params)
    (options : ApiCallOptions) (w : World) :
  (fst (Health.isReady w) = false ↔
   Health.status (fst (Health.getHealthStatus startTime w)) = Health.Unhealthy)
  ∧ (fst (Health.isReady w) = false →
     fst (probeCache method params w) = None →
     callTelegramAPI env method params options w =
       (circuitOpenResponse, snd (probeCache method params w))
     ∧ error_code circuitOpenResponse = Some 503).
Proof.
  unfold Health.isReady, Health.getHealthStatus, Health.getCircuitBreakerStatus.
  unfold CircuitBreaker.getState. cbn [fst snd Health.status].
  split.
  - destruct (CircuitBreaker.state (snd (CircuitBreaker.isOpen _ _))); try done.
    by destruct (Health.limited _).
  - intros Hready Hmiss.
    assert (Hopen : fst (CircuitBreaker.isOpen (clock w) (circuitBreaker w)) = true).
    { apply isOpen_answer.
      by destruct (CircuitBreaker.state (snd (CircuitBreaker.isOpen _ _))). }
    split; [|done].
    unfold callTelegramAPI. rewrite Hmiss.
    destruct (probeCache_rest method params w) as [c ->].
    unfold checkBreaker. cbn [clock withCache circuitBreaker fst snd].
    rewrite Hopen. destruct (isOpen_refusing _ _ Hopen) as [-> _].
    by destruct w.
Qed.

Lemma not_ready_means_refused_witness :
  let w := withCircuitBreaker (CircuitBreaker.mk 5 1000 CircuitBreaker.Open)
             (start networkDown 2000) in
  fst (callTelegramAPI networkDown "getMe" [] noOptions w) = circuitOpenResponse.
Proof.
  intros w.
  destruct (not_ready_means_refused networkDown 0 "getMe" [] noOptions w)
    as [_ Hrefused].
  destruct Hrefused as [-> _]; by vm_compute.
Defined.

Lemma ceilSeconds_bounds ms :
  1 <= ms <= 60000 → 1 <= ceilSeconds ms <= 60.
Proof.
  intros Hms. unfold ceilSeconds.
  pose proof (Z.div_mod (- ms) 1000). pose proof (Z.mod_pos_bound (- ms) 1000).
  lia.
Qed.

Lemma ceilSeconds_range ms bound :
  0 <= bound → 0 <= ms <= bound * 1000 → 0 <= ceilSeconds ms <= bound.
Proof.
  intros Hbound Hms. unfold ceilSeconds.
  pose proof (Z.div_mod (- ms) 1000). pose proof (Z.mod_pos_bound (- ms) 1000).
  nia.
Qed.

Lemma ceilSeconds_second ms : 1 <= ms <= 1000 → ceilSeconds ms = 1.
Proof.
  intros Hms. unfold ceilSeconds.
  pose proof (Z.div_mod (- ms) 1000). pose proof (Z.mod_pos_bound (- ms) 1000).
  lia.
Qed.

Lemma afterTick_still env w : tick env (clock w) <= 0 → afterTick env w = clock w.
Proof. intros Hstill. unfold afterTick. lia. Qed.

Lemma getWaitTime_refused now rl :
  limiterOk now rl → fst (RateLimiter.canMakeRequest now rl) = false →
  ∃ waitMs, fst (RateLimiter.getWaitTime now (RateLimiter.cleanup now rl)) = Some waitMs
    ∧ 1 <= waitMs <= 60000.
Proof.
  intros (Hlimit & _ & Hpast). unfold RateLimiter.canMakeRequest, RateLimiter.getWaitTime.
  rewrite cleanup_idemp_state. cbn [fst]. intros Hfull. rewrite Hfull.
  apply bool_decide_eq_false in Hfull.
  destruct (RateLimiter.requests (RateLimiter.cleanup now rl))
    as [|oldest rest] eqn:Hremaining.
  { exfalso. apply Hfull. cbn. lia. }
  assert (Hin : oldest > now - 60000 ∧ oldest ∈ RateLimiter.requests rl).
  { apply (list_elem_of_filter (fun time => time > now - 60000)).
    change (oldest ∈ RateLimiter.requests (RateLimiter.cleanup now rl)).
    rewrite Hremaining. left. }
  destruct Hin as [Hrecent Hin].
  apply (proj1 (Forall_forall _ _) Hpast) in Hin.
  eexists. split; [done|]. lia.
Qed.

(** The wait time read at a later reading than the check: it can be 0. *)
Lemma getWaitTime_bounds now later rl :
  limiterOk now rl → now <= later →
  ∃ waitMs, fst (RateLimiter.getWaitTime later (RateLimiter.cleanup now rl)) = Some waitMs
    ∧ 0 <= waitMs <= 60000.
Proof.
  intros (Hlimit & _ & Hpast) Hlater. unfold RateLimiter.getWaitTime.
  rewrite cleanup_later by done.
  case_bool_decide as Hbudget; [exists 0; split; [done|lia]|].
  destruct (RateLimiter.requests (RateLimiter.cleanup later rl))
    as [|oldest rest] eqn:Hremaining.
  { exfalso. apply Hbudget. cbn. lia. }
  assert (Hin : oldest > later - 60000 ∧ oldest ∈ RateLimiter.requests rl).
  { apply (list_elem_of_filter (fun time => time > later - 60000)).
    change (oldest ∈ RateLimiter.requests (RateLimiter.cleanup later rl)).
    rewrite Hremaining. left. }
  destruct Hin as [Hrecent Hin].
  apply (proj1 (Forall_forall _ _) Hpast) in Hin.
  eexists. split; [done|]. lia.
Qed.

(** X19. Refused by the global limit.  In a world the process can be in,
    for a call that is not served from the cache, that the breaker lets
    pass and that does not skip rate limiting: if the limiter has no
    budget left, the reply is a failure with code 429 whose [retry_after]
    is a whole number of seconds from 0 to 60, and at least 1 when the
    clock has not moved between the refusal and the wait-time read (a
    tick in between can open the window again, and the wait is then 0).
    No fetch is made, no instant is recorded, the per-chat limiter is not
    consulted, and the breaker is not charged with a failure. *)
Theorem global_limit_refusal
    (env : Env) (method : string) (params : Params) (options : ApiCallOptions)
    (w : World) :
  wellTimed w →
  fst (probeCache method params w) = None →
  fst (CircuitBreaker.isOpen (clock w) (circuitBreaker w)) = false →
  skipRateLimit options = false →
  fst (RateLimiter.canMakeRequest (clock w) (rateLimiter w)) = false →
  let r := callTelegramAPI env method params options w in
  ok (fst r) = false ∧ error_code (fst r) = Some 429
  ∧ (∃ seconds, parameters (fst r) = Some (mkParameters None (Some seconds))
       ∧ 0 <= seconds <= 60
       ∧ (tick env (clock w) <= 0 → 1 <= seconds))
  ∧ clock (snd r) = afterTick env w
  ∧ sameTraffic w (snd r)
  ∧ perChatLimiter (snd r) = perChatLimiter w
  ∧ CircuitBreaker.consecutiveFailures (circuitBreaker (snd r)) =
    CircuitBreaker.consecutiveFailures (circuitBreaker w).
Proof.
  intros (_ & Hlimiter & _) Hmiss Hpass Hskip Hfull. cbn zeta.
  unfold callTelegramAPI. rewrite Hmiss.
  destruct (probeCache_rest method params w) as [c ->].
  unfold checkBreaker. cbn [clock withCache circuitBreaker fst snd]. rewrite Hpass.
  unfold checkGlobalLimit. rewrite Hskip.
  cbn [clock withCache withCircuitBreaker rateLimiter fst snd]. rewrite Hfull.
  set (w1 := withCircuitBreaker _ (withCache c w)).
  change (afterTick env w1) with (afterTick env w).
  destruct (getWaitTime_bounds _ _ _ Hlimiter (afterTick_le env w))
    as (waitMs & Hwait & Hrange).
  cbn [fst snd RateLimiter.canMakeRequest]. rewrite Hwait.
  split; [done|]. split; [done|]. split.
  { eexists. split; [done|]. split; [by apply ceilSeconds_range|].
    intros Hstill. rewrite (afterTick_still _ _ Hstill) in Hwait.
    destruct (getWaitTime_refused _ _ Hlimiter Hfull) as (waitMs' & Hwait' & Hrange').
    assert (waitMs = waitMs') as -> by congruence.
    by apply ceilSeconds_bounds. }
  split; [done|]. split; [done|]. split; [done|].
  cbn. unfold CircuitBreaker.isOpen.
  destruct (CircuitBreaker.state (circuitBreaker w)); [done| |done].
  by case_bool_decide.
Qed.

Lemma global_limit_refusal_witness :
  let w := repeatCall 60 (answering (mkResponse true (JBool true) None None None))
             "sendMessage" [("text", JStr "hi")] noOptions
             (start (answering (mkResponse true (JBool true) None None None)) 1000) in
  error_code (fst (callTelegramAPI
                     (answering (mkResponse true (JBool true) None None None))
                     "sendMessage" [("text", JStr "hi")] noOptions w)) = Some 429
  ∧ fetchCount w = 60%nat.
Proof.
  intros w.
  assert (Hw : wellTimed w).
  { assert (Hstart : wellTimed
              (start (answering (mkResponse true (JBool true) None None None)) 1000)).
    { apply wellTimed_start; [lia|by vm_compute]. }
    unfold w. revert Hstart. generalize (start (answering
      (mkResponse true (JBool true) None None None)) 1000).
    generalize 60%nat. intros n. induction n as [|n IH]; intros w0 Hw0; [done|].
    cbn [repeatCall]. by apply IH, wellTimed_callTelegramAPI. }
  split; [|by vm_compute].
  apply (global_limit_refusal _ _ _ _ w Hw); by vm_compute.
Defined.

(** X20. Refused by the per-chat limit.  In a world the process can be
    in, for a message-sending call with a chat id that is not served from
    the cache, that the breaker and the global limit let pass and that
    does not skip rate limiting: if the chat has no budget left, the
    reply is a failure with code 429 whose [retry_after] is 0 or 1 second
    for a private chat and 0 to 60 seconds for a group, and at least 1
    when the clock has not moved between the refusal and the wait-time
    read.  No fetch is made, and the global check that passed has
    recorded no instant. *)
Theorem chat_limit_refusal
    (env : Env) (method : string) (params : Params) (options : ApiCallOptions)
    (w : World) (chatId : PerChatRateLimiter.ChatId) :
  wellTimed w →
  fst (probeCache method params w) = None →
  fst (CircuitBreaker.isOpen (clock w) (circuitBreaker w)) = false →
  skipRateLimit options = false →
  fst (RateLimiter.canMakeRequest (clock w) (rateLimiter w)) = true →
  isMessageSending method = true →
  chatIdOf env (getField "chat_id" params) = Some chatId →
  fst (PerChatRateLimiter.canSendToChat (clock w) chatId (getPerChatLimiter w))
    = false →
  let r := callTelegramAPI env method params options w in
  ok (fst r) = false ∧ error_code (fst r) = Some 429
  ∧ (∃ seconds, parameters (fst r) = Some (mkParameters None (Some seconds))
       ∧ 0 <= seconds
            <= (if PerChatRateLimiter.isGroupChat chatId then 60 else 1)
       ∧ (tick env (clock w) <= 0 → 1 <= seconds))
  ∧ clock (snd r) = afterTick env w
  ∧ sameTraffic w (snd r)
  ∧ rateLimiter (snd r) = RateLimiter.cleanup (clock w) (rateLimiter w).
Proof.
  intros (_ & _ & Hl & _) Hmiss Hpass Hskip Hglobal Hsending Hchat Hfull. cbn zeta.
  unfold callTelegramAPI. rewrite Hmiss.
  destruct (probeCache_rest method params w) as [c ->].
  unfold checkBreaker. cbn [clock withCache circuitBreaker fst snd]. rewrite Hpass.
  unfold checkGlobalLimit. rewrite Hskip.
  cbn [clock withCache withCircuitBreaker rateLimiter fst snd]. rewrite Hglobal.
  cbn [fst snd].
  unfold checkChatLimit. rewrite Hskip, Hsending, Hchat. cbn [negb andb].
  set (w2 := withRateLimiter _ _).
  change (clock w2) with (clock w).
  change (getPerChatLimiter w2) with (getPerChatLimiter w).
  change (afterTick env w2) with (afterTick env w).
  rewrite Hfull. cbn [fst snd].
  rewrite canSendToChat_state.
  pose proof (getWaitTimeForChat_bounds (clock w) (afterTick env w) chatId _
                (chronological_swept _ (clock w) _ Hl) (afterTick_le env w)) as Hwait.
  split; [done|]. split; [done|]. split; [|by repeat split].
  eexists. split; [done|]. split.
  - destruct (PerChatRateLimiter.isGroupChat chatId);
      apply ceilSeconds_range; lia.
  - intros Hstill. rewrite (afterTick_still _ _ Hstill).
    pose proof (getWaitTimeForChat_refused (clock w) (clock w) chatId _ Hl
                  (Z.le_refl _) Hfull) as Hrefused.
    destruct (PerChatRateLimiter.isGroupChat chatId).
    + apply ceilSeconds_bounds. lia.
    + rewrite ceilSeconds_second by done. lia.
Qed.

Lemma chat_limit_refusal_witness :
  let env := answering (mkResponse true (JBool true) None None None) in
  let params := [("chat_id", JNum 7); ("text", JStr "hi")] in
  let w := snd (callTelegramAPI env "sendMessage" params noOptions (start env 1000)) in
  error_code (fst (callTelegramAPI env "sendMessage" params noOptions w)) = Some 429
  ∧ fetchCount (snd (callTelegramAPI env "sendMessage" params noOptions w)) = 1%nat.
Proof.
  intros env params w.
  assert (Hw : wellTimed w).
  { apply wellTimed_callTelegramAPI, wellTimed_start; [lia|by vm_compute]. }
  destruct (chat_limit_refusal env "sendMessage" params noOptions w
              (PerChatRateLimiter.NumId 7) Hw
              ltac:(by vm_compute) ltac:(by vm_compute) ltac:(by vm_compute)
              ltac:(by vm_compute) ltac:(by vm_compute) ltac:(by vm_compute)
              ltac:(by vm_compute))
    as (_ & Hcode & _ & _ & [Hcount _] & _).
  split; [exact Hcode|]. rewrite Hcount. by vm_compute.
Defined.

(** A tick between the refusal and the wait-time read: a message to a
    private chat 999 ms after the last one is refused, and the reply asks
    for a wait of 0 seconds. *)
Example refusal_can_ask_for_no_wait :
  let env := mkTickingEnv testConfig
               (fun _ => Replied (mkResponse true (JBool true) None None None) 5)
               (fun _ _ => NoFiles) (fun _ => true) (fun _ => 1) in
  let params := [("chat_id", JNum 7); ("text", JStr "hi")] in
  let w := snd (callTelegramAPI env "sendMessage" params noOptions (start env 1000)) in
  let r := callTelegramAPI env "sendMessage" params noOptions (sleep 999 w) in
  error_code (fst r) = Some 429
  ∧ parameters (fst r) = Some (mkParameters None (Some 0))
  ∧ fetchCount (snd r) = 1%nat.
Proof. by vm_compute. Qed.

Lemma CACHE_TTL_positive method ttl :
  Cache.CACHE_TTL method = Some ttl → 0 < ttl.
Proof.
  unfold Cache.CACHE_TTL.
  repeat (destruct (String.eqb method _); [intros [= <-]; lia|]). done.
Qed.

Lemma iteration_continue_failed env method finalParams timeoutMs retries attempt w
    response w' :
  iteration env method finalParams timeoutMs retries attempt w = Continue response w' →
  ok response = false.
Proof.
  unfold iteration.
  destruct (fst (doFetch env method (recordRequest w))) as [data e|isTimeout msg e].
  - destruct (ok data) eqn:Hok; [done|].
    destruct (_ && _); [|done]. by intros [= <- _].
  - destruct (_ <? _); [|done]. by intros [= <- _].
Qed.

Lemma iteration_return_ok env method finalParams timeoutMs retries attempt w
    response w' :
  iteration env method finalParams timeoutMs retries attempt w = Return response w' →
  ok response = true →
  ∃ before, w' = onSuccess env method finalParams response before.
Proof.
  unfold iteration.
  destruct (fst (doFetch env method (recordRequest w))) as [data e|isTimeout msg e].
  - destruct (ok data) eqn:Hok.
    + intros [= <- <-] _. by eexists.
    + destruct (_ && _); [done|]. intros [= <- _]. congruence.
  - destruct (_ <? _); [done|]. by intros [= <- _].
Qed.

Lemma retryLoop_ok env method finalParams timeoutMs retries remaining :
  ∀ attempt lastResponse w,
  (∀ response, lastResponse = Some response → ok response = false) →
  let r := retryLoop env method finalParams timeoutMs retries remaining attempt
                     lastResponse w in
  ok (fst r) = true →
  ∃ before, snd r = onSuccess env method finalParams (fst r) before.
Proof.
  induction remaining as [|remaining IH]; intros attempt lastResponse w Hlast.
  { cbn. destruct lastResponse as [response|]; [|done].
    cbn. by rewrite (Hlast response). }
  cbn zeta. rewrite retryLoop_S.
  destruct (iteration env method finalParams timeoutMs retries attempt w)
    as [response w'|response w'] eqn:Hstep.
  - cbn [fst snd]. by apply (iteration_return_ok _ _ _ _ _ _ _ _ _ Hstep).
  - apply IH. intros ? [= <-]. by apply (iteration_continue_failed _ _ _ _ _ _ _ _ _ Hstep).
Qed.

Lemma checkGlobalLimit_refusal env options w refusal :
  fst (checkGlobalLimit env options w) = Some refusal → ok refusal = false.
Proof.
  unfold checkGlobalLimit. destruct (skipRateLimit options); [done|].
  destruct (fst (RateLimiter.canMakeRequest _ _)); [done|]. by intros [= <-].
Qed.

Lemma checkChatLimit_refusal env method params options w refusal :
  fst (checkChatLimit env method params options w) = Some refusal →
  ok refusal = false.
Proof.
  unfold checkChatLimit. destruct (_ && _); [|done].
  destruct (chatIdOf _ _); [|done].
  destruct (fst (PerChatRateLimiter.canSendToChat _ _ _)); [done|]. by intros [= <-].
Qed.

Lemma onSuccess_stores env method finalParams data w ttl :
  Cache.CACHE_TTL method = Some ttl → isUndefined (result data) = false →
  clock (onSuccess env method finalParams data w) = clock w
  ∧ cache (onSuccess env method finalParams data w)
      !! Cache.generateKey method finalParams
    = Some (Cache.mkEntry (result data) (clock w + ttl)).
Proof.
  intros Httl Hdefined. pose proof (CACHE_TTL_positive _ _ Httl) as Hpos.
  unfold onSuccess, Cache.isCacheable. rewrite Httl, Hdefined. cbn [andb negb].
  destruct (isMessageSending method); [destruct (chatIdOf _ _)|];
    (split; [done|]); cbn [cache withCache clock withPerChatLimiter withCircuitBreaker];
    apply setCache_stores; lia.
Qed.

Lemma generateKey_cleanParams method params :
  Cache.generateKey method (cleanParams params) = Cache.generateKey method params.
Proof.
  unfold Cache.generateKey, cleanParams.
  by rewrite !stringify_object, written_idemp.
Qed.

(** X21. What was fetched is served from the cache.  For a cacheable
    method called without file uploads: if the call was not served from
    the cache and succeeded with a result other than null, then the same
    call made again, at any instant up to the method's time to live
    later, returns that result from the cache and leaves the world as it
    was: no second fetch is made. *)
Theorem fetched_result_is_served_from_cache
    (env : Env) (method : string) (params : Params)
    (options again : ApiCallOptions) (w : World) (ttl later : Z) :
  Cache.CACHE_TTL method = Some ttl →
  upload env method (cleanParams params) = NoFiles →
  fst (probeCache method params w) = None →
  let r := callTelegramAPI env method params options w in
  ok (fst r) = true →
  isUndefined (result (fst r)) = false → isNull (result (fst r)) = false →
  clock (snd r) <= later <= clock (snd r) + ttl →
  callTelegramAPI env method params again (withClock later (snd r)) =
    (cachedResponse (result (fst r)), withClock later (snd r)).
Proof.
  intros Httl Hupload Hmiss. cbn zeta.
  set (r := callTelegramAPI env method params options w).
  assert (Hshape : ok (fst r) = true →
            ∃ before, snd r = onSuccess env method (cleanParams params) (fst r) before).
  { unfold r, callTelegramAPI. rewrite Hmiss, Hupload.
    destruct (fst (checkBreaker _)); [done|].
    destruct (fst (checkGlobalLimit _ _ _)) as [refusal|] eqn:Hglobal.
    { apply checkGlobalLimit_refusal in Hglobal. cbn [fst]. congruence. }
    destruct (fst (checkChatLimit _ _ _ _ _)) as [refusal|] eqn:Hchat.
    { apply checkChatLimit_refusal in Hchat. cbn [fst]. congruence. }
    by apply retryLoop_ok. }
  clearbody r. intros Hok Hdefined Hvalue Hlater.
  destruct (Hshape Hok) as [before Hafter].
  destruct (onSuccess_stores env method (cleanParams params) (fst r) before ttl
              Httl Hdefined) as [Hclock Hstored].
  rewrite generateKey_cleanParams, <- Hafter in Hstored. rewrite <- Hafter in Hclock.
  apply (callTelegramAPI_hit _ _ _ _ _ (Cache.mkEntry (result (fst r)) (clock before + ttl))).
  - unfold Cache.isCacheable. by rewrite Httl.
  - exact Hstored.
  - cbn. lia.
  - cbn. by destruct (result (fst r)).
Qed.

Lemma fetched_result_is_served_from_cache_witness :
  let env := answering (mkResponse true (JStr "bot") None None None) in
  let r := callTelegramAPI env "getMe" [] noOptions (start env 1000) in
  callTelegramAPI env "getMe" [] noOptions (withClock 3000000 (snd r)) =
    (cachedResponse (JStr "bot"), withClock 3000000 (snd r)).
Proof.
  intros env r.
  apply (fetched_result_is_served_from_cache env "getMe" [] noOptions noOptions
           (start env 1000) 3600000 3000000); by vm_compute.
Defined.

Lemma callTelegramAPI_stages (P : World → Prop) env method params options w :
  (∀ w, P w → P (snd (probeCache method params w))) →
  (∀ w, P w → P (snd (checkBreaker w))) →
  (∀ w, P w → P (snd (checkGlobalLimit env options w))) →
  (∀ w, P w → P (snd (checkChatLimit env method params options w))) →
  (∀ w, P w → P (snd (doFetch env method (recordRequest w)))) →
  (∀ finalParams data w, P w → P (onSuccess env method finalParams data w)) →
  (∀ errorCode w, P w → P (onFailure errorCode w)) →
  (∀ ms w, P w → P (sleep ms w)) →
  P w → P (snd (callTelegramAPI env method params options w)).
Proof.
  intros Hprobe Hbreaker Hglobal Hchat Hattempt Hsuccess Hfailure Hsleep.
  apply callTelegramAPI_preserves; try done.
  intros finalParams timeoutMs retries attempt w'.
  apply iteration_preserves; try done. apply Hsuccess.
Qed.

(** X22. An invocation touches only what concerns it.  Whatever the
    transport does: the clock does not run back and the limiter keeps its
    budget; a call of a method that is not cacheable leaves the cache as
    it was; and a call of a method that sends no message leaves the
    per-chat limiter as it was. *)
Theorem invocation_touches_only_its_concerns
    (env : Env) (method : string) (params : Params) (options : ApiCallOptions)
    (w : World) :
  let after := snd (callTelegramAPI env method params options w) in
  clock w <= clock after
  ∧ RateLimiter.limitPerMinute (rateLimiter after) =
    RateLimiter.limitPerMinute (rateLimiter w)
  ∧ (Cache.isCacheable method = false → cache after = cache w)
  ∧ (isMessageSending method = false → perChatLimiter after = perChatLimiter w).
Proof.
  cbn zeta. split; [|split; [|split]].
  - apply (callTelegramAPI_stages (fun after => clock w <= clock after));
      try done; try (intros; cbn; lia).
    + intros w'. unfold probeCache. by destruct (Cache.isCacheable method).
    + intros w'. unfold checkGlobalLimit. destruct (skipRateLimit options); [done|].
      destruct (fst (RateLimiter.canMakeRequest _ _)); [done|].
      intros Hle. cbn. pose proof (afterTick_le env w'). lia.
    + intros w'. unfold checkChatLimit. destruct (_ && _); [|done].
      destruct (chatIdOf _ _); [|done].
      destruct (fst (PerChatRateLimiter.canSendToChat _ _ _)); [done|].
      intros Hle. cbn. pose proof (afterTick_le env w'). lia.
    + intros finalParams data w'. unfold onSuccess.
      destruct (isMessageSending method); [destruct (chatIdOf _ _)|];
        by destruct (_ && _).
  - apply (callTelegramAPI_stages
             (fun after => RateLimiter.limitPerMinute (rateLimiter after) =
                           RateLimiter.limitPerMinute (rateLimiter w)));
      try done.
    + intros w'. unfold probeCache. by destruct (Cache.isCacheable method).
    + intros w'. unfold checkGlobalLimit. destruct (skipRateLimit options); [done|].
      destruct (fst (RateLimiter.canMakeRequest _ _)); [done|].
      cbn [snd]. by rewrite getWaitTime_state.
    + intros w'. unfold checkChatLimit. destruct (_ && _); [|done].
      destruct (chatIdOf _ _); [|done].
      by destruct (fst (PerChatRateLimiter.canSendToChat _ _ _)).
    + intros finalParams data w'. unfold onSuccess.
      destruct (isMessageSending method); [destruct (chatIdOf _ _)|];
        by destruct (_ && _).
  - intros Hplain.
    apply (callTelegramAPI_stages (fun after => cache after = cache w)); try done.
    + intros w'. unfold probeCache. by rewrite Hplain.
    + intros w'. unfold checkGlobalLimit. destruct (skipRateLimit options); [done|].
      by destruct (fst (RateLimiter.canMakeRequest _ _)).
    + intros w'. unfold checkChatLimit. destruct (_ && _); [|done].
      destruct (chatIdOf _ _); [|done].
      by destruct (fst (PerChatRateLimiter.canSendToChat _ _ _)).
    + intros finalParams data w'. unfold onSuccess. rewrite Hplain.
      by destruct (isMessageSending method); [destruct (chatIdOf _ _)|].
  - intros Hquiet.
    apply (callTelegramAPI_stages (fun after => perChatLimiter after = perChatLimiter w));
      try done.
    + intros w'. unfold probeCache. by destruct (Cache.isCacheable method).
    + intros w'. unfold checkGlobalLimit. destruct (skipRateLimit options); [done|].
      by destruct (fst (RateLimiter.canMakeRequest _ _)).
    + intros w'. unfold checkChatLimit. rewrite Hquiet. by rewrite andb_false_r.
    + intros finalParams data w'. unfold onSuccess. rewrite Hquiet.
      by destruct (_ && _).
Qed.

Lemma invocation_touches_only_its_concerns_witness :
  let w := start networkDown 1000 in
  let after := snd (callTelegramAPI networkDown "getUpdates" [] noOptions w) in
  cache after = cache w ∧ perChatLimiter after = perChatLimiter w.
Proof.
  intros w after.
  destruct (invocation_touches_only_its_concerns networkDown "getUpdates" []
              noOptions w) as (_ & _ & Hcache & Hchat).
  split; [apply Hcache|apply Hchat]; by vm_compute.
Defined.

Lemma isOpen_idemp now b :
  CircuitBreaker.isOpen now (snd (CircuitBreaker.isOpen now b)) =
  CircuitBreaker.isOpen now b.
Proof.
  unfold CircuitBreaker.isOpen at 2 3.
  destruct (CircuitBreaker.state b) eqn:Hstate; cbn [snd].
  - unfold CircuitBreaker.isOpen. by rewrite Hstate.
  - case_bool_decide as Helapsed; cbn [snd]; [done|].
    unfold CircuitBreaker.isOpen. rewrite Hstate.
    by rewrite bool_decide_eq_false_2.
  - unfold CircuitBreaker.isOpen. by rewrite Hstate.
Qed.

(** The health report in terms of one check of the breaker, one cleanup
    of the global limiter and one sweep of the per-chat limiter. *)
Lemma getRateLimiterStatus_normal now store rl chats b fetched events :
  Health.getRateLimiterStatus (mkWorld now store rl chats b fetched events) =
  let rl' := RateLimiter.cleanup now rl in
  let l' := PerChatRateLimiter.maybeCleanup now
              (default (PerChatRateLimiter.create now) chats) in
  (Health.mkRateLimiterStatus
     (length (RateLimiter.requests rl'))
     (negb (bool_decide (Z.of_nat (length (RateLimiter.requests rl'))
                         < RateLimiter.limitPerMinute rl')))
     (size (PerChatRateLimiter.chatTimestamps l')),
   mkWorld now store rl' (Some l') b fetched events).
Proof.
  unfold Health.getRateLimiterStatus, RateLimiter.isLimited,
    RateLimiter.getRequestCount, RateLimiter.canMakeRequest,
    PerChatRateLimiter.getTrackedChatsCount, withPerChatLimiter, withRateLimiter,
    getPerChatLimiter.
  cbn [fst snd clock cache rateLimiter circuitBreaker perChatLimiter fetchCount
       history].
  rewrite !cleanup_idemp_state, !maybeCleanup_idemp.
  by destruct chats.
Qed.

Lemma getHealthStatus_normal startTime w :
  Health.getHealthStatus startTime w =
  let now := clock w in
  let b' := snd (CircuitBreaker.isOpen now (circuitBreaker w)) in
  let rl' := RateLimiter.cleanup now (rateLimiter w) in
  let l' := PerChatRateLimiter.maybeCleanup now (getPerChatLimiter w) in
  let isLimited :=
    negb (bool_decide (Z.of_nat (length (RateLimiter.requests rl'))
                       < RateLimiter.limitPerMinute rl')) in
  (Health.mkHealthStatus
     match CircuitBreaker.state b' with
     | CircuitBreaker.Open => Health.Unhealthy
     | CircuitBreaker.HalfOpen => Health.Degraded
     | CircuitBreaker.Closed => if isLimited then Health.Degraded else Health.Healthy
     end
     ((now - startTime) / 1000)
     (CircuitBreaker.state b') (CircuitBreaker.consecutiveFailures b')
     (fst (Cache.getCacheStats (cache w))) (snd (Cache.getCacheStats (cache w)))
     (Health.mkRateLimiterStatus
        (length (RateLimiter.requests rl')) isLimited
        (size (PerChatRateLimiter.chatTimestamps l'))),
   mkWorld now (cache w) rl' (Some l') b' (fetchCount w) (history w)).
Proof.
  destruct w as [now store rl chats b fetched events].
  unfold Health.getHealthStatus, Health.getCircuitBreakerStatus, withCircuitBreaker.
  cbn [fst snd clock cache rateLimiter circuitBreaker perChatLimiter fetchCount
       history].
  rewrite getRateLimiterStatus_normal.
  unfold getPerChatLimiter. cbn [perChatLimiter clock].
  by destruct chats.
Qed.

(** X23. A health probe is a read.  Probing twice at the same instant
    gives the same report as probing once and leaves the same world, for
    the health report and for the readiness probe; the report's [limited]
    flag is the negation of what an admission check of the global limiter
    would answer at that instant; and a probe makes no fetch, records no
    instant and leaves the cache alone. *)
Theorem health_probe_is_a_read (startTime : Z) (w : World) :
  let r := Health.getHealthStatus startTime w in
  Health.getHealthStatus startTime (snd r) = r
  ∧ Health.isReady (snd (Health.isReady w)) = Health.isReady w
  ∧ Health.limited (Health.rateLimiterStatus (fst r)) =
    negb (fst (RateLimiter.canMakeRequest (clock w) (rateLimiter w)))
  ∧ sameTraffic w (snd r)
  ∧ cache (snd r) = cache w.
Proof.
  destruct w as [now store rl chats b fetched events].
  cbn zeta. split; [|split; [|split; [|by split]]].
  - rewrite (getHealthStatus_normal startTime
               (snd (Health.getHealthStatus startTime _))).
    rewrite !getHealthStatus_normal.
    cbn [fst snd clock cache rateLimiter perChatLimiter circuitBreaker fetchCount
         history getPerChatLimiter].
    rewrite !isOpen_idemp, !cleanup_idemp_state, !maybeCleanup_idemp.
    reflexivity.
  - unfold Health.isReady, Health.getCircuitBreakerStatus.
    cbn [fst snd clock circuitBreaker withCircuitBreaker].
    by rewrite !isOpen_idemp.
  - by rewrite getHealthStatus_normal.
Qed.

End ProcessFacts.

(** ** File references *)

Section UploadFacts.
Import Json Upload.

Lemma startsWith_head s c p :
  Str.startsWith s (String c p) = true → ∃ s', s = String c s'.
Proof.
  unfold Str.startsWith. destruct s as [|c' s']; [done|]. cbn [String.prefix].
  destruct (ascii_dec c c') as [->|]; [by eexists|done].
Qed.

Lemma startsWith_outside s p :
  Str.startsWith s p = true → allFileIdChars p = false → allFileIdChars s = false.
Proof.
  unfold Str.startsWith. revert s. induction p as [|c p IH]; intros s; [done|].
  destruct s as [|c' s']; [done|]. cbn [String.prefix allFileIdChars].
  destruct (ascii_dec c c') as [<-|]; [|done].
  intros Hprefix. destruct (fileIdChar c); [|done]. cbn.
  by apply IH.
Qed.

Lemma fileIdPattern_outside s p :
  Str.startsWith s p = true → allFileIdChars p = false → fileIdPattern s = false.
Proof.
  intros Hprefix Hp. unfold fileIdPattern.
  by rewrite (startsWith_outside s p).
Qed.

(** X24. The guard of [isFileId] is implied by its pattern: a string is
    a file id exactly when it consists of at least 20 characters of
    [A-Za-z0-9_-], because no such string starts with a slash or with one
    of the schemes that the guard excludes. *)
Theorem file_id_is_its_pattern (value : string) :
  isFileId (JStr value) = fileIdPattern value.
Proof.
  unfold isFileId.
  destruct (Str.startsWith value "/") eqn:Hslash.
  { symmetry. by apply (fileIdPattern_outside _ "/"). }
  destruct (Str.startsWith value "http://") eqn:Hhttp.
  { symmetry. by apply (fileIdPattern_outside _ "http://"). }
  destruct (Str.startsWith value "https://") eqn:Hhttps.
  { symmetry. by apply (fileIdPattern_outside _ "https://"). }
  destruct (Str.startsWith value "file://") eqn:Hfile; [|done].
  symmetry. by apply (fileIdPattern_outside _ "file://").
Qed.

(** X25. A value is at most one kind of file reference, whatever the
    file system holds: a local path (which then names an existing file
    by an absolute path) is neither a URL nor a file id, and a URL is no
    file id.  So the order of the tests in [getFileReferenceType] does
    not matter: it answers with a kind exactly when that kind's test
    holds. *)
Theorem file_reference_kinds_are_exclusive
    (existsSync : string → bool) (value : json) :
  (isLocalFilePath existsSync value = true →
     isHttpUrl value = false ∧ isFileId value = false
     ∧ ∃ text, value = JStr text
         ∧ Str.startsWith (extractFilePath text) "/" = true
         ∧ existsSync (extractFilePath text) = true)
  ∧ (isHttpUrl value = true → isFileId value = false)
  ∧ (getFileReferenceType existsSync value = LocalFile ↔
     isLocalFilePath existsSync value = true)
  ∧ (getFileReferenceType existsSync value = Url ↔ isHttpUrl value = true)
  ∧ (getFileReferenceType existsSync value = FileId ↔ isFileId value = true).
Proof.
  assert (Hlocal : isLocalFilePath existsSync value = true →
     isHttpUrl value = false ∧ isFileId value = false
     ∧ ∃ text, value = JStr text
         ∧ Str.startsWith (extractFilePath text) "/" = true
         ∧ existsSync (extractFilePath text) = true).
  { destruct value as [| | | |text| |]; try done.
    unfold isLocalFilePath, extractFilePath, isHttpUrl, isFileId.
    destruct (Str.startsWith text "file://") eqn:Hfile.
    - destruct (Str.startsWith (slice 7 text) "/") eqn:Hslash; [|done].
      intros Hexists. rewrite orb_true_r.
      destruct (startsWith_head _ _ _ Hfile) as [rest Hrest].
      split; [by rewrite Hrest|]. split; [done|].
      exists text. by rewrite Hfile.
    - destruct (Str.startsWith text "/") eqn:Hslash; [|done].
      intros Hexists. destruct (startsWith_head _ _ _ Hslash) as [rest Hrest].
      split; [by rewrite Hrest|]. split; [done|].
      exists text. by rewrite Hfile. }
  assert (Hurl : isHttpUrl value = true → isFileId value = false).
  { destruct value as [| | | |text| |]; try done.
    unfold isHttpUrl, isFileId. intros Hhttp.
    destruct (Str.startsWith text "/"); [done|]. cbn [orb].
    destruct (Str.startsWith text "http://"); [done|]. cbn [orb] in *.
    by rewrite Hhttp. }
  split; [exact Hlocal|]. split; [exact Hurl|].
  unfold getFileReferenceType.
  destruct (isLocalFilePath existsSync value) eqn:Hl.
  { destruct (Hlocal eq_refl) as (-> & -> & _). by repeat split. }
  destruct (isHttpUrl value) eqn:Hu.
  { rewrite (Hurl eq_refl). by repeat split. }
  destruct (isFileId value); by repeat split.
Qed.

Lemma file_reference_kinds_are_exclusive_witness :
  let existsSync := fun path => String.eqb path "/tmp/photo.jpg" in
  isHttpUrl (JStr "file:///tmp/photo.jpg") = false
  ∧ getFileReferenceType existsSync (JStr "file:///tmp/photo.jpg") = LocalFile.
Proof.
  intros existsSync.
  destruct (file_reference_kinds_are_exclusive existsSync (JStr "file:///tmp/photo.jpg"))
    as (Hlocal & _ & Hkind & _).
  split; [by apply Hlocal|by apply Hkind].
Defined.

End UploadFacts.
